(** * The connection-pool manager ([DatabaseManager]) of the Express backend

    A shallow embedding of the class [DatabaseManager] (pool registry,
    command executor, retry supervisor, transaction coordinator and bulk
    loader) and the properties its specification states about it.

    Modelling choices, all of them visible in the definitions below:

    - The [mssql] driver and the database are outside the repository.  They
      are a parameter: a record [Driver] of functions over an abstract
      external state [Ext].  Every driver call may succeed or reject.
    - A method of the class is a function from the manager's state to an
      outcome (a value or a thrown error), a new state and the list of
      effects it performed, in the order it performed them: log lines,
      driver calls, timer waits, calls of a caller-supplied operation.
    - An [async] method is run to completion: interleavings with other
      callers at an [await] are not part of the model.  The close of a pool
      is the exception: the call of the pool's own [close], which returns a
      promise, and the settlement of that promise are two steps, so that
      the state in which a close is pending can be looked at and
      [Promise.all] sees the closes settle in the order the driver settles
      them.
    - JavaScript numbers that the manager uses as counters and delays are
      integers ([Z]).  The numbers that the routes compute with are
      doubles: see [JsNumber] below. *)

From Stdlib Require Import String List ZArith Bool Arith Lia Permutation.
From Equations Require Import Equations.
Import ListNotations.

Local Open Scope string_scope.
Local Open Scope list_scope.

Set Implicit Arguments.

(** ** JavaScript values, errors and objects *)

Inductive Value : Type :=
| VUndefined
| VNull
| VBool (b : bool)
| VNum (n : Z)
| VStr (s : string)
(** the numbers that are not finite *)
| VInfinity (negative : bool)
| VNaN
(** a method or an object of the language, by its name *)
| VBuiltin (name : string).

(** An error object: its message and, when it wraps another error, its
    cause.  [new_Error message] is [new Error(message)], which has no
    cause. *)
Inductive Error : Type :=
| new_Error (message : string)
| Error_with_cause (message : string) (cause : Error).

Definition err_message (e : Error) : string :=
  match e with new_Error m => m | Error_with_cause m _ => m end.

Definition err_cause (e : Error) : option Error :=
  match e with new_Error _ => None | Error_with_cause _ c => Some c end.

(** [wraps e c]: the error [e] carries [c] as its cause. *)
Definition wraps (e c : Error) : Prop := err_cause e = Some c.

(** An error followed by its cause, the cause of its cause, and so on: the
    failures that the error reports. *)
Fixpoint error_chain (e : Error) : list Error :=
  e :: match e with
       | new_Error _ => []
       | Error_with_cause _ c => error_chain c
       end.

(** A plain object used as a record of fields: its own fields, in the
    iteration order of [Object.keys]. *)
Definition Entity : Type := list (string * Value).

Definition Object_keys (entity : Entity) : list string := map fst entity.

(** What a plain object inherits from [Object.prototype] under the name
    [key]: one of its methods, the prototype itself under [__proto__], and
    nothing ([undefined]) under any other name. *)
Definition Object_prototype (key : string) : Value :=
  if String.eqb key "__proto__" then VBuiltin "Object.prototype"
  else if existsb (String.eqb key)
            ["constructor"; "hasOwnProperty"; "isPrototypeOf"; "propertyIsEnumerable";
             "toLocaleString"; "toString"; "valueOf";
             "__defineGetter__"; "__defineSetter__"; "__lookupGetter__"; "__lookupSetter__"]
  then VBuiltin ("Object.prototype." ++ key)
  else VUndefined.

(** [entity[key]]: the value of the entity's own field of that name, and
    when it has none what it inherits under that name. *)
Fixpoint entity_get (entity : Entity) (key : string) : Value :=
  match entity with
  | [] => Object_prototype key
  | (k, v) :: rest => if String.eqb k key then v else entity_get rest key
  end.

(** JavaScript truthiness of a string: only the empty string is falsy. *)
Definition truthy (s : string) : bool := negb (String.eqb s "").

(** ** A JavaScript [Map] with string keys

    Insertion ordered; [set] on a present key keeps its position. *)
Module JsMap.
Section JsMap.
Variable V : Type.

Definition t : Type := list (string * V).

Fixpoint get (k : string) (m : t) : option V :=
  match m with
  | [] => None
  | (k', v) :: rest => if String.eqb k' k then Some v else get k rest
  end.

Definition has (k : string) (m : t) : bool :=
  match get k m with Some _ => true | None => false end.

Fixpoint set (k : string) (v : V) (m : t) : t :=
  match m with
  | [] => [(k, v)]
  | (k', v') :: rest =>
      if String.eqb k' k then (k, v) :: rest else (k', v') :: set k v rest
  end.

Fixpoint delete (k : string) (m : t) : t :=
  match m with
  | [] => []
  | (k', v') :: rest =>
      if String.eqb k' k then delete k rest else (k', v') :: delete k rest
  end.

Definition values (m : t) : list V := map snd m.
Definition keys (m : t) : list string := map fst m.
End JsMap.
End JsMap.

(** ** The data the manager passes to the driver *)

Inductive SqlType : Type :=
| SqlInt
| SqlVarChar
| SqlNamed (n : string).

(** [{name, value, type?}], for inputs and outputs alike. *)
Record Param : Type := mkParam {
  param_name : string;
  param_value : Value;
  param_type : option SqlType
}.

Inductive CommandType : Type := query | execute.

Inductive ParamDir : Type := input | output.

(** One call of [request.input] or [request.output]: with three arguments
    when the parameter has a type tag, with two otherwise. *)
Inductive BindCall : Type :=
| Bind3 (dir : ParamDir) (name : string) (type : SqlType) (value : Value)
| Bind2 (dir : ParamDir) (name : string) (value : Value).

Record Config : Type := mkConfig {
  cfg_user : string;
  cfg_password : string;
  cfg_server : string;
  cfg_database : string;
  cfg_pool_min : Z;
  cfg_pool_max : Z;
  cfg_acquireTimeoutMillis : Z;
  cfg_encrypt : bool;
  cfg_trustServerCertificate : bool
}.

Record Column : Type := mkColumn {
  column_name : string;
  column_type : SqlType;
  column_options : option Entity
}.

(** [mssql.Table]: its columns and rows, in the order they were added. *)
Record Table : Type := mkTable {
  table_name : string;
  table_columns : list (string * SqlType * Entity);
  table_rows : list (list Value)
}.

Definition new_Table (tableName : string) : Table := mkTable tableName [] [].

Definition columns_add (t : Table) (name : string) (ty : SqlType) (options : Entity) : Table :=
  mkTable (table_name t) (table_columns t ++ [(name, ty, options)]) (table_rows t).

Definition rows_add (t : Table) (row : list Value) : Table :=
  mkTable (table_name t) (table_columns t) (table_rows t ++ [row]).

(** A request is made on a pool ([pool.request()]) or on a transaction
    ([new mssql.Request(transaction)]); a transaction is the one of its
    pool. *)
Inductive Target : Type :=
| OnPool (id : nat)
| OnTransaction (id : nat).

Record TransactionOp : Type := mkOp {
  op_commandType : CommandType;
  op_command : string;
  op_inputs : option (list Param);
  op_outputs : option (list Param)
}.

(** A pool object as the registry holds it: a fresh identity, the
    configuration it was built from and the registry name that its rebound
    [close] removes. *)
Record Pool : Type := mkPool {
  pool_id : nat;
  pool_config : Config;
  pool_name : string
}.

(** ** Effects *)

Inductive Level : Type := LvInfo | LvWarn | LvError.

(** One constructor for each log statement of the class. *)
Inductive LogMsg : Type :=
| ClosingPool (name : string)
| PoolSet (name : string)
| ErrorSettingPool (name : string)
| FailedToSetPool (e : Error)
| ErrorGettingPool (name : string) (e : Error)
| RunningCommand (commandType : CommandType) (poolName : string)
| ErrorRunningCommand (poolName : string) (e : Error)
| OperationFailedRetrying (retries : Z) (e : Error)
| OperationFailedAfterRetries (e : Error)
| ExecutingWithEntity (poolName : string)
| ErrorExecutingWithEntity (poolName : string) (e : Error)
| BulkInsertCompleted (tableName poolName : string)
| ErrorDuringBulkInsert (poolName : string) (e : Error)
| TransactionBeginError (e : Error)
| TransactionOperationError (e : Error)
| TransactionCommitted
| TransactionRollbackError (e : Error)
| TransactionExecutionError (e : Error).

Inductive Event : Type :=
| Log (level : Level) (msg : LogMsg)
| NewConnectionPool (id : nat) (config : Config)
| PoolConnect (id : nat)
(** the call of a pool's own [close], and the names that the registry
    holds when it is called *)
| PoolClose (id : nat) (registered : list string)
| TxBegin (id : nat)
| TxCommit (id : nat)
| TxRollback (id : nat)
| RequestRun (target : Target) (commandType : CommandType) (command : string)
             (binds : list BindCall)
| RequestBulk (id : nat) (table : Table)
| OperationCall
| Timeout (ms : Z).

(** ** The driver *)

Record Driver (Ext R : Type) : Type := mkDriver {
  (** [new mssql.ConnectionPool(config)]; [Some e] when it throws. *)
  drv_new : nat -> Config -> Ext -> option Error * Ext;
  drv_connected : nat -> Ext -> bool;
  drv_connecting : nat -> Ext -> bool;
  drv_connect : nat -> Ext -> option Error * Ext;
  (** the pool's own [close], before it is rebound: what it has done to
      the external state and what it answers when its promise settles *)
  drv_close : nat -> Ext -> option Error * Ext;
  (** the instant at which the promise of a close settles, read when the
      close is called: promises settle by increasing instant, and those of
      one instant in the order of their calls *)
  drv_close_settles : nat -> Ext -> nat;
  (** [request.input] / [request.output] on a request that already holds
      the given calls; [Some e] when it throws. *)
  drv_bind : list BindCall -> BindCall -> option Error;
  drv_run : Target -> CommandType -> string -> list BindCall -> Ext -> (Error + R) * Ext;
  drv_bulk : nat -> Table -> Ext -> option Error * Ext;
  drv_begin : nat -> Ext -> option Error * Ext;
  drv_commit : nat -> Ext -> option Error * Ext;
  drv_rollback : nat -> Ext -> option Error * Ext
}.

(** ** The manager's state and its computations *)

Record World (Ext : Type) : Type := mkWorld {
  pools : JsMap.t Pool;
  next_id : nat;
  ext : Ext
}.

Inductive Result (A : Type) : Type :=
| Ok (a : A)
| Err (e : Error).
Arguments Ok {A} a.
Arguments Err {A} e.

Definition M (Ext A : Type) : Type := World Ext -> Result A * World Ext * list Event.

Definition ret {Ext A} (a : A) : M Ext A := fun w => (Ok a, w, []).

Definition throw {Ext A} (e : Error) : M Ext A := fun w => (Err e, w, []).

Definition bind {Ext A B} (m : M Ext A) (f : A -> M Ext B) : M Ext B :=
  fun w =>
    match m w with
    | (Ok a, w1, t1) => let '(r, w2, t2) := f a w1 in (r, w2, t1 ++ t2)
    | (Err e, w1, t1) => (Err e, w1, t1)
    end.

(** [try { m } catch (error) { handler error }] *)
Definition try_catch {Ext A} (m : M Ext A) (handler : Error -> M Ext A) : M Ext A :=
  fun w =>
    match m w with
    | (Ok a, w1, t1) => (Ok a, w1, t1)
    | (Err e, w1, t1) => let '(r, w2, t2) := handler e w1 in (r, w2, t1 ++ t2)
    end.

Definition emit {Ext} (ev : Event) : M Ext unit := fun w => (Ok tt, w, [ev]).

Definition logger {Ext} (level : Level) (msg : LogMsg) : M Ext unit := emit (Log level msg).

Declare Scope manager_scope.
Delimit Scope manager_scope with manager.
Notation "x <- m ;; k" := (bind m (fun x => k))
  (at level 100, m at next level, right associativity) : manager_scope.
Notation "m ;;; k" := (bind m (fun _ => k))
  (at level 100, right associativity) : manager_scope.
Local Open Scope manager_scope.

(** A pending promise: the instant at which it settles, and what its
    settlement does and answers in the state in which it happens. *)
Record Promise (Ext A : Type) : Type := mkPromise {
  settles_at : nat;
  settle : M Ext A
}.

(** [await promise], run to completion: nothing else runs before the
    promise settles. *)
Definition await {Ext A} (promise : Promise Ext A) : M Ext A := settle promise.

(** The order in which things settle: by increasing instant, and in the
    order of the list within one instant. *)
Fixpoint insert_by {X} (instant : X -> nat) (a : X) (sorted : list X) : list X :=
  match sorted with
  | [] => [a]
  | b :: rest =>
      if Nat.ltb (instant b) (instant a)
      then b :: insert_by instant a rest
      else a :: b :: rest
  end.

Definition sort_by {X} (instant : X -> nat) (l : list X) : list X :=
  fold_right (insert_by instant) [] l.

Definition result_of {Ext A} (o : Result A * World Ext * list Event) : Result A := fst (fst o).
Definition world_of {Ext A} (o : Result A * World Ext * list Event) : World Ext := snd (fst o).
Definition trace_of {Ext A} (o : Result A * World Ext * list Event) : list Event := snd o.

(** ** The class [DatabaseManager] *)

Section DatabaseManager.
Context {Ext R : Type}.
Variable drv : Driver Ext R.

Local Abbreviation World := (World Ext).
Local Abbreviation M := (M Ext).

(** *** Access to [this.pools] *)

Definition pools_has (name : string) : M bool :=
  fun w => (Ok (JsMap.has name (pools w)), w, []).

Definition pools_get (name : string) : M (option Pool) :=
  fun w => (Ok (JsMap.get name (pools w)), w, []).

Definition pools_set (name : string) (pool : Pool) : M unit :=
  fun w => (Ok tt, mkWorld (JsMap.set name pool (pools w)) (next_id w) (ext w), []).

Definition pools_delete (name : string) : M unit :=
  fun w => (Ok tt, mkWorld (JsMap.delete name (pools w)) (next_id w) (ext w), []).

Definition pools_values : M (list Pool) :=
  fun w => (Ok (JsMap.values (pools w)), w, []).

(** *** Driver calls

    Each one records the call and threads the external state. *)

Definition call (ev : Event) (f : Ext -> option Error * Ext) : M unit :=
  fun w =>
    let '(o, x) := f (ext w) in
    (match o with None => Ok tt | Some e => Err e end,
     mkWorld (pools w) (next_id w) x, [ev]).

(** [new mssql.ConnectionPool(config)] followed by the rebinding of its
    [close] (lines 150-157): the new object remembers [name]. *)
Definition new_ConnectionPool (name : string) (config : Config) : M Pool :=
  fun w =>
    let id := next_id w in
    let '(o, x) := drv_new drv id config (ext w) in
    match o with
    | None => (Ok (mkPool id config name), mkWorld (pools w) (S id) x,
               [NewConnectionPool id config])
    | Some e => (Err e, mkWorld (pools w) (next_id w) x, [NewConnectionPool id config])
    end.

Definition pool_connected (pool : Pool) : M bool :=
  fun w => (Ok (drv_connected drv (pool_id pool) (ext w)), w, []).

Definition pool_connecting (pool : Pool) : M bool :=
  fun w => (Ok (drv_connecting drv (pool_id pool) (ext w)), w, []).

Definition pool_connect (pool : Pool) : M unit :=
  call (PoolConnect (pool_id pool)) (drv_connect drv (pool_id pool)).

(** The settlement of the pool's own [close]: the driver has acted on the
    external state and answers.  The registry is not the driver's. *)
Definition close_settles (pool : Pool) : M unit :=
  fun w =>
    let '(o, x) := drv_close drv (pool_id pool) (ext w) in
    (match o with None => Ok tt | Some e => Err e end,
     mkWorld (pools w) (next_id w) x, []).

(** The call [close(...args)] of the pool's own [close] (the function that
    line 151 keeps): it returns a promise, which the driver settles
    later. *)
Definition pool_own_close (pool : Pool) : M (Promise Ext unit) :=
  fun w =>
    (Ok (mkPromise (drv_close_settles drv (pool_id pool) (ext w)) (close_settles pool)),
     w, [PoolClose (pool_id pool) (JsMap.keys (pools w))]).

(** The call [pool.close()] of the rebound [close] (lines 153-157), up to
    the promise it returns: log, remove the entry of the captured name,
    call the pool's own close.  All of it runs before the call returns. *)
Definition pool_close_call (pool : Pool) : M (Promise Ext unit) :=
  logger LvInfo (ClosingPool (pool_name pool)) ;;;
  pools_delete (pool_name pool) ;;;
  pool_own_close pool.

(** [await pool.close()] *)
Definition pool_close (pool : Pool) : M unit :=
  promise <- pool_close_call pool ;;
  await promise.

(** *** Pool registry *)

Definition setPool (name : string) (config : option Config) : M unit :=
  try_catch
    (match truthy name, config with
     | true, Some cfg =>
         pool <- new_ConnectionPool name cfg ;;
         pools_set name pool ;;;
         logger LvInfo (PoolSet name)
     | _, _ => throw (new_Error "Missing configuration details")
     end)
    (fun error =>
       present <- pools_has name ;;
       (if truthy name && present
        then logger LvError (ErrorSettingPool name) ;;; pools_delete name
        else ret tt) ;;;
       logger LvError (FailedToSetPool error) ;;;
       throw error).

Definition getPool (name : string) (config : option Config) : M Pool :=
  try_catch
    (present <- pools_has name ;;
     (if negb present
      then match config with
           | None => throw (new_Error ("Configuration for pool " ++ name ++ " not provided"))
           | Some cfg => setPool name (Some cfg)
           end
      else ret tt) ;;;
     found <- pools_get name ;;
     match found with
     | None =>
         (* [pool.connected] on [undefined]; not reached, see
            [getPool_finds_pool] *)
         throw (new_Error "Cannot read properties of undefined")
     | Some pool =>
         c1 <- pool_connected pool ;;
         c2 <- pool_connecting pool ;;
         (if negb c1 && negb c2 then pool_connect pool else ret tt) ;;;
         ret pool
     end)
    (fun error =>
       logger LvError (ErrorGettingPool name error) ;;;
       throw error).

Definition closePool (name : string) : M unit :=
  found <- pools_get name ;;
  match found with
  | None => throw (new_Error ("Pool " ++ name ++ " does not exist"))
  | Some pool => pool_close pool
  end.

(** [pools.map(pool => pool.close())]: every close is called, in the order
    of the array and before any of them settles; the promises are
    collected. *)
Fixpoint close_each (ps : list Pool) : M (list (Promise Ext unit)) :=
  match ps with
  | [] => ret []
  | pool :: rest =>
      promise <- pool_close_call pool ;;
      promises <- close_each rest ;;
      ret (promise :: promises)
  end.

(** The promises of [order] settle one after the other; the first one that
    rejects ends the wait. *)
Fixpoint settle_each (order : list (Promise Ext unit)) : M unit :=
  match order with
  | [] => ret tt
  | promise :: rest => settle promise ;;; settle_each rest
  end.

(** [await Promise.all(promises)]: fulfilled when every promise is, after
    the last of them has settled; rejected with the reason of the first
    promise that rejects, as soon as it does: the promises that have not
    settled by then are not waited for. *)
Definition Promise_all (promises : list (Promise Ext unit)) : M unit :=
  settle_each (sort_by (@settles_at Ext unit) promises).

(** What the driver answers to the close of each pool of [ps] when the
    closes settle in that order from the external state [x]. *)
Fixpoint close_answers (ps : list Pool) (x : Ext) : list (option Error) :=
  match ps with
  | [] => []
  | pool :: rest =>
      let '(o, x1) := drv_close drv (pool_id pool) x in
      o :: close_answers rest x1
  end.

(** The external state after the closes of the pools of [ps] have settled
    in that order from the external state [x]. *)
Definition settled (ps : list Pool) (x : Ext) : Ext :=
  fold_left (fun x1 pool => snd (drv_close drv (pool_id pool) x1)) ps x.

(** The closes of the pools of [order] settle in that order from the
    external state [x], as far as the first one that rejects: the outcome
    and the external state at that point. *)
Fixpoint settle_closes (order : list Pool) (x : Ext) : Result unit * Ext :=
  match order with
  | [] => (Ok tt, x)
  | pool :: rest =>
      match drv_close drv (pool_id pool) x with
      | (None, x1) => settle_closes rest x1
      | (Some e, x1) => (Err e, x1)
      end
  end.

Definition closeAllPools : M unit :=
  ps <- pools_values ;;
  promises <- close_each ps ;;
  Promise_all promises.

(** *** Command executor *)

Definition bind_call (dir : ParamDir) (param : Param) : BindCall :=
  match param_type param with
  | Some ty => Bind3 dir (param_name param) ty (param_value param)
  | None => Bind2 dir (param_name param) (param_value param)
  end.

(** [params.forEach(param => request[operation](...))] on a request that
    already holds the calls [request]. *)
Fixpoint assign_each (dir : ParamDir) (params : list Param) (request : list BindCall)
  : Error + list BindCall :=
  match params with
  | [] => inr request
  | param :: rest =>
      let c := bind_call dir param in
      match drv_bind drv request c with
      | Some e => inl e
      | None => assign_each dir rest (request ++ [c])
      end
  end.

Definition assignParams (request : list BindCall) (inputs outputs : list Param)
  : M (list BindCall) :=
  fun w =>
    match assign_each input inputs request with
    | inl e => (Err e, w, [])
    | inr request1 =>
        match assign_each output outputs request1 with
        | inl e => (Err e, w, [])
        | inr request2 => (Ok request2, w, [])
        end
    end.

(** [request[commandType](command)] *)
Definition request_run (target : Target) (commandType : CommandType) (command : string)
           (request : list BindCall) : M R :=
  fun w =>
    let '(o, x) := drv_run drv target commandType command request (ext w) in
    (match o with inr v => Ok v | inl e => Err e end,
     mkWorld (pools w) (next_id w) x,
     [RequestRun target commandType command request]).

(** The promise of [request[commandType](command)] is returned without
    [await]: its rejection does not pass through the [catch] block. *)
Definition runCommand (poolName : string) (commandType : CommandType) (command : string)
           (inputs outputs : list Param) : M R :=
  prepared <-
    try_catch
      (pool <- getPool poolName None ;;
       request <- assignParams [] inputs outputs ;;
       logger LvInfo (RunningCommand commandType poolName) ;;;
       ret (pool, request))
      (fun error =>
         logger LvError (ErrorRunningCommand poolName error) ;;;
         throw error) ;;
  request_run (OnPool (pool_id (fst prepared))) commandType command (snd prepared).

(** [Object.keys(entity).map(key => ({ name: key, value: entity[key] }))] *)
Definition entity_params (entity : Entity) : list Param :=
  map (fun key => mkParam key (entity_get entity key) None) (Object_keys entity).

(** As in [runCommand] the promise is returned without [await], and
    [Object.keys] does not throw on an object: the [catch] block (lines
    249-252) is never entered. *)
Definition executeWithEntity (poolName : string) (commandType : CommandType)
           (command : string) (entity : Entity) (outputs : list Param) : M R :=
  logger LvInfo (ExecutingWithEntity poolName) ;;;
  runCommand poolName commandType command (entity_params entity) outputs.

(** The specification's reading of [executeWithEntity], to compare with
    the definition above: the input parameters are derived from the
    entity, one [{name: field, value: entity[field]}] for each field, in
    the iteration order of the fields, without a type tag, and the work is
    delegated to [runCommand]. *)
Fixpoint derive_params (fields : list string) (entity : Entity) : list Param :=
  match fields with
  | [] => []
  | field :: rest =>
      {| param_name := field; param_value := entity_get entity field; param_type := None |}
        :: derive_params rest entity
  end.

Definition executeWithEntity_spec (poolName : string) (commandType : CommandType)
           (command : string) (entity : Entity) (outputs : list Param) : M R :=
  runCommand poolName commandType command (derive_params (Object_keys entity) entity) outputs.

(** *** Bulk loader *)

(** The row of an entity: the values of the declared columns, in the
    order of their declaration. *)
Definition project (columns : list Column) (entity : Entity) : list Value :=
  map (fun col => entity_get entity (column_name col)) columns.

Definition build_table (tableName : string) (columns : list Column) (entities : list Entity)
  : Table :=
  let table := new_Table tableName in
  let table :=
    fold_left
      (fun t column =>
         columns_add t (column_name column) (column_type column)
                     (match column_options column with Some o => o | None => [] end))
      columns table in
  fold_left
    (fun t entity => rows_add t (project columns entity))
    entities table.

Definition bulkInsert (poolName tableName : string) (columns : list Column)
           (entities : list Entity) : M unit :=
  try_catch
    (pool <- getPool poolName None ;;
     let table := build_table tableName columns entities in
     call (RequestBulk (pool_id pool) table) (drv_bulk drv (pool_id pool) table) ;;;
     logger LvInfo (BulkInsertCompleted tableName poolName))
    (fun error =>
       logger LvError (ErrorDuringBulkInsert poolName error) ;;;
       throw error).

(** *** Transaction coordinator *)

Definition default_params (ps : option (list Param)) : list Param :=
  match ps with Some l => l | None => [] end.

(** The body of the [for] loop (lines 285-290) for one operation. *)
Definition transaction_op (pool : Pool) (op : TransactionOp) : M unit :=
  request <- assignParams [] (default_params (op_inputs op)) (default_params (op_outputs op)) ;;
  try_catch
    (request_run (OnTransaction (pool_id pool)) (op_commandType op) (op_command op) request ;;;
     ret tt)
    (fun error =>
       logger LvError (TransactionOperationError error) ;;;
       throw error).

(** [for (const op of operations) { ... }]: the first failure leaves the
    loop. *)
Fixpoint transaction_ops (pool : Pool) (operations : list TransactionOp) : M unit :=
  match operations with
  | [] => ret tt
  | op :: rest => transaction_op pool op ;;; transaction_ops pool rest
  end.

Definition executeTransaction (poolName : string) (operations : list TransactionOp) : M unit :=
  pool <- getPool poolName None ;;
  try_catch
    (call (TxBegin (pool_id pool)) (drv_begin drv (pool_id pool)))
    (fun error =>
       logger LvError (TransactionBeginError error) ;;;
       throw error) ;;;
  try_catch
    (transaction_ops pool operations ;;;
     call (TxCommit (pool_id pool)) (drv_commit drv (pool_id pool)) ;;;
     logger LvInfo TransactionCommitted)
    (fun error =>
       try_catch
         (call (TxRollback (pool_id pool)) (drv_rollback drv (pool_id pool)))
         (fun rollbackError =>
            logger LvError (TransactionRollbackError rollbackError)) ;;;
       logger LvError (TransactionExecutionError error) ;;;
       throw error).

(** The effects of the outer [catch] block (lines 294-301) for the error
    [error], when the driver answers [answer] to the rollback. *)
Definition rollback_trace (pool : Pool) (answer : option Error) (error : Error) : list Event :=
  TxRollback (pool_id pool)
    :: match answer with
       | Some rollbackError => [Log LvError (TransactionRollbackError rollbackError)]
       | None => []
       end
    ++ [Log LvError (TransactionExecutionError error)].

(** *** Retry supervisor *)

(** The caller's [operation]: it acts on the external state only. *)
Definition Operation (T : Type) : Type := Ext -> (Error + T) * Ext.

Definition operation_call {T} (operation : Operation T) : M T :=
  fun w =>
    let '(o, x) := operation (ext w) in
    (match o with inr v => Ok v | inl e => Err e end,
     mkWorld (pools w) (next_id w) x, [OperationCall]).

Equations? retryOperation {T} (operation : Operation T) (retries delay : Z) (w : World)
  : Result T * World * list Event by wf (Z.to_nat retries) lt :=
  retryOperation operation retries delay w with operation_call operation w := {
    | (Ok v, w1, t1) => (Ok v, w1, t1)
    | (Err error, w1, t1) with Z_gt_dec retries 0 := {
        | left _ =>
            let '(r, w2, t2) := retryOperation operation (retries - 1) (delay * 2) w1 in
            (r, w2,
             t1 ++ [Log LvWarn (OperationFailedRetrying retries error); Timeout delay] ++ t2)
        | right _ =>
            (Err error, w1, t1 ++ [Log LvError (OperationFailedAfterRetries error)]) } }.
Proof. lia. Qed.

(** The default arguments [retries = 3], [delay = 100]. *)
Definition retryOperation_default {T} (operation : Operation T) : M T :=
  retryOperation operation 3 100.

(** *** Constructor

    [setPool] is called for every entry of [pools], in order, and its
    promise is dropped: a rejection does not stop the loop. *)
Fixpoint set_each (entries : list (string * Config)) (w : World) : World * list Event :=
  match entries with
  | [] => (w, [])
  | (name, config) :: rest =>
      let '(_, w1, t1) := setPool name (Some config) w in
      let '(w2, t2) := set_each rest w1 in
      (w2, t1 ++ t2)
  end.

Definition constructor (configs : option (list (string * Config))) (x : Ext)
  : World * list Event :=
  let this := mkWorld [] 0 x in
  match configs with
  | Some entries => set_each entries this
  | None => (this, [])
  end.

(** *** The states the manager reaches

    A call of a public method, or of the [close] of a pool that a caller
    kept from [getPool]; between two calls the external state may change
    by itself. *)
Inductive Call : Type :=
| SetPool (name : string) (config : option Config)
| GetPool (name : string) (config : option Config)
| ClosePool (name : string)
| CloseAllPools
| RunCommand (poolName : string) (commandType : CommandType) (command : string)
             (inputs outputs : list Param)
| ExecuteWithEntity (poolName : string) (commandType : CommandType) (command : string)
                    (entity : Entity) (outputs : list Param)
| BulkInsert (poolName tableName : string) (columns : list Column) (entities : list Entity)
| ExecuteTransaction (poolName : string) (operations : list TransactionOp)
| ClosePoolObject (pool : Pool).

Definition perform (c : Call) (w : World) : World :=
  match c with
  | SetPool name config => world_of (setPool name config w)
  | GetPool name config => world_of (getPool name config w)
  | ClosePool name => world_of (closePool name w)
  | CloseAllPools => world_of (closeAllPools w)
  | RunCommand poolName commandType command inputs outputs =>
      world_of (runCommand poolName commandType command inputs outputs w)
  | ExecuteWithEntity poolName commandType command entity outputs =>
      world_of (executeWithEntity poolName commandType command entity outputs w)
  | BulkInsert poolName tableName columns entities =>
      world_of (bulkInsert poolName tableName columns entities w)
  | ExecuteTransaction poolName operations =>
      world_of (executeTransaction poolName operations w)
  | ClosePoolObject pool => world_of (pool_close pool w)
  end.

Inductive reachable : World -> Prop :=
| reach_constructor configs x : reachable (fst (constructor configs x))
| reach_call c w : reachable w -> reachable (perform c w)
| reach_environment w x : reachable w -> reachable (mkWorld (pools w) (next_id w) x).

End DatabaseManager.

(** A computation all of whose effects satisfy [P], in every state. *)
Definition emits_only {Ext A} (P : Event -> Prop) (m : M Ext A) : Prop :=
  forall w, Forall P (trace_of (m w)).

(** An effect other than the commit of a transaction. *)
Definition not_commit (ev : Event) : Prop :=
  match ev with TxCommit _ => False | _ => True end.

(** The number of calls of the caller's operation in a trace. *)
Definition calls (t : list Event) : nat :=
  List.length (filter (fun ev => match ev with OperationCall => true | _ => false end) t).

(** The state [w] with the external state replaced by [x]. *)
Definition with_ext {Ext} (w : World Ext) (x : Ext) : World Ext :=
  mkWorld (pools w) (next_id w) x.

(** The effects of calling the [close] of the pools [ps] one after the
    other on the registry [registry]: for each one the log line of its
    close hook and the call of its own close, which finds the registry
    without the names of the hooks that ran so far. *)
Fixpoint closing_trace (ps : list Pool) (registry : JsMap.t Pool) : list Event :=
  match ps with
  | [] => []
  | p :: rest =>
      let registry' := JsMap.delete (pool_name p) registry in
      Log LvInfo (ClosingPool (pool_name p))
        :: PoolClose (pool_id p) (JsMap.keys registry')
        :: closing_trace rest registry'
  end.

(** ** The invariant of the registry *)

Section Invariant.
Context {Ext : Type}.

(** The pool that [setPool name cfg] builds in the state [w]. *)
Definition fresh_pool (w : World Ext) (name : string) (cfg : Config) : Pool :=
  mkPool (next_id w) cfg name.

(** Every entry was put there by [setPool]: its name is not empty, the
    pool's rebound [close] removes that very name, and the pool's
    identity was handed out before.  A name has one entry. *)
Definition entry_ok (n : nat) (kp : string * Pool) : Prop :=
  fst kp <> "" /\ pool_name (snd kp) = fst kp /\ pool_id (snd kp) < n.

Definition registry_ok (w : World Ext) : Prop :=
  NoDup (JsMap.keys (pools w)) /\ Forall (entry_ok (next_id w)) (pools w).

(** A computation that keeps the invariant, whatever its outcome. *)
Definition keeps_registry {A} (m : M Ext A) : Prop :=
  forall w, registry_ok w -> registry_ok (world_of (m w)).
End Invariant.

(** ** A driver to run the manager on

    A stand-in for [mssql] whose failures are chosen by a [Faults] record.
    Its state keeps the pools that are connected and the commands that
    ran. *)
Module Example.

Record Db : Type := mkDb {
  db_connected : list nat;
  db_journal : list string
}.

Record Faults : Type := mkFaults {
  fail_new : option Error;
  fail_connect : option Error;
  fail_close : nat -> option Error;
  fail_run : string -> option Error;
  fail_bulk : option Error;
  fail_begin : option Error;
  fail_commit : option Error;
  fail_rollback : option Error
}.

Definition no_faults : Faults :=
  mkFaults None None (fun _ => None) (fun _ => None) None None None None.

Definition driver (f : Faults) : Driver Db Value :=
  {| drv_new := fun _ _ x => (fail_new f, x);
     drv_connected := fun id x => existsb (Nat.eqb id) (db_connected x);
     drv_connecting := fun _ _ => false;
     drv_connect := fun id x =>
       match fail_connect f with
       | Some e => (Some e, x)
       | None => (None, mkDb (id :: db_connected x) (db_journal x))
       end;
     drv_close := fun id x =>
       (fail_close f id,
        mkDb (filter (fun i => negb (Nat.eqb id i)) (db_connected x)) (db_journal x));
     (* all the closes settle at one instant: in the order of their calls *)
     drv_close_settles := fun _ _ => 0;
     drv_bind := fun _ _ => None;
     drv_run := fun _ _ command _ x =>
       match fail_run f command with
       | Some e => (inl e, x)
       | None => (inr (VNum 1), mkDb (db_connected x) (db_journal x ++ [command]))
       end;
     drv_bulk := fun _ table x =>
       match fail_bulk f with
       | Some e => (Some e, x)
       | None => (None, mkDb (db_connected x) (db_journal x ++ [table_name table]))
       end;
     drv_begin := fun _ x => (fail_begin f, x);
     drv_commit := fun _ x => (fail_commit f, x);
     drv_rollback := fun _ x => (fail_rollback f, x) |}.

Definition db0 : Db := mkDb [] [].

Definition cfgA : Config :=
  mkConfig "reader" "secret" "localhost" "shop" 10 100 15000 true false.

Definition cfgB : Config :=
  mkConfig "writer" "secret" "localhost" "shop" 10 100 15000 true false.

(** [new DatabaseManager()] and
    [new DatabaseManager({ readPool: cfgA, writePool: cfgB })]. *)
Definition empty_manager : World Db :=
  fst (constructor (driver no_faults) None db0).

Definition manager (f : Faults) : World Db :=
  fst (constructor (driver f) (Some [("readPool", cfgA); ("writePool", cfgB)]) db0).

(** An operation that fails on every call. *)
Definition broken : Operation (Ext := Db) Value :=
  fun x => (inl (new_Error "boom"), mkDb (db_connected x) (db_journal x ++ ["attempt"])).

(** An operation that fails on its first two calls and then succeeds. *)
Definition flaky : Operation (Ext := Db) Value :=
  fun x =>
    let n := List.length (db_journal x) in
    let x' := mkDb (db_connected x) (db_journal x ++ ["attempt"]) in
    if Nat.ltb n 2 then (inl (new_Error "transient"), x') else (inr (VNum 42), x').


(** Two operations of a transaction. *)
Definition opA : TransactionOp :=
  mkOp execute "INSERT A" (Some [mkParam "id" (VNum 1) (Some SqlInt)]) None.

Definition opB : TransactionOp := mkOp execute "INSERT B" None None.

(** The command [INSERT B] is rejected, and so is every rollback. *)
Definition faults_in_B : Faults :=
  mkFaults None None (fun _ => None)
           (fun c => if String.eqb c "INSERT B" then Some (new_Error "B failed") else None)
           None None None (Some (new_Error "rollback failed")).

(** Every commit is rejected. *)
Definition faults_in_commit : Faults :=
  mkFaults None None (fun _ => None) (fun _ => None)
           None None (Some (new_Error "commit failed")) None.

(** Every close is rejected, with an error of its own for each pool. *)
Definition close_error (id : nat) : Error :=
  new_Error (if Nat.eqb id 0 then "close 0 failed" else "close 1 failed").

Definition faults_in_close : Faults :=
  mkFaults None None (fun id => Some (close_error id)) (fun _ => None)
           None None None None.

(** The driver [driver f] when the close of the pool [id] settles at the
    instant [instant id]. *)
Definition driver_settling (instant : nat -> nat) (f : Faults) : Driver Db Value :=
  {| drv_new := drv_new (driver f);
     drv_connected := drv_connected (driver f);
     drv_connecting := drv_connecting (driver f);
     drv_connect := drv_connect (driver f);
     drv_close := drv_close (driver f);
     drv_close_settles := fun id _ => instant id;
     drv_bind := drv_bind (driver f);
     drv_run := drv_run (driver f);
     drv_bulk := drv_bulk (driver f);
     drv_begin := drv_begin (driver f);
     drv_commit := drv_commit (driver f);
     drv_rollback := drv_rollback (driver f) |}.

(** The close of the first pool takes longer than the close of the
    second. *)
Definition slow_first (id : nat) : nat := if Nat.eqb id 0 then 2 else 1.

Definition users_columns : list Column :=
  [mkColumn "id" SqlInt None; mkColumn "name" SqlVarChar None].

Definition users : list Entity :=
  [[("name", VStr "a"); ("id", VNum 1)]; [("id", VNum 2)]].

End Example.

(** ** Reading a trace *)

(** The commands that ran on a transaction, in the order of the trace. *)
Definition tx_commands (t : list Event) : list (CommandType * string) :=
  flat_map (fun ev => match ev with
                      | RequestRun (OnTransaction _) commandType command _ =>
                          [(commandType, command)]
                      | _ => []
                      end) t.

(** The waits of a trace, in order. *)
Definition timeouts (t : list Event) : list Z :=
  flat_map (fun ev => match ev with Timeout ms => [ms] | _ => [] end) t.

(** A call of the driver: everything but a log line, a timer and a call of
    the caller's operation. *)
Definition driver_call (ev : Event) : Prop :=
  match ev with
  | Log _ _ | OperationCall | Timeout _ => False
  | _ => True
  end.

(** The registry entries that the constructor builds from [entries] when
    the first identity it hands out is [n], and the effects of building
    them. *)
Fixpoint registered (n : nat) (entries : list (string * Config)) : list (string * Pool) :=
  match entries with
  | [] => []
  | (name, config) :: rest => (name, mkPool n config name) :: registered (S n) rest
  end.

Fixpoint registering_trace (n : nat) (entries : list (string * Config)) : list Event :=
  match entries with
  | [] => []
  | (name, config) :: rest =>
      NewConnectionPool n config :: Log LvInfo (PoolSet name) :: registering_trace (S n) rest
  end.

(** The effects that the resolution of a pool can have: the constructor
    call, the connect, and the log lines of [setPool] and [getPool]. *)
Definition getPool_event (ev : Event) : Prop :=
  match ev with
  | NewConnectionPool _ _ | PoolConnect _ => True
  | Log LvInfo (PoolSet _) => True
  | Log LvError (ErrorSettingPool _) => True
  | Log LvError (FailedToSetPool _) => True
  | Log LvError (ErrorGettingPool _ _) => True
  | _ => False
  end.

(** * The routes and their helpers

    The functions of the route layer that compute: the data processing of
    [/process] and [/process_data], the Fibonacci functions, the cleaning of
    a search term, and three handlers that call the manager. *)

(** ** Numbers

    A JavaScript number is an IEEE 754 double.  The numbers that the routes
    below compute with are integers, an infinity or [NaN], and so are the
    results of the operations that the code applies to them: the exact sum,
    difference or product of two integers is an integer, and the operation
    answers the double that is nearest to it.  [0] and [-0] are one number
    here: no operation below tells them apart, and JSON prints both as
    [0].  A number with a fractional part is outside this model. *)

Inductive JsNumber : Type :=
| Finite (z : Z)
| Infinity (negative : bool)
| NaN.

(** The integer with at most 53 significant bits that is nearest to [z],
    the one with the even significand when two are as near: the rounding
    of a double whose exponent is not bounded.  An integer below 2^53 in
    magnitude is left as it is. *)
Definition round53 (z : Z) : Z :=
  let a := Z.abs z in
  if Z.ltb a (2 ^ 53) then z
  else
    let e := (Z.log2 a - 52)%Z in
    let q := Z.shiftr a e in
    let r := (a - Z.shiftl q e)%Z in
    let half := Z.shiftl 1 (e - 1) in
    let q' :=
      if Z.ltb r half then q
      else if Z.ltb half r then (q + 1)%Z
      else if Z.even q then q else (q + 1)%Z in
    (Z.sgn z * Z.shiftl q' e)%Z.

(** The double nearest to the integer [z]: what rounds to 2^1024 or
    beyond is an infinity. *)
Definition number_of_Z (z : Z) : JsNumber :=
  let r := round53 z in
  if Z.leb (2 ^ 1024) (Z.abs r) then Infinity (Z.ltb z 0) else Finite r.

(** [x + y] *)
Definition number_add (x y : JsNumber) : JsNumber :=
  match x, y with
  | Finite a, Finite b => number_of_Z (a + b)
  | NaN, _ | _, NaN => NaN
  | Infinity s, Infinity s' => if Bool.eqb s s' then Infinity s else NaN
  | Infinity s, Finite _ | Finite _, Infinity s => Infinity s
  end.

(** [x * y] *)
Definition number_mul (x y : JsNumber) : JsNumber :=
  match x, y with
  | Finite a, Finite b => number_of_Z (a * b)
  | NaN, _ | _, NaN => NaN
  | Infinity s, Infinity s' => Infinity (xorb s s')
  | Infinity s, Finite b | Finite b, Infinity s =>
      if Z.eqb b 0 then NaN else Infinity (xorb s (Z.ltb b 0))
  end.

(** [n - k] on two integers that are doubles, the result being finite. *)
Definition minus (n k : Z) : Z := round53 (n - k).

(** A number as a value, and back. *)
Definition number_value (x : JsNumber) : Value :=
  match x with
  | Finite z => VNum z
  | Infinity s => VInfinity s
  | NaN => VNaN
  end.

Definition value_number (v : Value) : option JsNumber :=
  match v with
  | VNum z => Some (Finite z)
  | VInfinity s => Some (Infinity s)
  | VNaN => Some NaN
  | _ => None
  end.

(** ** [/process] *)

(** [cur % 2 === 0 ? cur * 2 : cur * 3] on an integer; [%] is the remainder
    that takes the sign of the dividend, and it is exact. *)
Definition process_weight (cur : Z) : JsNumber :=
  if Z.eqb (Z.rem cur 2) 0
  then number_mul (Finite cur) (Finite 2)
  else number_mul (Finite cur) (Finite 3).

(** [d.reduce((acc, cur) => acc + (...), 0)] (lines 626-628). *)
Definition process_reduce (d : list Z) : JsNumber :=
  fold_left (fun acc cur => number_add acc (process_weight cur)) d (Finite 0).

(** The loop of the first version (index.ts, lines 115-122): [i] runs over
    the indices and [d[i]] is read at each step. *)
Fixpoint process_loop (d : list Z) (steps i : nat) (r : JsNumber) : JsNumber :=
  match steps with
  | 0 => r
  | S k => process_loop d k (S i) (number_add r (process_weight (nth i d 0%Z)))
  end.

Definition process_first_version (d : list Z) : JsNumber :=
  process_loop d (List.length d) 0 (Finite 0).

(** [Array.isArray(d) && d.every(Number.isInteger)]: the integers of the
    array when it holds nothing else. *)
Fixpoint integers (items : list Value) : option (list Z) :=
  match items with
  | [] => Some []
  | VNum n :: rest =>
      match integers rest with Some ns => Some (n :: ns) | None => None end
  | _ :: _ => None
  end.

(** The exact weight of an entry and a bound on the magnitude of every
    partial sum of the weights, to state what [/process] computes. *)
Definition exact_weight (cur : Z) : Z := if Z.even cur then (2 * cur)%Z else (3 * cur)%Z.

Definition weight_bound (d : list Z) : Z :=
  fold_right (fun cur bound => (3 * Z.abs cur + bound)%Z) 0%Z d.

(** ** The Fibonacci functions *)

(** The Fibonacci numbers, to state what the functions compute. *)
Fixpoint fibonacci_pair (n : nat) : Z * Z :=
  match n with
  | 0 => (0%Z, 1%Z)
  | S m => let '(a, b) := fibonacci_pair m in (b, (a + b)%Z)
  end.

Definition F (n : nat) : Z := fst (fibonacci_pair n).

(** A JavaScript array of numbers; [None] is a hole or [undefined]. *)
Definition array_get (a : list (option JsNumber)) (i : nat) : option JsNumber :=
  match nth_error a i with Some v => v | None => None end.

Fixpoint array_replace (a : list (option JsNumber)) (i : nat) (v : option JsNumber)
  : list (option JsNumber) :=
  match a, i with
  | [], _ => []
  | _ :: rest, 0 => v :: rest
  | y :: rest, S j => y :: array_replace rest j v
  end.

(** [a[i] = v]: inside the array it replaces, past its end it extends the
    array, leaving holes. *)
Definition array_set (a : list (option JsNumber)) (i : nat) (v : option JsNumber)
  : list (option JsNumber) :=
  if Nat.ltb i (List.length a) then array_replace a i v
  else a ++ repeat None (i - List.length a) ++ [v].

(** [x + y] on what an array of numbers holds; with [undefined] the sum is
    [NaN]. *)
Definition array_add (x y : option JsNumber) : JsNumber :=
  match x, y with
  | Some a, Some b => number_add a b
  | _, _ => NaN
  end.

(** [for (let i = 2; i <= n; i++) fib[i] = fib[i - 1] + fib[i - 2]] *)
Fixpoint fib_loop (n fuel i : nat) (fib : list (option JsNumber)) : list (option JsNumber) :=
  match fuel with
  | 0 => fib
  | S k =>
      if Nat.leb i n
      then fib_loop n k (S i)
             (array_set fib i (Some (array_add (array_get fib (i - 1)) (array_get fib (i - 2)))))
      else fib
  end.

(** The value [fib[n]] of [/fibonacci-1] (lines 480-483) and of the first
    version's [/fibonacci] (index.ts, lines 103-108), for [n] below 2^53:
    from there on [i++] no longer advances [i] and the loop of the code
    does not end. *)
Definition fib_array (n : nat) : list (option JsNumber) :=
  fib_loop n n 2 [Some (Finite 0); Some (Finite 1)].

Definition fibonacci_1 (n : nat) : option JsNumber := array_get (fib_array n) n.

(** [memo: Record<number, number>], shared by [fibMemo] and
    [fibHybridMemo]. *)
Definition Memo : Type := list (Z * JsNumber).

Fixpoint memo_get (n : Z) (memo : Memo) : option JsNumber :=
  match memo with
  | [] => None
  | (k, v) :: rest => if Z.eqb k n then Some v else memo_get n rest
  end.

Fixpoint memo_set (n : Z) (v : JsNumber) (memo : Memo) : Memo :=
  match memo with
  | [] => [(n, v)]
  | (k, v') :: rest => if Z.eqb k n then (n, v) :: rest else (k, v') :: memo_set n v rest
  end.

(** [fibMemo] (lines 506-511).  The two recursive calls run from left to
    right, the second one on the memo that the first one left.  [stack] is
    the number of calls that the call stack still admits inside this one:
    when none is left, the call throws a [RangeError], which is the answer
    [None]; the memo keeps what was stored before. *)
Fixpoint fibMemo (stack : nat) (n : Z) (memo : Memo) : option JsNumber * Memo :=
  match memo_get n memo with
  | Some v => (Some v, memo)
  | None =>
      if Z.leb n 2 then (Some (Finite 1), memo)
      else
        match stack with
        | 0 => (None, memo)
        | S deeper =>
            match fibMemo deeper (minus n 1) memo with
            | (None, memo1) => (None, memo1)
            | (Some a, memo1) =>
                match fibMemo deeper (minus n 2) memo1 with
                | (None, memo2) => (None, memo2)
                | (Some b, memo2) => (Some (number_add a b), memo_set n (number_add a b) memo2)
                end
            end
        end
  end.

(** 2 x 2 matrices, the only ones the code multiplies. *)
Record Mat2 (A : Type) : Type := mkMat2 { m00 : A; m01 : A; m10 : A; m11 : A }.

(** [multiplyMatrices] (lines 539-552): each entry starts at 0 and receives
    its two products. *)
Definition multiplyMatrices (a b : Mat2 JsNumber) : Mat2 JsNumber :=
  let entry (x y x' y' : JsNumber) :=
    number_add (number_add (Finite 0) (number_mul x y)) (number_mul x' y') in
  mkMat2 (entry (m00 a) (m00 b) (m01 a) (m10 b))
         (entry (m00 a) (m01 b) (m01 a) (m11 b))
         (entry (m10 a) (m00 b) (m11 a) (m10 b))
         (entry (m10 a) (m01 b) (m11 a) (m11 b)).

(** The [while] loop of [matrixPower] (lines 561-567); the exponent is an
    integer, on which [% 2] and [Math.floor(exponent / 2)] are exact. *)
Equations? matrixPower_loop (result base : Mat2 JsNumber) (exponent : Z) : Mat2 JsNumber
  by wf (Z.to_nat exponent) lt :=
  matrixPower_loop result base exponent with Z_gt_dec exponent 0 := {
    | left _ =>
        matrixPower_loop
          (if Z.eqb (Z.rem exponent 2) 1 then multiplyMatrices result base else result)
          (multiplyMatrices base base)
          (exponent / 2)
    | right _ => result }.
Proof. apply Z2Nat.inj_lt; try lia. apply Z.div_pos; lia. apply Z.div_lt; lia. Qed.

Definition matrixPower (base : Mat2 JsNumber) (exponent : Z) : Mat2 JsNumber :=
  matrixPower_loop (mkMat2 (Finite 1) (Finite 0) (Finite 0) (Finite 1)) base exponent.

(** [fibMatrix] (lines 573-583). *)
Definition fibMatrix (n : Z) : JsNumber :=
  if Z.leb n 1 then Finite n
  else m00 (matrixPower (mkMat2 (Finite 1) (Finite 1) (Finite 1) (Finite 0)) (minus n 1)).

(** Matrices of integers, their exact product and their powers, to state
    what [matrixPower] computes. *)
Definition exact_product (a b : Mat2 Z) : Mat2 Z :=
  mkMat2 (m00 a * m00 b + m01 a * m10 b)%Z
         (m00 a * m01 b + m01 a * m11 b)%Z
         (m10 a * m00 b + m11 a * m10 b)%Z
         (m10 a * m01 b + m11 a * m11 b)%Z.

Fixpoint mat_pow (m : Mat2 Z) (n : nat) : Mat2 Z :=
  match n with
  | 0 => mkMat2 1%Z 0%Z 0%Z 1%Z
  | S k => exact_product m (mat_pow m k)
  end.

(** The matrix of integers as the code holds it. *)
Definition numbers (m : Mat2 Z) : Mat2 JsNumber :=
  mkMat2 (Finite (m00 m)) (Finite (m01 m)) (Finite (m10 m)) (Finite (m11 m)).

(** Every entry is between 0 and 2^53. *)
Definition mat_safe (m : Mat2 Z) : Prop :=
  (0 <= m00 m <= 2 ^ 53 /\ 0 <= m01 m <= 2 ^ 53
   /\ 0 <= m10 m <= 2 ^ 53 /\ 0 <= m11 m <= 2 ^ 53)%Z.

Section Hybrid.
(** [Math.round(Math.pow(phi, n) / sqrt5)], a computation on numbers with
    a fractional part, is a parameter; what [Math.round] answers is an
    integer, an infinity or [NaN]. *)
Variable binet : Z -> JsNumber.

(** [fibBinet] (lines 534-537). *)
Definition fibBinet (n : Z) : JsNumber := if Z.eqb n 0 then Finite 0 else binet n.

(** [fibHybrid] (lines 586-594). *)
Definition fibHybrid (n : Z) : JsNumber := if Z.ltb n 70 then fibBinet n else fibMatrix n.

(** [fibHybridMemo] (lines 596-600). *)
Definition fibHybridMemo (n : Z) (memo : Memo) : JsNumber * Memo :=
  match memo_get n memo with
  | Some v => (v, memo)
  | None => (fibHybrid n, memo_set n (fibHybrid n) memo)
  end.
End Hybrid.

(** The array that holds the first [k] Fibonacci numbers. *)
Definition F_prefix (k : nat) : list (option JsNumber) :=
  map (fun j => Some (Finite (F j))) (seq 0 k).

(** Every entry of the memo under a key up to 78 is the Fibonacci number
    of its key.  (From 79 on a Fibonacci number is not a double.) *)
Definition memo_ok (memo : Memo) : Prop :=
  forall k v, memo_get k memo = Some v -> (0 <= k <= 78)%Z -> v = Finite (F (Z.to_nat k)).

(** ** [/process_data] *)

(** The [data] of the request: a primitive value or an array of them. *)
Inductive Data : Type :=
| DValue (v : Value)
| DArray (items : list Value).

(** [!data] is false for these. *)
Definition data_truthy (data : Data) : bool :=
  match data with
  | DValue VUndefined | DValue VNull | DValue VNaN => false
  | DValue (VBool b) => b
  | DValue (VNum n) => negb (Z.eqb n 0)
  | DValue (VStr s) => truthy s
  | DValue (VInfinity _) | DValue (VBuiltin _) => true
  | DArray _ => true
  end.

(** [{type, value}]: the type is a string and the operand of [increment]
    an integer. *)
Record DataOp : Type := mkDataOp { dop_type : string; dop_value : Z }.

(** What a route answers: [res.status(status)] and the body that is sent. *)
Inductive Body : Type :=
| Text (s : string)
| JsonData (key : string) (data : Data)
| JsonResult (result : option JsNumber)
| JsonRow (row : Entity)
| JsonRows (rows : list Entity).

Definition Reply : Type := (nat * Body)%type.

(** [data.split('').reverse().join('')] *)
Definition string_reverse (s : string) : string :=
  string_of_list_ascii (rev (list_ascii_of_string s)).

(** [typeof v === 'number'] *)
Definition is_number (v : Value) : bool :=
  match value_number v with Some _ => true | None => false end.

(** [item + value] on an item that is a number. *)
Definition add_to (value : Z) (item : Value) : Value :=
  match value_number item with
  | Some x => number_value (number_add x (Finite value))
  | None => item
  end.

(** No sum is rounded when the number [v] is incremented by [a] and then
    by [b], or by [a + b]: a condition on the finite numbers only. *)
Definition increments_exact (a b : Z) (v : Value) : Prop :=
  match v with
  | VNum n => (Z.abs n + Z.abs a + Z.abs b <= 2 ^ 53)%Z
  | _ => True
  end.

(** What [x == s] does for a string [s] on a value [x] that is not a
    string: it answers, or the conversion of [x] to a primitive throws (as
    for an object with a field [toString]). *)
Inductive Loose : Type := LooseTrue | LooseFalse | LooseThrows.

(** The [type] of an element of [operations]: a string, or anything else
    (an array, a number, ..., or nothing at all), of which only what
    [== 'uppercase'] does on it matters here: [['uppercase']], an array, is
    loosely equal to the string. *)
Inductive OpType : Type :=
| TypeString (s : string)
| TypeOther (uppercase : Loose).

(** An element of the array [operations]: [null], or a value with the
    [type] and the [value] that are read from it. *)
Inductive RawOp : Type :=
| OpNull
| OpObject (type : OpType) (value : Z).

(** [type === s] and [type == s], the second for [s = 'uppercase']. *)
Definition strictly (type : OpType) (s : string) : bool :=
  match type with
  | TypeString s' => String.eqb s' s
  | TypeOther _ => false
  end.

Definition loosely (type : OpType) (s : string) : Loose :=
  match type with
  | TypeString s' => if String.eqb s' s then LooseTrue else LooseFalse
  | TypeOther answer => answer
  end.

(** What a handler that is a plain function does: it answers, or it
    throws and the answer is the framework's. *)
Inductive Outcome : Type :=
| Answers (reply : Reply)
| Throws (e : Error).

(** One turn of a loop: go on with the data, answer 400 with a message and
    return, or throw. *)
Inductive Step : Type :=
| Continue (data : Data)
| Refuse (message : string)
| Raise (e : Error).

Section ProcessData.
(** [String.prototype.toUpperCase] is a parameter. *)
Variable toUpperCase : string -> string.

(** One operation on the data (the [switch] of lines 404-432); the message
    of the error that it throws when it does not apply. *)
Definition apply_operation (operation : DataOp) (data : Data) : Data + string :=
  if String.eqb (dop_type operation) "reverse" then
    match data with
    | DValue (VStr s) => inl (DValue (VStr (string_reverse s)))
    | DArray items => inl (DArray (rev items))
    | _ => inr "Invalid operation for data type"
    end
  else if String.eqb (dop_type operation) "uppercase" then
    match data with
    | DValue (VStr s) => inl (DValue (VStr (toUpperCase s)))
    | _ => inr "Invalid operation for data type"
    end
  else if String.eqb (dop_type operation) "increment" then
    match data with
    | DValue v =>
        if is_number v
        then inl (DValue (add_to (dop_value operation) v))
        else inr "Invalid operation for data type"
    | DArray items =>
        if forallb is_number items
        then inl (DArray (map (add_to (dop_value operation)) items))
        else inr "Invalid operation for data type"
    end
  else inr "Unsupported operation".

(** [operations.forEach(...)] (lines 403-433): the first operation that
    throws ends it. *)
Fixpoint apply_operations (operations : list DataOp) (data : Data) : Data + string :=
  match operations with
  | [] => inl data
  | operation :: rest =>
      match apply_operation operation data with
      | inl data' => apply_operations rest data'
      | inr message => inr message
      end
  end.

(** The route (lines 394-440), for a body whose [operations] is an array
    of such operations, or is missing, which is [None]. *)
Definition process_data (data : Data) (operations : option (list DataOp)) : Reply :=
  match operations with
  | Some ops =>
      if data_truthy data
      then match apply_operations ops data with
           | inl result => (200, JsonData "data" result)
           | inr message => (400, Text message)
           end
      else (400, Text "Missing data or operations")
  | None => (400, Text "Missing data or operations")
  end.

(** *** The two versions of the route on any array of operations

    An element of the array [operations] need not be an operation as
    above: it may be [null], and its [type] may be something else than a
    string.  The two versions differ on these. *)

(** The [TypeError] of reading a property of [null], and the one of
    converting to a primitive an object that has none. *)
Variable null_type_error primitive_type_error : Error.

(** The rewritten route (lines 403-433) on such an element.  Reading the
    type of [null] throws, and the [catch] block (lines 436-439) answers
    the message of whatever was thrown; [switch] compares with [===], so
    that a type that is not a string matches no [case]. *)
Definition raw_operation (op : RawOp) (data : Data) : Data + string :=
  match op with
  | OpNull => inr (err_message null_type_error)
  | OpObject (TypeString s) value => apply_operation (mkDataOp s value) data
  | OpObject (TypeOther _) _ => inr "Unsupported operation"
  end.

Fixpoint raw_operations (operations : list RawOp) (data : Data) : Data + string :=
  match operations with
  | [] => inl data
  | op :: rest =>
      match raw_operation op data with
      | inl data' => raw_operations rest data'
      | inr message => inr message
      end
  end.

Definition process_data_body (data : Data) (operations : option (list RawOp)) : Reply :=
  match operations with
  | Some ops =>
      if data_truthy data
      then match raw_operations ops data with
           | inl result => (200, JsonData "data" result)
           | inr message => (400, Text message)
           end
      else (400, Text "Missing data or operations")
  | None => (400, Text "Missing data or operations")
  end.

(** The body of the loop of the first version (index.ts, lines 60-88) for
    one element: a chain of [if] that compares the type with [===], with
    [==] and with [===] again. *)
Definition first_version_step (op : RawOp) (data : Data) : Step :=
  match op with
  | OpNull => Raise null_type_error
  | OpObject type value =>
      if strictly type "reverse" then
        match data with
        | DValue (VStr s) => Continue (DValue (VStr (string_reverse s)))
        | DArray items => Continue (DArray (rev items))
        | _ => Refuse "Invalid operation for data type"
        end
      else
        match loosely type "uppercase" with
        | LooseThrows => Raise primitive_type_error
        | LooseTrue =>
            match data with
            | DValue (VStr s) => Continue (DValue (VStr (toUpperCase s)))
            | _ => Refuse "Invalid operation for data type"
            end
        | LooseFalse =>
            if strictly type "increment" then
              match data with
              | DValue v =>
                  if is_number v
                  then Continue (DValue (add_to value v))
                  else Refuse "Invalid operation for data type"
              | DArray items =>
                  if forallb is_number items
                  then Continue (DArray (map (add_to value) items))
                  else Refuse "Invalid operation for data type"
              end
            else Refuse "Unsupported operation"
        end
  end.

(** The loop of the first version (index.ts, lines 59-89): [i] runs over
    the indices of [Operations]; an element that is refused answers 400
    and returns. *)
Fixpoint first_version_loop (operations : list RawOp) (steps i : nat) (data : Data) : Step :=
  match steps with
  | 0 => Continue data
  | S k =>
      match nth_error operations i with
      | Some op =>
          match first_version_step op data with
          | Continue data' => first_version_loop operations k (S i) data'
          | stopped => stopped
          end
      | None => Continue data
      end
  end.

(** The first version of the route (index.ts, lines 55-94). *)
Definition process_data_first_version (data : Data) (operations : option (list RawOp))
  : Outcome :=
  match operations with
  | Some ops =>
      if data_truthy data
      then match first_version_loop ops (List.length ops) 0 data with
           | Continue result => Answers (200, JsonData "Data" result)
           | Refuse message => Answers (400, Text message)
           | Raise e => Throws e
           end
      else Answers (400, Text "Missing data or operations")
  | None => Answers (400, Text "Missing data or operations")
  end.
End ProcessData.

(** An element on which the two versions do the same: it is not [null],
    and its type is a string or is not loosely equal to a string. *)
Definition plain_operation (op : RawOp) : Prop :=
  match op with
  | OpNull => False
  | OpObject (TypeString _) _ => True
  | OpObject (TypeOther answer) _ => answer = LooseFalse
  end.

(** The answer of the rewritten route under the key of the first
    version. *)
Definition with_first_key (reply : Reply) : Reply :=
  match reply with
  | (status, JsonData _ result) => (status, JsonData "Data" result)
  | other => other
  end.

(** ** [/search]: the cleaning of the search term *)

(** The characters that [/[^a-zA-Z0-9\s\-]/g] leaves in place: letters,
    digits, white space and the hyphen. *)
Definition search_char (c : Ascii.ascii) : bool :=
  let n := Ascii.nat_of_ascii c in
  (Nat.leb 97 n && Nat.leb n 122) || (Nat.leb 65 n && Nat.leb n 90)
  || (Nat.leb 48 n && Nat.leb n 57)
  || (Nat.leb 9 n && Nat.leb n 13) || Nat.eqb n 32 || Nat.eqb n 160
  || Nat.eqb n 45.

(** [searchTerm.replace(/[^a-zA-Z0-9\s\-]/g, '')] *)
Fixpoint clean_search_term (s : string) : string :=
  match s with
  | EmptyString => EmptyString
  | String c rest =>
      if search_char c then String c (clean_search_term rest) else clean_search_term rest
  end.


(** ** Three handlers that call the manager *)

(** What a handler does: what the manager does, an answer, a log line of
    the route. *)
Inductive RouteEvent : Type :=
| Manager (ev : Event)
| Respond (status : nat) (body : Body)
| RouteLog (message : string) (e : Error).

Definition responses (t : list RouteEvent) : list Reply :=
  flat_map (fun ev => match ev with Respond status body => [(status, body)] | _ => [] end) t.

Definition manager_events (t : list RouteEvent) : list Event :=
  flat_map (fun ev => match ev with Manager e => [e] | _ => [] end) t.

(** The error of a second answer: [ERR_HTTP_HEADERS_SENT]. *)
Definition headers_sent : Error :=
  new_Error "Cannot set headers after they are sent to the client".

(** [res.status(status).send(body)], [sent] telling whether the request was
    answered before: the first answer is sent; a later one throws, the
    headers being sent already, and nothing more is sent. *)
Definition respond (sent : bool) (status : nat) (body : Body) : Result unit * list RouteEvent :=
  if sent then (Err headers_sent, []) else (Ok tt, [Respond status body]).

Section Handlers.
Context {Ext R : Type}.
Variable drv : Driver Ext R.
(** [parseInt] of a route parameter when its answer is an integer, which
    is then a double; [None] when it is not one ([NaN], and [Infinity] for
    too many digits), which is when [Number.isInteger] is false. *)
Variable parseInt : string -> option Z.
(** [result.recordset] *)
Variable recordset : R -> list Entity.

Definition user_query : string := "SELECT * FROM Users WHERE Id = @UserId".

(** [GET /user/:id] (lines 340-364): the outcome of the handler, the state
    and the effects.  On an invalid id the handler answers 400 and throws
    inside its own [try]; the [catch] block logs and answers again, which
    throws: the handler fails with that error, after the one answer. *)
Definition user_handler (id : string) (w : World Ext)
  : Result unit * World Ext * list RouteEvent :=
  (* the [catch] block, entered with [error] after the effects [t] *)
  let failed (sent : bool) (error : Error) (w1 : World Ext) (t : list RouteEvent) :=
    let '(r, answer) := respond sent 500 (Text "Internal server error") in
    (r, w1, t ++ RouteLog "Error from userid request" error :: answer) in
  let invalid :=
    let '(_, answer) := respond false 400 (Text "Invalid input") in
    failed true (new_Error "Invalid input") w answer in
  match parseInt id with
  | None => invalid
  | Some userId =>
      if Z.ltb userId 0 then invalid
      else
        let '(r, w1, t) :=
          runCommand drv "readPool" query user_query
                     [mkParam "UserId" (VNum userId) (Some SqlInt)] [] w in
        match r with
        | Ok result =>
            match recordset result with
            | row :: _ => (Ok tt, w1, map Manager t ++ [Respond 200 (JsonRow row)])
            | [] => (Ok tt, w1, map Manager t ++ [Respond 404 (Text "User not found")])
            end
        | Err e => failed false e w1 (map Manager t)
        end
  end.

Definition search_query : string := "SELECT * FROM products WHERE name = @searchTerm".

(** [POST /search] (lines 371-392); [None] is a body without
    [searchTerm]. *)
Definition search_handler (searchTerm : option string) (w : World Ext)
  : World Ext * list RouteEvent :=
  match searchTerm with
  | None => (w, [Respond 400 (Text "Search term is required")])
  | Some term =>
      if truthy term then
        let '(r, w1, t) :=
          runCommand drv "readPool" query search_query
                     [mkParam "searchTerm" (VStr (clean_search_term term)) (Some SqlVarChar)]
                     [] w in
        match r with
        | Ok result =>
            match recordset result with
            | [] => (w1, map Manager t ++ [Respond 404 (Text "No products found")])
            | rows => (w1, map Manager t ++ [Respond 200 (JsonRows rows)])
            end
        | Err e =>
            (w1, map Manager t ++ [RouteLog "Database query error:" e;
                                   Respond 500 (Text "Error executing query")])
        end
      else (w, [Respond 400 (Text "Search term is required")])
  end.

Definition fibonacci_log_query : string :=
  "INSERT INTO CalculationLogs (Type, Input, Result) VALUES (@Type, @Input, @Result)".

(** What an array of numbers holds at an index, as a value. *)
Definition array_value (v : option JsNumber) : Value :=
  match v with Some x => number_value x | None => VUndefined end.

(** [GET /fibonacci-1/:n] (lines 473-499): the result is logged to the
    database inside a [try] whose [catch] block is empty.  From 2^53 on the
    loop does not end and the handler does nothing more. *)
Definition fibonacci_1_handler (param : string) (w : World Ext)
  : World Ext * list RouteEvent :=
  match parseInt param with
  | None => (w, [Respond 400 (Text "Invalid input")])
  | Some n =>
      if Z.ltb n 0 then (w, [Respond 400 (Text "Invalid input")])
      else if Z.leb (2 ^ 53) n then (w, [])
      else
        let result := fibonacci_1 (Z.to_nat n) in
        let '(_, w1, t) :=
          runCommand drv "writePool" query fibonacci_log_query
                     [mkParam "Type" (VStr "Fibonacci") (Some SqlVarChar);
                      mkParam "Input" (VNum n) (Some SqlInt);
                      mkParam "Result" (array_value result) (Some SqlInt)] [] w in
        (w1, map Manager t ++ [Respond 200 (JsonResult result)])
  end.
End Handlers.

(** ** More to run the manager on *)
Module Example2.
Import Example.

(** A driver whose connect fails the first time it is called and succeeds
    afterwards; it notes the failed attempt in the journal. *)
Definition recovering_driver : Driver Db Value :=
  {| drv_new := fun _ _ x => (None, x);
     drv_connected := fun id x => existsb (Nat.eqb id) (db_connected x);
     drv_connecting := fun _ _ => false;
     drv_connect := fun id x =>
       match db_journal x with
       | [] => (Some (new_Error "connect failed"), mkDb (db_connected x) ["connect failed"])
       | _ => (None, mkDb (id :: db_connected x) (db_journal x))
       end;
     drv_close := fun id x =>
       (None, mkDb (filter (fun i => negb (Nat.eqb id i)) (db_connected x)) (db_journal x));
     drv_close_settles := fun _ _ => 0;
     drv_bind := fun _ _ => None;
     drv_run := fun _ _ command _ x =>
       (inr (VNum 1), mkDb (db_connected x) (db_journal x ++ [command]));
     drv_bulk := fun _ table x =>
       (None, mkDb (db_connected x) (db_journal x ++ [table_name table]));
     drv_begin := fun _ x => (None, x);
     drv_commit := fun _ x => (None, x);
     drv_rollback := fun _ x => (None, x) |}.

(** Every constructor call throws. *)
Definition faults_in_new : Faults :=
  mkFaults (Some (new_Error "invalid config")) None (fun _ => None) (fun _ => None)
           None None None None.

(** Every begin is rejected. *)
Definition faults_in_begin : Faults :=
  mkFaults None None (fun _ => None) (fun _ => None)
           None (Some (new_Error "begin failed")) None None.

End Example2.

(** * Properties *)

Unset Implicit Arguments.

(** ** The [Map] *)

Module JsMapFacts.
Section JsMapFacts.
Variable V : Type.
Implicit Types (k : string) (v : V) (m : JsMap.t V).

Lemma has_get k m : JsMap.has k m = true <-> exists v, JsMap.get k m = Some v.
Proof.
  unfold JsMap.has. destruct (JsMap.get k m) as [v|]; split.
  - intros _. now exists v.
  - reflexivity.
  - discriminate.
  - intros [v H]. discriminate.
Qed.

Lemma has_false_get k m : JsMap.has k m = false <-> JsMap.get k m = None.
Proof.
  unfold JsMap.has. destruct (JsMap.get k m); split; congruence.
Qed.

Lemma get_set_same k v m : JsMap.get k (JsMap.set k v m) = Some v.
Proof.
  induction m as [|[k' v'] m IH]; simpl.
  - now rewrite String.eqb_refl.
  - destruct (String.eqb k' k) eqn:E; simpl.
    + now rewrite String.eqb_refl.
    + now rewrite E.
Qed.

Lemma get_set_other k k' v m :
  k' <> k -> JsMap.get k' (JsMap.set k v m) = JsMap.get k' m.
Proof.
  intros Hne. induction m as [|[k0 v0] m IH]; simpl.
  - destruct (String.eqb k k') eqn:E; [apply String.eqb_eq in E; congruence | reflexivity].
  - destruct (String.eqb k0 k) eqn:E; simpl.
    + apply String.eqb_eq in E. subst k0.
      destruct (String.eqb k k') eqn:E'; [apply String.eqb_eq in E'; congruence | reflexivity].
    + now rewrite IH.
Qed.

Lemma get_delete_same k m : JsMap.get k (JsMap.delete k m) = None.
Proof.
  induction m as [|[k' v'] m IH]; simpl; [reflexivity|].
  destruct (String.eqb k' k) eqn:E; simpl; [assumption|]. now rewrite E.
Qed.

Lemma get_delete_other k k' m :
  k' <> k -> JsMap.get k' (JsMap.delete k m) = JsMap.get k' m.
Proof.
  intros Hne. induction m as [|[k0 v0] m IH]; simpl; [reflexivity|].
  destruct (String.eqb k0 k) eqn:E; simpl.
  - apply String.eqb_eq in E. subst k0.
    destruct (String.eqb k k') eqn:E'; [apply String.eqb_eq in E'; congruence | assumption].
  - now rewrite IH.
Qed.

Lemma get_In k v m : JsMap.get k m = Some v -> In (k, v) m.
Proof.
  induction m as [|[k' v'] m IH]; simpl; [discriminate|].
  destruct (String.eqb k' k) eqn:E.
  - apply String.eqb_eq in E. intros [= ->]. subst. now left.
  - intros H. right. now apply IH.
Qed.

Lemma In_delete kv k m : In kv (JsMap.delete k m) -> In kv m.
Proof.
  induction m as [|[k' v'] m IH]; simpl; [tauto|].
  destruct (String.eqb k' k); simpl; intuition.
Qed.

Lemma In_set kv k v m : In kv (JsMap.set k v m) -> kv = (k, v) \/ In kv m.
Proof.
  induction m as [|[k' v'] m IH]; simpl; [intuition|].
  destruct (String.eqb k' k); simpl; intuition.
Qed.

Lemma delete_absent k m : ~ In k (JsMap.keys m) -> JsMap.delete k m = m.
Proof.
  induction m as [|[k' v'] m IH]; simpl; [reflexivity|].
  intros H. destruct (String.eqb k' k) eqn:E.
  - apply String.eqb_eq in E. tauto.
  - f_equal. apply IH. tauto.
Qed.

Lemma keys_delete_subset k k' m : In k' (JsMap.keys (JsMap.delete k m)) -> In k' (JsMap.keys m).
Proof.
  induction m as [|[k0 v0] m IH]; simpl; [tauto|].
  destruct (String.eqb k0 k); simpl; intuition.
Qed.

Lemma NoDup_keys_delete k m : NoDup (JsMap.keys m) -> NoDup (JsMap.keys (JsMap.delete k m)).
Proof.
  induction m as [|[k0 v0] m IH]; simpl; [trivial|].
  intros H. inversion H as [|? ? Hn Hd]; subst.
  destruct (String.eqb k0 k); simpl; [now apply IH|].
  constructor; [|now apply IH].
  intros Hin. apply Hn. eapply keys_delete_subset, Hin.
Qed.

Lemma keys_set k k' v m : In k' (JsMap.keys (JsMap.set k v m)) -> k' = k \/ In k' (JsMap.keys m).
Proof.
  induction m as [|[k0 v0] m IH]; simpl; [intuition|].
  destruct (String.eqb k0 k) eqn:E; simpl.
  - apply String.eqb_eq in E. subst. intuition.
  - intuition.
Qed.

Lemma NoDup_keys_set k v m : NoDup (JsMap.keys m) -> NoDup (JsMap.keys (JsMap.set k v m)).
Proof.
  induction m as [|[k0 v0] m IH]; simpl.
  - intros _. constructor; [simpl; tauto | constructor].
  - intros H. inversion H as [|? ? Hn Hd]; subst.
    destruct (String.eqb k0 k) eqn:E; simpl.
    + apply String.eqb_eq in E. subst. now constructor.
    + constructor; [|now apply IH].
      intros Hin. apply keys_set in Hin as [->|Hin]; [|tauto].
      now rewrite String.eqb_refl in E.
Qed.

Lemma keys_set_present k v v0 m :
  JsMap.get k m = Some v0 -> JsMap.keys (JsMap.set k v m) = JsMap.keys m.
Proof.
  induction m as [|[k0 v1] m IH]; simpl; [discriminate|].
  destruct (String.eqb k0 k) eqn:E; simpl.
  - apply String.eqb_eq in E. now subst.
  - intros H. now rewrite IH.
Qed.

Lemma keys_delete k k' m :
  In k' (JsMap.keys (JsMap.delete k m)) -> k' <> k /\ In k' (JsMap.keys m).
Proof.
  induction m as [|[k0 v0] m IH]; simpl; [tauto|].
  destruct (String.eqb k0 k) eqn:E; simpl.
  - intros H. destruct (IH H). tauto.
  - apply String.eqb_neq in E. intros [->|H]; [tauto|]. destruct (IH H). tauto.
Qed.

(** Deleting every key empties the map. *)
Lemma delete_all ks m :
  (forall k, In k (JsMap.keys m) -> In k ks) ->
  fold_left (fun acc k => JsMap.delete k acc) ks m = [].
Proof.
  revert m. induction ks as [|k ks IH]; intros m Hsub; simpl.
  - destruct m as [|[k v] m]; [reflexivity|]. destruct (Hsub k). now left.
  - apply IH. intros k' Hin. apply keys_delete in Hin as [Hne Hin].
    destruct (Hsub k' Hin) as [E|H]; [congruence|assumption].
Qed.
End JsMapFacts.
End JsMapFacts.

Lemma truthy_true (s : string) : s <> "" -> truthy s = true.
Proof.
  intros H. unfold truthy. destruct (String.eqb s "") eqn:E; [|reflexivity].
  apply String.eqb_eq in E. contradiction.
Qed.

Lemma truthy_false_iff (s : string) : truthy s = false <-> s = "".
Proof.
  unfold truthy. destruct (String.eqb s "") eqn:E; simpl.
  - apply String.eqb_eq in E. split; [now intros _|reflexivity].
  - apply String.eqb_neq in E. split; [discriminate|contradiction].
Qed.

(** An error is never its own cause: rethrowing an error and wrapping it
    give different values. *)
Lemma error_not_own_cause (e : Error) : ~ wraps e e.
Proof.
  unfold wraps. induction e as [m | m c IH]; simpl; [discriminate|].
  intros [= H]. apply IH. rewrite H at 1. reflexivity.
Qed.

(** ** The order of settlement *)

Lemma insert_by_map {X Y} (f : X -> Y) (instant : Y -> nat) a l :
  insert_by instant (f a) (map f l) = map f (insert_by (fun b => instant (f b)) a l).
Proof.
  induction l as [|b l IH]; [reflexivity|]. simpl.
  destruct (Nat.ltb (instant (f b)) (instant (f a))); simpl; [now rewrite IH | reflexivity].
Qed.

Lemma sort_by_map {X Y} (f : X -> Y) (instant : Y -> nat) l :
  sort_by instant (map f l) = map f (sort_by (fun a => instant (f a)) l).
Proof.
  induction l as [|a l IH]; [reflexivity|].
  unfold sort_by in *. simpl. now rewrite IH, insert_by_map.
Qed.

Lemma insert_by_perm {X} (instant : X -> nat) a l :
  Permutation (insert_by instant a l) (a :: l).
Proof.
  induction l as [|b l IH]; [reflexivity|]. simpl.
  destruct (Nat.ltb (instant b) (instant a)); [|reflexivity].
  rewrite IH. apply perm_swap.
Qed.

Lemma sort_by_perm {X} (instant : X -> nat) l : Permutation (sort_by instant l) l.
Proof.
  induction l as [|a l IH]; [reflexivity|].
  unfold sort_by in *. simpl. rewrite insert_by_perm. now constructor.
Qed.

(** ** The pool registry *)

Ltac unfold_manager :=
  unfold getPool, setPool, closePool, pool_close, pool_close_call, pool_own_close,
    close_settles, await, pool_connect, pool_connected,
    pool_connecting, new_ConnectionPool, pools_has, pools_get, pools_set, pools_delete,
    pools_values, call, logger, emit, try_catch, bind, ret, throw in *.

(** Two traces that differ by the bracketing of [++] only. *)
Ltac same_trace :=
  simpl; repeat rewrite <- app_assoc; simpl; rewrite ?app_nil_r; reflexivity.

Section Registry.
Context {Ext R : Type}.
Variable drv : Driver Ext R.

Implicit Types (w : World Ext) (x : Ext) (name : string) (pool : Pool) (cfg : Config).

Lemma setPool_creates w name cfg x1 :
  name <> "" ->
  drv_new drv (next_id w) cfg (ext w) = (None, x1) ->
  setPool drv name (Some cfg) w =
    (Ok tt,
     mkWorld (JsMap.set name (fresh_pool w name cfg) (pools w)) (S (next_id w)) x1,
     [NewConnectionPool (next_id w) cfg; Log LvInfo (PoolSet name)]).
Proof.
  intros Hname Hnew. unfold_manager. rewrite (truthy_true _ Hname), Hnew. reflexivity.
Qed.

Lemma setPool_missing_name w (config : option Config) :
  setPool drv "" config w =
    (Err (new_Error "Missing configuration details"), w,
     [Log LvError (FailedToSetPool (new_Error "Missing configuration details"))]).
Proof. unfold_manager. simpl. destruct w. reflexivity. Qed.

(** Without a configuration the [catch] block still runs: an entry that
    the name had is removed. *)
Lemma setPool_missing_config w name :
  setPool drv name None w =
    (Err (new_Error "Missing configuration details"),
     (if truthy name && JsMap.has name (pools w)
      then mkWorld (JsMap.delete name (pools w)) (next_id w) (ext w)
      else w),
     (if truthy name && JsMap.has name (pools w)
      then [Log LvError (ErrorSettingPool name)] else []) ++
     [Log LvError (FailedToSetPool (new_Error "Missing configuration details"))]).
Proof.
  unfold_manager.
  destruct (truthy name); simpl; [|reflexivity].
  destruct (JsMap.has name (pools w)); reflexivity.
Qed.

(** When the constructor throws, the [catch] block removes the entry that
    the name had before the call. *)
Lemma setPool_constructor_throws w name cfg e x1 :
  name <> "" ->
  drv_new drv (next_id w) cfg (ext w) = (Some e, x1) ->
  setPool drv name (Some cfg) w =
    (Err e,
     mkWorld (if JsMap.has name (pools w) then JsMap.delete name (pools w) else pools w)
             (next_id w) x1,
     NewConnectionPool (next_id w) cfg ::
     (if JsMap.has name (pools w) then [Log LvError (ErrorSettingPool name)] else []) ++
     [Log LvError (FailedToSetPool e)]).
Proof.
  intros Hname Hnew. unfold_manager. rewrite (truthy_true _ Hname), Hnew. simpl.
  destruct (JsMap.has name (pools w)); reflexivity.
Qed.

(** [getPool] on a name that has an entry: the configuration is not
    looked at; the pool is connected when it is neither connected nor
    connecting. *)
Lemma getPool_present w name pool (config : option Config) :
  JsMap.get name (pools w) = Some pool ->
  getPool drv name config w =
    if negb (drv_connected drv (pool_id pool) (ext w))
       && negb (drv_connecting drv (pool_id pool) (ext w))
    then
      match drv_connect drv (pool_id pool) (ext w) with
      | (None, x) => (Ok pool, mkWorld (pools w) (next_id w) x, [PoolConnect (pool_id pool)])
      | (Some e, x) =>
          (Err e, mkWorld (pools w) (next_id w) x,
           [PoolConnect (pool_id pool); Log LvError (ErrorGettingPool name e)])
      end
    else (Ok pool, w, []).
Proof.
  intros Hget. unfold_manager. unfold JsMap.has. rewrite Hget. simpl. rewrite Hget.
  destruct (negb _ && negb _); simpl; [|reflexivity].
  destruct (drv_connect drv (pool_id pool) (ext w)) as [[e|] x]; reflexivity.
Qed.

Lemma getPool_no_config w name :
  JsMap.get name (pools w) = None ->
  getPool drv name None w =
    (Err (new_Error ("Configuration for pool " ++ name ++ " not provided")), w,
     [Log LvError
          (ErrorGettingPool name
             (new_Error ("Configuration for pool " ++ name ++ " not provided")))]).
Proof.
  intros Habs. unfold_manager. unfold JsMap.has. rewrite Habs. reflexivity.
Qed.

(** [getPool] on an absent, non-empty name with a configuration, when the
    constructor succeeds. *)
Lemma getPool_creates w name cfg x1 :
  JsMap.get name (pools w) = None ->
  name <> "" ->
  drv_new drv (next_id w) cfg (ext w) = (None, x1) ->
  let pool := fresh_pool w name cfg in
  let created := [NewConnectionPool (next_id w) cfg; Log LvInfo (PoolSet name)] in
  let registry := JsMap.set name pool (pools w) in
  getPool drv name (Some cfg) w =
    if negb (drv_connected drv (next_id w) x1) && negb (drv_connecting drv (next_id w) x1)
    then
      match drv_connect drv (next_id w) x1 with
      | (None, x) =>
          (Ok pool, mkWorld registry (S (next_id w)) x,
           created ++ [PoolConnect (next_id w)])
      | (Some e, x) =>
          (Err e, mkWorld registry (S (next_id w)) x,
           created ++ [PoolConnect (next_id w); Log LvError (ErrorGettingPool name e)])
      end
    else (Ok pool, mkWorld registry (S (next_id w)) x1, created).
Proof.
  intros Habs Hname Hnew pool created registry.
  unfold getPool, try_catch, bind at 1.
  unfold pools_has at 1. unfold JsMap.has. rewrite Habs. simpl.
  unfold bind at 1. rewrite (setPool_creates _ _ _ _ Hname Hnew).
  unfold_manager. simpl. rewrite JsMapFacts.get_set_same. simpl.
  destruct (negb _ && negb _); simpl; [|reflexivity].
  destruct (drv_connect drv (next_id w) x1) as [[e|] x]; reflexivity.
Qed.

Lemma getPool_missing_name w cfg :
  JsMap.get "" (pools w) = None ->
  getPool drv "" (Some cfg) w =
    (Err (new_Error "Missing configuration details"), w,
     [Log LvError (FailedToSetPool (new_Error "Missing configuration details"));
      Log LvError (ErrorGettingPool "" (new_Error "Missing configuration details"))]).
Proof.
  intros Habs. unfold getPool, try_catch, bind, pools_has, JsMap.has.
  rewrite Habs. cbn [negb]. rewrite setPool_missing_name. reflexivity.
Qed.

Lemma closePool_absent w name :
  JsMap.get name (pools w) = None ->
  closePool drv name w = (Err (new_Error ("Pool " ++ name ++ " does not exist")), w, []).
Proof. intros Habs. unfold_manager. rewrite Habs. reflexivity. Qed.

(** The call of the rebound [close]: when it returns the promise, the
    entry is removed, the pool's own close has been called and the driver
    has not acted yet. *)
Lemma pool_close_call_eq w pool :
  pool_close_call drv pool w =
    (Ok (mkPromise (drv_close_settles drv (pool_id pool) (ext w)) (close_settles drv pool)),
     mkWorld (JsMap.delete (pool_name pool) (pools w)) (next_id w) (ext w),
     [Log LvInfo (ClosingPool (pool_name pool));
      PoolClose (pool_id pool) (JsMap.keys (JsMap.delete (pool_name pool) (pools w)))]).
Proof. reflexivity. Qed.

Lemma pool_close_eq w pool :
  pool_close drv pool w =
    let '(o, x) := drv_close drv (pool_id pool) (ext w) in
    (match o with None => Ok tt | Some e => Err e end,
     mkWorld (JsMap.delete (pool_name pool) (pools w)) (next_id w) x,
     [Log LvInfo (ClosingPool (pool_name pool));
      PoolClose (pool_id pool) (JsMap.keys (JsMap.delete (pool_name pool) (pools w)))]).
Proof.
  unfold_manager. simpl.
  destruct (drv_close drv (pool_id pool) (ext w)) as [[e|] x]; reflexivity.
Qed.

Lemma closePool_present w name pool :
  JsMap.get name (pools w) = Some pool ->
  closePool drv name w = pool_close drv pool w.
Proof. intros Hget. unfold closePool, bind, pools_get. rewrite Hget. simpl.
  destruct (pool_close drv pool w) as [[r w'] t]. reflexivity. Qed.

(** *** The invariant of the registry *)

Lemma entry_ok_mono n n' kp : n <= n' -> entry_ok n kp -> entry_ok n' kp.
Proof. unfold entry_ok. intuition lia. Qed.

Lemma registry_ok_get w name pool :
  registry_ok w -> JsMap.get name (pools w) = Some pool ->
  name <> "" /\ pool_name pool = name /\ pool_id pool < next_id w.
Proof.
  intros [_ Hall] Hget. apply JsMapFacts.get_In in Hget.
  rewrite Forall_forall in Hall. exact (Hall _ Hget).
Qed.

Lemma registry_ok_ext w x :
  registry_ok w -> registry_ok (mkWorld (pools w) (next_id w) x).
Proof. intros H. exact H. Qed.

Lemma registry_ok_delete w k x :
  registry_ok w -> registry_ok (mkWorld (JsMap.delete k (pools w)) (next_id w) x).
Proof.
  intros [Hnd Hall]. split; simpl.
  - now apply JsMapFacts.NoDup_keys_delete.
  - rewrite Forall_forall in *. intros kp Hin. apply Hall.
    eapply JsMapFacts.In_delete, Hin.
Qed.

Lemma registry_ok_set w name cfg x :
  name <> "" -> registry_ok w ->
  registry_ok (mkWorld (JsMap.set name (fresh_pool w name cfg) (pools w)) (S (next_id w)) x).
Proof.
  intros Hname [Hnd Hall]. split; simpl.
  - now apply JsMapFacts.NoDup_keys_set.
  - rewrite Forall_forall in *. intros kp Hin.
    apply JsMapFacts.In_set in Hin as [->|Hin].
    + unfold entry_ok. simpl. auto.
    + eapply entry_ok_mono; [|apply Hall, Hin]. lia.
Qed.

Lemma registry_ok_empty x : registry_ok (mkWorld [] 0 x).
Proof. split; constructor. Qed.

Lemma setPool_registry_ok w name config :
  registry_ok w -> registry_ok (world_of (setPool drv name config w)).
Proof.
  intros Hok. destruct config as [cfg|].
  - destruct (string_dec name "") as [->|Hname].
    + now rewrite setPool_missing_name.
    + destruct (drv_new drv (next_id w) cfg (ext w)) as [[e|] x1] eqn:Hnew.
      * rewrite (setPool_constructor_throws _ _ _ _ _ Hname Hnew). unfold world_of. simpl.
        destruct (JsMap.has name (pools w)); [now apply registry_ok_delete | exact Hok].
      * rewrite (setPool_creates _ _ _ _ Hname Hnew). now apply registry_ok_set.
  - rewrite setPool_missing_config. unfold world_of. simpl.
    destruct (truthy name && JsMap.has name (pools w)); [now apply registry_ok_delete | exact Hok].
Qed.

Lemma getPool_registry_ok w name config :
  registry_ok w -> registry_ok (world_of (getPool drv name config w)).
Proof.
  intros Hok. destruct (JsMap.get name (pools w)) as [pool|] eqn:Hget.
  - rewrite (getPool_present _ _ _ _ Hget).
    destruct (negb _ && negb _); [|exact Hok].
    destruct (drv_connect drv (pool_id pool) (ext w)) as [[e|] x]; exact Hok.
  - destruct config as [cfg|]; [|now rewrite (getPool_no_config _ _ Hget)].
    destruct (string_dec name "") as [->|Hname].
    + now rewrite (getPool_missing_name _ _ Hget).
    + destruct (drv_new drv (next_id w) cfg (ext w)) as [[e|] x1] eqn:Hnew.
      * unfold getPool, try_catch, bind, pools_has, JsMap.has. rewrite Hget. cbn [negb].
        rewrite (setPool_constructor_throws _ _ _ _ _ Hname Hnew).
        unfold JsMap.has. rewrite Hget. exact Hok.
      * rewrite (getPool_creates _ _ _ _ Hget Hname Hnew).
        destruct (negb _ && negb _); [|now apply registry_ok_set].
        destruct (drv_connect drv (next_id w) x1) as [[e|] x]; now apply registry_ok_set.
Qed.

Lemma pool_close_registry_ok w pool :
  registry_ok w -> registry_ok (world_of (pool_close drv pool w)).
Proof.
  intros Hok. rewrite pool_close_eq.
  destruct (drv_close drv (pool_id pool) (ext w)) as [o x]. now apply registry_ok_delete.
Qed.

Lemma closePool_registry_ok w name :
  registry_ok w -> registry_ok (world_of (closePool drv name w)).
Proof.
  intros Hok. destruct (JsMap.get name (pools w)) as [pool|] eqn:Hget.
  - rewrite (closePool_present _ _ _ Hget). now apply pool_close_registry_ok.
  - now rewrite (closePool_absent _ _ Hget).
Qed.

(** [getPool] returns the entry of the name: the branch that reads a
    property of [undefined] is not reached. *)
Lemma getPool_finds_pool w name config pool w' t :
  getPool drv name config w = (Ok pool, w', t) ->
  JsMap.get name (pools w') = Some pool.
Proof.
  destruct (JsMap.get name (pools w)) as [p|] eqn:Hget.
  - rewrite (getPool_present _ _ _ _ Hget).
    destruct (negb _ && negb _).
    + destruct (drv_connect drv (pool_id p) (ext w)) as [[e|] x]; intros [= <- <- <-];
        exact Hget.
    + intros [= <- <- <-]. exact Hget.
  - destruct config as [cfg|]; [|rewrite (getPool_no_config _ _ Hget); discriminate].
    destruct (string_dec name "") as [->|Hname].
    + rewrite (getPool_missing_name _ _ Hget). discriminate.
    + destruct (drv_new drv (next_id w) cfg (ext w)) as [[e|] x1] eqn:Hnew.
      * unfold getPool, try_catch, bind, pools_has, JsMap.has. rewrite Hget. cbn [negb].
        rewrite (setPool_constructor_throws _ _ _ _ _ Hname Hnew). discriminate.
      * rewrite (getPool_creates _ _ _ _ Hget Hname Hnew).
        destruct (negb _ && negb _).
        -- destruct (drv_connect drv (next_id w) x1) as [[e|] x]; intros [= <- <- <-];
             apply JsMapFacts.get_set_same.
        -- intros [= <- <- <-]. apply JsMapFacts.get_set_same.
Qed.

Lemma set_each_registry_ok entries w :
  registry_ok w -> registry_ok (fst (set_each drv entries w)).
Proof.
  revert w. induction entries as [|[name config] rest IH]; intros w Hok; simpl; [exact Hok|].
  pose proof (setPool_registry_ok w name (Some config) Hok) as H1.
  destruct (setPool drv name (Some config) w) as [[r w1] t1]. unfold world_of in H1. simpl in H1.
  specialize (IH w1 H1). destruct (set_each drv rest w1) as [w2 t2]. exact IH.
Qed.

(** The constructor establishes the invariant. *)
Lemma constructor_registry_ok configs x :
  registry_ok (fst (constructor drv configs x)).
Proof.
  unfold constructor. destruct configs as [entries|].
  - apply set_each_registry_ok, registry_ok_empty.
  - apply registry_ok_empty.
Qed.

(** *** [getPool] on a name without an entry *)

(** C5 (as amended).  In every state and for every name that has no entry:
    [getPool] without a configuration throws the error
    [Configuration for pool <name> not provided] (the specification's
    ConfigError) and leaves the state as it was, so no pool is created.
    With a configuration, for a name that is not the empty string and
    when the driver's constructor accepts the configuration, [getPool]
    creates the pool and registers it under the name; if the new pool is
    neither connected nor connecting it calls [connect] on it before it
    returns it, and it returns it at once otherwise. *)
Theorem getPool_absent_name w name :
  JsMap.get name (pools w) = None ->
  getPool drv name None w =
    (Err (new_Error ("Configuration for pool " ++ name ++ " not provided")), w,
     [Log LvError
          (ErrorGettingPool name
             (new_Error ("Configuration for pool " ++ name ++ " not provided")))])
  /\
  forall cfg x1,
    name <> "" ->
    drv_new drv (next_id w) cfg (ext w) = (None, x1) ->
    let pool := fresh_pool w name cfg in
    let registry := JsMap.set name pool (pools w) in
    let created := [NewConnectionPool (next_id w) cfg; Log LvInfo (PoolSet name)] in
    JsMap.get name registry = Some pool
    /\ (drv_connected drv (pool_id pool) x1 = false ->
        drv_connecting drv (pool_id pool) x1 = false ->
        forall x2,
          drv_connect drv (pool_id pool) x1 = (None, x2) ->
          getPool drv name (Some cfg) w =
            (Ok pool, mkWorld registry (S (next_id w)) x2,
             created ++ [PoolConnect (pool_id pool)]))
    /\ (drv_connected drv (pool_id pool) x1 || drv_connecting drv (pool_id pool) x1 = true ->
        getPool drv name (Some cfg) w =
          (Ok pool, mkWorld registry (S (next_id w)) x1, created)).
Proof.
  intros Habs. split; [exact (getPool_no_config w name Habs)|].
  intros cfg x1 Hname Hnew pool registry created.
  pose proof (getPool_creates w name cfg x1 Habs Hname Hnew) as Heq. cbv zeta in Heq.
  split; [apply JsMapFacts.get_set_same|]. split.
  - intros Hc1 Hc2 x2 Hconn. simpl in Hc1, Hc2, Hconn.
    rewrite Heq, Hc1, Hc2, Hconn. reflexivity.
  - intros Hflags. simpl in Hflags. rewrite Heq.
    destruct (drv_connected drv (next_id w) x1), (drv_connecting drv (next_id w) x1);
      simpl in *; try reflexivity; discriminate.
Qed.

(** *** [closePool] *)

(** C6.  [closePool] on a name without an entry throws the error
    [Pool <name> does not exist] (the specification's NotFoundError) and
    changes nothing.  On a name with an entry, in a state that satisfies
    the invariant of the registry: when the call of the pool's [close]
    returns its promise the entry is already removed, the pool's own close
    has been called and the driver has not acted yet; as long as that
    close is pending a lookup of the name finds no entry, and the
    settlement, in whatever state it happens, does not touch the registry.
    So the entry is gone whether the close succeeds or fails; and a
    following [getPool] with a configuration that the driver's constructor
    accepts builds a new pool, with an identity other than the closed
    pool's, registers it, never returns the closed pool, and returns the
    new one when its connect succeeds or is not needed. *)
Theorem closePool_removes_entry w name :
  (JsMap.get name (pools w) = None ->
   closePool drv name w = (Err (new_Error ("Pool " ++ name ++ " does not exist")), w, []))
  /\
  forall pool,
    registry_ok w ->
    JsMap.get name (pools w) = Some pool ->
    let removed := mkWorld (JsMap.delete name (pools w)) (next_id w) (ext w) in
    let calling := [Log LvInfo (ClosingPool name);
                    PoolClose (pool_id pool) (JsMap.keys (pools removed))] in
    let closed := closePool drv name w in
    (exists promise,
       pool_close_call drv pool w = (Ok promise, removed, calling)
       /\ closed = (let '(r, w1, t) := await promise removed in (r, w1, calling ++ t))
       /\ forall w',
            pools (world_of (await promise w')) = pools w'
            /\ trace_of (await promise w') = [])
    /\ JsMap.get name (pools removed) = None
    /\ ~ In name (JsMap.keys (pools removed))
    /\ getPool drv name None removed =
         (Err (new_Error ("Configuration for pool " ++ name ++ " not provided")), removed,
          [Log LvError
               (ErrorGettingPool name
                  (new_Error ("Configuration for pool " ++ name ++ " not provided")))])
    /\ closed =
         (let '(r, w1, t) :=
            call (PoolClose (pool_id pool) (JsMap.keys (pools removed)))
                 (drv_close drv (pool_id pool)) removed in
          (r, w1, Log LvInfo (ClosingPool name) :: t))
    /\ JsMap.get name (pools (world_of closed)) = None
    /\ forall cfg x2,
        drv_new drv (next_id (world_of closed)) cfg (ext (world_of closed)) = (None, x2) ->
        let fresh := fresh_pool (world_of closed) name cfg in
        let again := getPool drv name (Some cfg) (world_of closed) in
        pool_id fresh <> pool_id pool
        /\ JsMap.get name (pools (world_of again)) = Some fresh
        /\ In (NewConnectionPool (pool_id fresh) cfg) (trace_of again)
        /\ result_of again <> Ok pool
        /\ (forall q, result_of again = Ok q -> q = fresh)
        /\ ((drv_connected drv (pool_id fresh) x2 || drv_connecting drv (pool_id fresh) x2 = true
             \/ fst (drv_connect drv (pool_id fresh) x2) = None) ->
            result_of again = Ok fresh).
Proof.
  split; [apply closePool_absent|].
  intros pool Hok Hget removed calling closed.
  destruct (registry_ok_get w name pool Hok Hget) as (Hname & Hhook & Hid).
  assert (Hcall : pool_close_call drv pool w =
            (Ok (mkPromise (drv_close_settles drv (pool_id pool) (ext w))
                           (close_settles drv pool)), removed, calling)).
  { rewrite pool_close_call_eq. unfold removed, calling. now rewrite Hhook. }
  assert (Hclosed : closed =
    (let '(r, w1, t) :=
       call (PoolClose (pool_id pool) (JsMap.keys (pools removed)))
            (drv_close drv (pool_id pool)) removed in
     (r, w1, Log LvInfo (ClosingPool name) :: t))).
  { unfold closed. rewrite (closePool_present w name pool Hget), pool_close_eq, Hhook.
    unfold call, removed. simpl.
    destruct (drv_close drv (pool_id pool) (ext w)) as [o x1]. reflexivity. }
  split.
  { eexists. split; [exact Hcall|]. split.
    - unfold closed. rewrite (closePool_present w name pool Hget).
      unfold pool_close, bind. rewrite Hcall.
      destruct (await _ removed) as [[r w1] t]. reflexivity.
    - intros w'. unfold await, close_settles, world_of, trace_of. simpl.
      destruct (drv_close drv (pool_id pool) (ext w')) as [o x1]. split; reflexivity. }
  split; [apply JsMapFacts.get_delete_same|].
  split; [intros Hin; now apply JsMapFacts.keys_delete in Hin as [Hne _]|].
  split; [apply getPool_no_config, JsMapFacts.get_delete_same|].
  split; [exact Hclosed|].
  assert (Hworld : world_of closed =
            mkWorld (JsMap.delete name (pools w)) (next_id w)
                    (snd (drv_close drv (pool_id pool) (ext w)))).
  { rewrite Hclosed. unfold call, removed, world_of. simpl.
    destruct (drv_close drv (pool_id pool) (ext w)) as [o x1]. reflexivity. }
  rewrite Hworld. clear Hclosed Hworld Hcall.
  set (w1 := mkWorld (JsMap.delete name (pools w)) (next_id w)
                     (snd (drv_close drv (pool_id pool) (ext w)))).
  split; [apply JsMapFacts.get_delete_same|].
  intros cfg x2 Hnew fresh again.
  assert (Habs : JsMap.get name (pools w1) = None) by apply JsMapFacts.get_delete_same.
  pose proof (getPool_creates w1 name cfg x2 Habs Hname Hnew) as Heq. cbv zeta in Heq.
  assert (Hfresh : pool_id fresh <> pool_id pool) by (simpl; lia).
  assert (Hne : fresh <> pool) by (intros E; apply Hfresh; now rewrite E).
  split; [exact Hfresh|].
  unfold again, result_of, world_of, trace_of. rewrite Heq. fold fresh.
  change (next_id w1) with (pool_id fresh).
  destruct (negb (drv_connected drv (pool_id fresh) x2)
            && negb (drv_connecting drv (pool_id fresh) x2)) eqn:Hflags.
  - destruct (drv_connect drv (pool_id fresh) x2) as [[e|] x3]; simpl;
      (split; [apply JsMapFacts.get_set_same|]); (split; [now left|]);
      (split; [congruence|]); (split; [congruence|]).
    + intros [H|H]; [|discriminate].
      apply andb_true_iff in Hflags as [H1 H2].
      apply negb_true_iff in H1, H2. simpl in H, H1, H2. rewrite H1, H2 in H. discriminate.
    + reflexivity.
  - simpl. split; [apply JsMapFacts.get_set_same|]. split; [now left|].
    split; [congruence|]. split; [congruence|]. reflexivity.
Qed.

(** *** [setPool] on a name that has an entry *)

(** C10.  In a state that satisfies the invariant of the registry, when
    [setPool] is called with a name that has an entry and a configuration
    that the driver's constructor accepts: the call succeeds, the name is
    bound to the new pool (whose identity is not the old pool's) and every
    other entry is as before; the only effects are the constructor call and
    the log line [Pool set], so that no close of any pool is called, no
    close hook runs, and the external state is the one the constructor
    left. *)
Theorem setPool_overwrites_without_close w name old cfg x1 :
  registry_ok w ->
  JsMap.get name (pools w) = Some old ->
  drv_new drv (next_id w) cfg (ext w) = (None, x1) ->
  let o := setPool drv name (Some cfg) w in
  let new := fresh_pool w name cfg in
  result_of o = Ok tt
  /\ JsMap.get name (pools (world_of o)) = Some new
  /\ pool_id new <> pool_id old
  /\ JsMap.keys (pools (world_of o)) = JsMap.keys (pools w)
  /\ (forall other, other <> name ->
       JsMap.get other (pools (world_of o)) = JsMap.get other (pools w))
  /\ trace_of o = [NewConnectionPool (pool_id new) cfg; Log LvInfo (PoolSet name)]
  /\ (forall id names, ~ In (PoolClose id names) (trace_of o))
  /\ (forall n, ~ In (Log LvInfo (ClosingPool n)) (trace_of o))
  /\ ext (world_of o) = x1.
Proof.
  intros Hok Hget Hnew o new.
  destruct (registry_ok_get w name old Hok Hget) as (Hname & _ & Hid).
  unfold o, result_of, world_of, trace_of.
  rewrite (setPool_creates w name cfg x1 Hname Hnew). simpl.
  split; [reflexivity|]. split; [apply JsMapFacts.get_set_same|].
  split; [lia|]. split; [eapply JsMapFacts.keys_set_present, Hget|].
  split; [intros other Hne; now apply JsMapFacts.get_set_other|].
  split; [reflexivity|].
  split; [intros id names [H|[H|[]]]; discriminate|].
  split; [intros n [H|[H|[]]]; discriminate|reflexivity].
Qed.

(** *** [closeAllPools] *)

Lemma close_each_eq ps w :
  close_each drv ps w =
    (Ok (map (fun pool => mkPromise (drv_close_settles drv (pool_id pool) (ext w))
                                    (close_settles drv pool)) ps),
     mkWorld (fold_left (fun acc k => JsMap.delete k acc) (map pool_name ps) (pools w))
             (next_id w) (ext w),
     closing_trace ps (pools w)).
Proof.
  revert w. induction ps as [|p ps IH]; intros w.
  - destruct w. reflexivity.
  - cbn [close_each]. unfold bind at 1. rewrite pool_close_call_eq.
    unfold bind at 1. rewrite IH. cbn [ext pools next_id ret].
    simpl. now rewrite app_nil_r.
Qed.

Lemma settle_each_closes (instant : Pool -> nat) order w :
  settle_each (map (fun pool => mkPromise (instant pool) (close_settles drv pool)) order) w =
    (fst (settle_closes drv order (ext w)),
     mkWorld (pools w) (next_id w) (snd (settle_closes drv order (ext w))), []).
Proof.
  revert w. induction order as [|p order IH]; intros w.
  - destruct w. reflexivity.
  - cbn [map settle_each settle_closes settle]. unfold bind, close_settles.
    destruct (drv_close drv (pool_id p) (ext w)) as [[e|] x1]; [reflexivity|].
    rewrite IH. reflexivity.
Qed.

(** [closeAllPools], in one piece: the calls of all the closes, then the
    settlements in the order of their instants as far as the first
    rejection. *)
Lemma closeAllPools_eq w :
  let ps := JsMap.values (pools w) in
  let order := sort_by (fun pool => drv_close_settles drv (pool_id pool) (ext w)) ps in
  closeAllPools drv w =
    (fst (settle_closes drv order (ext w)),
     mkWorld (fold_left (fun acc k => JsMap.delete k acc) (map pool_name ps) (pools w))
             (next_id w) (snd (settle_closes drv order (ext w))),
     closing_trace ps (pools w)).
Proof.
  intros ps order. unfold closeAllPools, bind at 1. unfold pools_values. fold ps.
  unfold bind. rewrite close_each_eq. unfold Promise_all.
  rewrite (sort_by_map
             (fun pool => mkPromise (drv_close_settles drv (pool_id pool) (ext w))
                                    (close_settles drv pool))
             (@settles_at Ext unit)).
  cbn [settles_at]. fold order. rewrite settle_each_closes. cbn [ext pools next_id].
  rewrite app_nil_l, app_nil_r. reflexivity.
Qed.

Lemma close_answers_length ps x : List.length (close_answers drv ps x) = List.length ps.
Proof.
  revert x. induction ps as [|p ps IH]; intros x; simpl; [reflexivity|].
  destruct (drv_close drv (pool_id p) x). simpl. now rewrite IH.
Qed.

Lemma settle_closes_ok order x :
  fst (settle_closes drv order x) = Ok tt
  <-> Forall (fun a => a = None) (close_answers drv order x).
Proof.
  revert x. induction order as [|p order IH]; intros x; simpl.
  - split; [constructor|reflexivity].
  - destruct (drv_close drv (pool_id p) x) as [[e|] x1]; simpl.
    + split; [discriminate|]. intros H. inversion H. discriminate.
    + rewrite IH. split; [now constructor|]. intros H. now inversion H.
Qed.

Lemma settle_closes_all order x :
  fst (settle_closes drv order x) = Ok tt ->
  snd (settle_closes drv order x) = settled drv order x.
Proof.
  revert x. induction order as [|p order IH]; intros x; simpl; [reflexivity|].
  unfold settled. simpl.
  destruct (drv_close drv (pool_id p) x) as [[e|] x1]; simpl; [discriminate|]. apply IH.
Qed.

Lemma settle_closes_err order x e :
  fst (settle_closes drv order x) = Err e ->
  exists before pool after,
    order = before ++ pool :: after
    /\ Forall (fun a => a = None) (close_answers drv before x)
    /\ drv_close drv (pool_id pool) (settled drv before x)
       = (Some e, snd (settle_closes drv order x)).
Proof.
  revert x. induction order as [|p order IH]; intros x; simpl; [discriminate|].
  destruct (drv_close drv (pool_id p) x) as [[e'|] x1] eqn:Hclose; simpl.
  - intros [= ->]. exists [], p, order. split; [reflexivity|]. split; [constructor|].
    exact Hclose.
  - intros H. destruct (IH x1 H) as (before & q & after & -> & Hb & Hq).
    exists (p :: before), q, after. split; [reflexivity|]. split.
    + simpl. rewrite Hclose. now constructor.
    + unfold settled in *. simpl. rewrite Hclose. exact Hq.
Qed.

Lemma registry_names w :
  registry_ok w -> map pool_name (JsMap.values (pools w)) = JsMap.keys (pools w).
Proof.
  intros [_ Hall]. unfold JsMap.values, JsMap.keys. rewrite map_map.
  apply map_ext_in. intros kp Hin. rewrite Forall_forall in Hall.
  now destruct (Hall kp Hin) as (_ & H & _).
Qed.

(** C7 (as amended).  In a state that satisfies the invariant of the
    registry, [closeAllPools] calls the close of every pool of the
    registry, once each and in the order of the registry, and every entry
    is removed; when the last of these calls returns no close has settled,
    the external state being untouched.  The closes then settle in the
    order of their instants, which is the driver's and need not be the
    order of the registry.  The call succeeds
    exactly when every close succeeds, and then all of them have settled
    when it returns.  When it fails, its error is the error of one close,
    the first one to reject in the order of settlement, and the external
    state at that point is the one that this close left: the closes that
    settle after it are not waited for, and what they answer, failures
    included, is not part of the error. *)
Theorem closeAllPools_closes_every_pool w :
  registry_ok w ->
  let o := closeAllPools drv w in
  let ps := JsMap.values (pools w) in
  let order := sort_by (fun pool => drv_close_settles drv (pool_id pool) (ext w)) ps in
  pools (world_of o) = []
  /\ trace_of o = closing_trace ps (pools w)
  /\ (exists promises,
        close_each drv ps w =
          (Ok promises, mkWorld [] (next_id w) (ext w), closing_trace ps (pools w))
        /\ List.length promises = List.length ps)
  /\ Permutation order ps
  /\ (result_of o = Ok tt <-> Forall (fun a => a = None) (close_answers drv order (ext w)))
  /\ (result_of o = Ok tt -> ext (world_of o) = settled drv order (ext w))
  /\ (forall e, result_of o = Err e ->
       exists before pool after,
         order = before ++ pool :: after
         /\ Forall (fun a => a = None) (close_answers drv before (ext w))
         /\ drv_close drv (pool_id pool) (settled drv before (ext w))
            = (Some e, ext (world_of o))).
Proof.
  intros Hok o ps order. unfold o, result_of, world_of, trace_of.
  rewrite closeAllPools_eq. fold ps. fold order. cbn [fst snd pools ext].
  assert (Hempty : fold_left (fun acc k => JsMap.delete k acc) (map pool_name ps) (pools w) = []).
  { unfold ps. rewrite (registry_names w Hok). apply JsMapFacts.delete_all. auto. }
  split; [exact Hempty|]. split; [reflexivity|]. split.
  { eexists. rewrite close_each_eq, Hempty. split; [reflexivity|]. apply length_map. }
  split; [apply sort_by_perm|].
  split; [apply settle_closes_ok|]. split; [apply settle_closes_all|].
  apply settle_closes_err.
Qed.

End Registry.

(** ** The command executor and the bulk loader *)

Section Executor.
Context {Ext R : Type}.
Variable drv : Driver Ext R.

Implicit Types (w : World Ext) (x : Ext) (pool : Pool) (entity : Entity).

Lemma derive_params_map fields entity :
  derive_params fields entity =
    map (fun key => mkParam key (entity_get entity key) None) fields.
Proof. induction fields as [|f rest IH]; simpl; [reflexivity | now rewrite IH]. Qed.

Lemma entity_params_spec entity :
  entity_params entity = derive_params (Object_keys entity) entity.
Proof. unfold entity_params. now rewrite derive_params_map. Qed.

(** When the fields of the entity are distinct, as they are in an object,
    the derived parameters are the fields themselves. *)
Lemma entity_get_In entity k v :
  NoDup (Object_keys entity) -> In (k, v) entity -> entity_get entity k = v.
Proof.
  induction entity as [|[k0 v0] rest IH]; simpl; [tauto|].
  intros Hnd [[= -> ->]|Hin].
  - now rewrite String.eqb_refl.
  - inversion Hnd as [|? ? Hn Hd]; subst.
    destruct (String.eqb k0 k) eqn:E.
    + apply String.eqb_eq in E. subst. exfalso. apply Hn.
      change k with (fst (k, v)). now apply in_map.
    + now apply IH.
Qed.

Lemma entity_params_fields entity :
  NoDup (Object_keys entity) ->
  entity_params entity = map (fun kv => mkParam (fst kv) (snd kv) None) entity.
Proof.
  intros Hnd. unfold entity_params, Object_keys. rewrite map_map.
  apply map_ext_in. intros [k v] Hin. simpl. f_equal. now apply entity_get_In.
Qed.

(** C8.  [executeWithEntity] gives what [runCommand] gives on the
    parameters derived from the entity (one parameter for each field, in
    the order of [Object.keys], named after the field, holding
    [entity[field]], without a type tag): the same outcome and the same
    final state; its effects are those of [runCommand] after one more log
    line. *)
Theorem executeWithEntity_delegates poolName commandType command entity outputs w :
  let o := executeWithEntity drv poolName commandType command entity outputs w in
  let o' := executeWithEntity_spec drv poolName commandType command entity outputs w in
  let derived := derive_params (Object_keys entity) entity in
  result_of o = result_of o'
  /\ world_of o = world_of o'
  /\ trace_of o = Log LvInfo (ExecutingWithEntity poolName) :: trace_of o'
  /\ map param_name derived = Object_keys entity
  /\ map param_value derived = map (entity_get entity) (Object_keys entity)
  /\ Forall (fun p => param_type p = None) derived.
Proof.
  intros o o' derived. unfold o, o', executeWithEntity, executeWithEntity_spec.
  rewrite entity_params_spec. fold derived.
  set (rc := runCommand drv poolName commandType command derived outputs).
  unfold bind, logger, emit. simpl.
  destruct (rc w) as [[r w'] t].
  unfold result_of, world_of, trace_of. simpl.
  split; [reflexivity|]. split; [reflexivity|]. split; [reflexivity|].
  split; [|split].
  - unfold derived. rewrite derive_params_map, map_map. simpl. apply map_id.
  - unfold derived. rewrite derive_params_map, map_map. reflexivity.
  - unfold derived. rewrite derive_params_map. apply Forall_forall.
    intros p Hin. apply in_map_iff in Hin as (k & <- & _). reflexivity.
Qed.

(** *** [bulkInsert] *)

Lemma fold_rows_add columns entities t :
  fold_left (fun t entity => rows_add t (project columns entity)) entities t =
    mkTable (table_name t) (table_columns t)
            (table_rows t ++ map (project columns) entities).
Proof.
  revert t. induction entities as [|e rest IH]; intros t; simpl.
  - rewrite app_nil_r. now destruct t.
  - rewrite IH. simpl. now rewrite <- app_assoc.
Qed.

Lemma fold_columns_add columns t :
  fold_left
    (fun t column =>
       columns_add t (column_name column) (column_type column)
                   (match column_options column with Some o => o | None => [] end))
    columns t =
    mkTable (table_name t)
            (table_columns t ++
             map (fun c => (column_name c, column_type c,
                            match column_options c with Some o => o | None => [] end))
                 columns)
            (table_rows t).
Proof.
  revert t. induction columns as [|c rest IH]; intros t; simpl.
  - rewrite app_nil_r. now destruct t.
  - rewrite IH. simpl. now rewrite <- app_assoc.
Qed.

Lemma build_table_eq tableName columns entities :
  build_table tableName columns entities =
    mkTable tableName
            (map (fun c => (column_name c, column_type c,
                            match column_options c with Some o => o | None => [] end))
                 columns)
            (map (project columns) entities).
Proof. unfold build_table. rewrite fold_rows_add, fold_columns_add. reflexivity. Qed.

(** C9.  When the pool of the name resolves, [bulkInsert] hands the driver
    one bulk request whose table has one row for each entity, in the order
    of the entities, each row holding the values of the declared columns
    in the order of their declaration; so the table has as many rows as
    there are entities, none when there is no entity.  The call fails only
    if the driver rejects the bulk request: with no entity, as with any
    number of them, it succeeds when the driver accepts the request. *)
Theorem bulkInsert_one_row_per_entity poolName tableName columns entities w pool w1 t1 :
  getPool drv poolName None w = (Ok pool, w1, t1) ->
  let table := build_table tableName columns entities in
  let answer := drv_bulk drv (pool_id pool) table (ext w1) in
  table_rows table = map (project columns) entities
  /\ List.length (table_rows table) = List.length entities
  /\ (entities = [] -> table_rows table = [])
  /\ bulkInsert drv poolName tableName columns entities w =
       (match fst answer with None => Ok tt | Some e => Err e end,
        mkWorld (pools w1) (next_id w1) (snd answer),
        t1 ++ RequestBulk (pool_id pool) table
           :: match fst answer with
              | None => [Log LvInfo (BulkInsertCompleted tableName poolName)]
              | Some e => [Log LvError (ErrorDuringBulkInsert poolName e)]
              end)
  /\ (fst answer = None ->
      result_of (bulkInsert drv poolName tableName columns entities w) = Ok tt).
Proof.
  intros Hget table answer.
  assert (Hrows : table_rows table = map (project columns) entities).
  { unfold table. now rewrite build_table_eq. }
  assert (Heq : bulkInsert drv poolName tableName columns entities w =
       (match fst answer with None => Ok tt | Some e => Err e end,
        mkWorld (pools w1) (next_id w1) (snd answer),
        t1 ++ RequestBulk (pool_id pool) table
           :: match fst answer with
              | None => [Log LvInfo (BulkInsertCompleted tableName poolName)]
              | Some e => [Log LvError (ErrorDuringBulkInsert poolName e)]
              end)).
  { unfold bulkInsert, try_catch, bind. rewrite Hget.
    unfold call, logger, emit, throw. fold table. fold answer.
    destruct answer as [[e|] x]; same_trace. }
  split; [exact Hrows|]. split; [now rewrite Hrows, length_map|].
  split; [intros ->; now rewrite Hrows|]. split; [exact Heq|].
  intros Hans. rewrite Heq, Hans. reflexivity.
Qed.

End Executor.

(** ** The transaction coordinator *)

Section Transaction.
Context {Ext R : Type}.
Variable drv : Driver Ext R.

Implicit Types (w : World Ext) (x : Ext) (pool : Pool) (op : TransactionOp) (e : Error).

(** One operation of a transaction fails either when the binding of a
    parameter throws or when the driver rejects the command; in the second
    case only the failure is logged by the operation's own [catch]. *)
Lemma transaction_op_eq pool op w :
  transaction_op drv pool op w =
    match assign_each drv input (default_params (op_inputs op)) [] with
    | inl e => (Err e, w, [])
    | inr request1 =>
        match assign_each drv output (default_params (op_outputs op)) request1 with
        | inl e => (Err e, w, [])
        | inr request =>
            let run := RequestRun (OnTransaction (pool_id pool)) (op_commandType op)
                                  (op_command op) request in
            let '(o, x) := drv_run drv (OnTransaction (pool_id pool)) (op_commandType op)
                                   (op_command op) request (ext w) in
            match o with
            | inr _ => (Ok tt, mkWorld (pools w) (next_id w) x, [run])
            | inl e => (Err e, mkWorld (pools w) (next_id w) x,
                        [run; Log LvError (TransactionOperationError e)])
            end
        end
    end.
Proof.
  unfold transaction_op, assignParams, bind, try_catch, request_run, logger, emit, throw, ret.
  destruct (assign_each drv input _ []) as [e|request1]; [reflexivity|].
  destruct (assign_each drv output _ request1) as [e|request]; [reflexivity|].
  destruct (drv_run drv _ _ _ request (ext w)) as [[e|v] x]; reflexivity.
Qed.

(** The loop stops at the first operation that fails: the operations after
    it are not run. *)
Lemma transaction_ops_stop pool pre op post w w3 t3 e w4 t4 :
  transaction_ops drv pool pre w = (Ok tt, w3, t3) ->
  transaction_op drv pool op w3 = (Err e, w4, t4) ->
  transaction_ops drv pool (pre ++ op :: post) w = (Err e, w4, t3 ++ t4).
Proof.
  revert w t3. induction pre as [|p pre IH]; intros w t3 Hpre Hop; simpl in *.
  - injection Hpre as <- <-. unfold bind. rewrite Hop. reflexivity.
  - unfold bind in *. destruct (transaction_op drv pool p w) as [[[[]|e1] w1] t1];
      [|discriminate].
    destruct (transaction_ops drv pool pre w1) as [[[[]|e2] w2] t2] eqn:Hrest;
      [|discriminate].
    injection Hpre as <- <-.
    rewrite (IH w1 t2 Hrest Hop). now rewrite app_assoc.
Qed.

(** Whenever the loop fails, it fails at some operation of the list, after
    the operations before it succeeded. *)
Lemma transaction_ops_fails pool operations w e w' t :
  transaction_ops drv pool operations w = (Err e, w', t) ->
  exists pre op post w3 t3 t4,
    operations = pre ++ op :: post
    /\ transaction_ops drv pool pre w = (Ok tt, w3, t3)
    /\ transaction_op drv pool op w3 = (Err e, w', t4)
    /\ t = t3 ++ t4.
Proof.
  revert w t. induction operations as [|p rest IH]; intros w t; simpl; [discriminate|].
  unfold bind. destruct (transaction_op drv pool p w) as [[[[]|e1] w1] t1] eqn:Hp.
  - destruct (transaction_ops drv pool rest w1) as [[[[]|e2] w2] t2] eqn:Hrest;
      [discriminate|].
    intros [= <- <- <-].
    destruct (IH w1 t2 Hrest) as (pre & op & post & w3 & t3 & t4 & -> & Hpre & Hop & ->).
    exists (p :: pre), op, post, w3, (t1 ++ t3), t4. simpl. unfold bind.
    rewrite Hp, Hpre. repeat split; [exact Hop | now rewrite app_assoc].
  - intros [= <- <- <-]. exists [], p, rest, w, [], t1. simpl. repeat split; assumption.
Qed.

(** Neither the resolution of the pool nor the operations of a transaction
    call the commit. *)
Lemma emits_only_bind {A B} P (m : M Ext A) (f : A -> M Ext B) :
  emits_only P m -> (forall a, emits_only P (f a)) -> emits_only P (bind m f).
Proof.
  intros Hm Hf w. specialize (Hm w). unfold bind, trace_of in *.
  destruct (m w) as [[[a|e1] w1] t1]; simpl in *; [|exact Hm].
  specialize (Hf a w1). destruct (f a w1) as [[r w2] t2]. simpl in *.
  apply Forall_app. now split.
Qed.

Lemma emits_only_try_catch {A} P (m : M Ext A) (h : Error -> M Ext A) :
  emits_only P m -> (forall e, emits_only P (h e)) -> emits_only P (try_catch m h).
Proof.
  intros Hm Hh w. specialize (Hm w). unfold try_catch, trace_of in *.
  destruct (m w) as [[[a|e1] w1] t1]; simpl in *; [exact Hm|].
  specialize (Hh e1 w1). destruct (h e1 w1) as [[r w2] t2]. simpl in *.
  apply Forall_app. now split.
Qed.

Lemma emits_only_call P ev f : P ev -> emits_only (Ext := Ext) P (call ev f).
Proof.
  intros H w. unfold call, trace_of. destruct (f (ext w)). simpl. now constructor.
Qed.

Lemma emits_only_logger P level msg :
  P (Log level msg) -> emits_only (Ext := Ext) P (logger level msg).
Proof. intros H w. unfold logger, emit, trace_of. simpl. now constructor. Qed.

Ltac quiet := intros ?; unfold trace_of; simpl; constructor.

Ltac emits :=
  repeat first
    [ apply emits_only_bind; [|intros ?; cbv beta]
    | apply emits_only_try_catch; [|intros ?; cbv beta]
    | apply emits_only_call; exact I
    | apply emits_only_logger; exact I
    | solve [quiet]
    | match goal with
      | |- emits_only _ (if ?b then _ else _) => destruct b
      | |- emits_only _ (match ?o with _ => _ end) => destruct o
      end ].

Lemma new_ConnectionPool_no_commit name cfg :
  emits_only not_commit (new_ConnectionPool drv name cfg).
Proof.
  intros w. unfold new_ConnectionPool, trace_of.
  destruct (drv_new drv (next_id w) cfg (ext w)) as [[e|] x]; simpl; repeat constructor.
Qed.

Lemma setPool_no_commit name config : emits_only not_commit (setPool drv name config).
Proof. unfold setPool. emits. all: apply new_ConnectionPool_no_commit. Qed.

Lemma getPool_no_commit name config : emits_only not_commit (getPool drv name config).
Proof. unfold getPool, pool_connect. emits. all: apply new_ConnectionPool_no_commit. Qed.

Lemma transaction_ops_no_commit pool operations :
  emits_only not_commit (transaction_ops drv pool operations).
Proof.
  induction operations as [|op rest IH]; simpl; [quiet|].
  apply emits_only_bind; [|intros _; exact IH].
  intros w. rewrite transaction_op_eq.
  destruct (assign_each drv input _ []) as [e|r1]; [constructor|].
  destruct (assign_each drv output _ r1) as [e|r2]; [constructor|].
  destruct (drv_run drv _ _ _ r2 (ext w)) as [[e|v] x]; unfold trace_of; simpl;
    repeat constructor.
Qed.

(** C1.  When the pool resolves and the transaction begins, and an
    operation of the list fails with the error [e] after the operations
    before it succeeded: [executeTransaction] calls the rollback of the
    transaction and throws [e], the failing operation's own error, whether
    the driver's rollback succeeds or fails ([answer]); a rollback failure
    is only logged.  The operations after the failing one are not run. *)
Theorem executeTransaction_operation_fails
        poolName pre op post w pool w1 t1 x2 w3 t3 e w4 t4 answer x5 :
  getPool drv poolName None w = (Ok pool, w1, t1) ->
  drv_begin drv (pool_id pool) (ext w1) = (None, x2) ->
  transaction_ops drv pool pre (mkWorld (pools w1) (next_id w1) x2) = (Ok tt, w3, t3) ->
  transaction_op drv pool op w3 = (Err e, w4, t4) ->
  drv_rollback drv (pool_id pool) (ext w4) = (answer, x5) ->
  let o := executeTransaction drv poolName (pre ++ op :: post) w in
  o = (Err e, mkWorld (pools w4) (next_id w4) x5,
       t1 ++ TxBegin (pool_id pool) :: t3 ++ t4 ++ rollback_trace pool answer e)
  /\ result_of o = Err e
  /\ In (TxRollback (pool_id pool)) (trace_of o)
  /\ Forall not_commit (trace_of o).
Proof.
  intros Hget Hbegin Hpre Hop Hroll o.
  assert (Ho : o = (Err e, mkWorld (pools w4) (next_id w4) x5,
       t1 ++ TxBegin (pool_id pool) :: t3 ++ t4 ++ rollback_trace pool answer e)).
  { unfold o, executeTransaction, bind at 1. rewrite Hget.
    unfold bind at 1. unfold try_catch at 1. unfold call at 1. rewrite Hbegin. cbn iota beta.
    unfold try_catch at 1. unfold bind at 1.
    rewrite (transaction_ops_stop pool pre op post _ w3 t3 e w4 t4 Hpre Hop).
    unfold bind, try_catch, call, logger, emit, throw. rewrite Hroll.
    unfold rollback_trace. destruct answer as [re|]; simpl; f_equal; same_trace. }
  split; [exact Ho|]. rewrite Ho. split; [reflexivity|]. split.
  - unfold trace_of, rollback_trace. simpl.
    apply in_or_app. right. right. apply in_or_app. right. apply in_or_app. right. now left.
  - pose proof (getPool_no_commit poolName None w) as Hq1. rewrite Hget in Hq1.
    pose proof (transaction_ops_no_commit pool (pre ++ op :: post)
                  (mkWorld (pools w1) (next_id w1) x2)) as Hq2.
    rewrite (transaction_ops_stop pool pre op post _ w3 t3 e w4 t4 Hpre Hop) in Hq2.
    unfold trace_of in *. simpl in *.
    apply Forall_app. split; [exact Hq1|]. constructor; [exact I|].
    rewrite app_assoc. apply Forall_app. split; [exact Hq2|].
    unfold rollback_trace. destruct answer; repeat constructor.
Qed.

(** C2 (as amended).  When the pool resolves, the transaction begins,
    every operation succeeds and the driver's commit fails with the error
    [e]: [executeTransaction] throws [e], the commit's own error, and
    before that it calls the rollback of the transaction, right after the
    failed commit; a rollback failure is only logged. *)
Theorem executeTransaction_commit_fails
        poolName operations w pool w1 t1 x2 w3 t3 e x4 answer x5 :
  getPool drv poolName None w = (Ok pool, w1, t1) ->
  drv_begin drv (pool_id pool) (ext w1) = (None, x2) ->
  transaction_ops drv pool operations (mkWorld (pools w1) (next_id w1) x2) = (Ok tt, w3, t3) ->
  drv_commit drv (pool_id pool) (ext w3) = (Some e, x4) ->
  drv_rollback drv (pool_id pool) x4 = (answer, x5) ->
  let o := executeTransaction drv poolName operations w in
  o = (Err e, mkWorld (pools w3) (next_id w3) x5,
       t1 ++ TxBegin (pool_id pool) :: t3
          ++ TxCommit (pool_id pool) :: rollback_trace pool answer e)
  /\ result_of o = Err e
  /\ In (TxRollback (pool_id pool)) (trace_of o).
Proof.
  intros Hget Hbegin Hops Hcommit Hroll o.
  assert (Ho : o = (Err e, mkWorld (pools w3) (next_id w3) x5,
       t1 ++ TxBegin (pool_id pool) :: t3
          ++ TxCommit (pool_id pool) :: rollback_trace pool answer e)).
  { unfold o, executeTransaction, bind at 1. rewrite Hget.
    unfold bind at 1. unfold try_catch at 1. unfold call at 1. rewrite Hbegin. cbn iota beta.
    unfold try_catch at 1. unfold bind at 1. rewrite Hops.
    unfold bind, try_catch, call, logger, emit, throw. rewrite Hcommit. simpl. rewrite Hroll.
    unfold rollback_trace. destruct answer as [re|]; simpl; f_equal; same_trace. }
  split; [exact Ho|]. rewrite Ho. split; [reflexivity|].
  unfold trace_of, rollback_trace. simpl.
  apply in_or_app. right. right. apply in_or_app. right. right. now left.
Qed.

(** When every operation and the commit succeed, the transaction is
    committed and no rollback is called. *)
Lemma executeTransaction_commits poolName operations w pool w1 t1 x2 w3 t3 x4 :
  getPool drv poolName None w = (Ok pool, w1, t1) ->
  drv_begin drv (pool_id pool) (ext w1) = (None, x2) ->
  transaction_ops drv pool operations (mkWorld (pools w1) (next_id w1) x2) = (Ok tt, w3, t3) ->
  drv_commit drv (pool_id pool) (ext w3) = (None, x4) ->
  executeTransaction drv poolName operations w =
    (Ok tt, mkWorld (pools w3) (next_id w3) x4,
     t1 ++ TxBegin (pool_id pool) :: t3
        ++ [TxCommit (pool_id pool); Log LvInfo TransactionCommitted]).
Proof.
  intros Hget Hbegin Hops Hcommit.
  unfold executeTransaction, bind at 1. rewrite Hget.
  unfold bind at 1. unfold try_catch at 1. unfold call at 1. rewrite Hbegin. cbn iota beta.
  unfold try_catch at 1. unfold bind at 1. rewrite Hops.
  unfold bind, call, logger, emit. rewrite Hcommit. simpl. f_equal.
Qed.

(** X11.  When the begin fails, its error is logged and thrown at once: no
    operation runs and neither commit nor rollback is called. *)
Lemma executeTransaction_begin_fails poolName operations w pool w1 t1 e x2 :
  getPool drv poolName None w = (Ok pool, w1, t1) ->
  drv_begin drv (pool_id pool) (ext w1) = (Some e, x2) ->
  executeTransaction drv poolName operations w =
    (Err e, mkWorld (pools w1) (next_id w1) x2,
     t1 ++ [TxBegin (pool_id pool); Log LvError (TransactionBeginError e)]).
Proof.
  intros Hget Hbegin.
  unfold executeTransaction, bind at 1. rewrite Hget.
  unfold bind at 1. unfold try_catch at 1. unfold call at 1. rewrite Hbegin. cbn iota beta.
  unfold bind, logger, emit, throw. reflexivity.
Qed.

End Transaction.

(** ** The retry supervisor *)

Section Retry.
Context {Ext T : Type}.

Implicit Types (w : World Ext) (x : Ext) (operation : Operation (Ext := Ext) T) (e : Error).

Lemma retryOperation_success operation retries delay w v x1 :
  operation (ext w) = (inr v, x1) ->
  retryOperation operation retries delay w = (Ok v, with_ext w x1, [OperationCall]).
Proof.
  intros Hop. rewrite retryOperation_equation_1. unfold operation_call.
  rewrite Hop. now rewrite retryOperation_clause_1_equation_1.
Qed.

Lemma retryOperation_retry operation retries delay w e x1 :
  operation (ext w) = (inl e, x1) ->
  (retries > 0)%Z ->
  retryOperation operation retries delay w =
    let '(r, w2, t2) := retryOperation operation (retries - 1) (delay * 2) (with_ext w x1) in
    (r, w2,
     OperationCall :: Log LvWarn (OperationFailedRetrying retries e) :: Timeout delay :: t2).
Proof.
  intros Hop Hpos. rewrite retryOperation_equation_1. unfold operation_call.
  rewrite Hop. rewrite retryOperation_clause_1_equation_2.
  destruct (Z_gt_dec retries 0) as [Hp|Hn]; [|contradiction].
  rewrite retryOperation_clause_1_clause_2_equation_1.
  fold (with_ext w x1).
  destruct (retryOperation operation (retries - 1) (delay * 2) (with_ext w x1)) as [[r w2] t2].
  reflexivity.
Qed.

Lemma retryOperation_exhausted operation retries delay w e x1 :
  operation (ext w) = (inl e, x1) ->
  (retries <= 0)%Z ->
  retryOperation operation retries delay w =
    (Err e, with_ext w x1, [OperationCall; Log LvError (OperationFailedAfterRetries e)]).
Proof.
  intros Hop Hpos. rewrite retryOperation_equation_1. unfold operation_call.
  rewrite Hop. rewrite retryOperation_clause_1_equation_2.
  destruct (Z_gt_dec retries 0) as [Hn|Hn]; [lia|].
  rewrite retryOperation_clause_1_clause_2_equation_2. reflexivity.
Qed.

(** An operation that always fails is called once more than [retries]
    says, and the call fails. *)
Lemma retryOperation_always_failing operation :
  (forall x, exists e x', operation x = (inl e, x')) ->
  forall n delay w,
    calls (trace_of (retryOperation operation (Z.of_nat n) delay w)) = S n
    /\ exists e, result_of (retryOperation operation (Z.of_nat n) delay w) = Err e.
Proof.
  intros Hfail. induction n as [|n IH]; intros delay w.
  - destruct (Hfail (ext w)) as (e & x1 & Hop).
    rewrite (retryOperation_exhausted operation _ delay w e x1 Hop) by lia.
    split; [reflexivity|now exists e].
  - destruct (Hfail (ext w)) as (e & x1 & Hop).
    rewrite (retryOperation_retry operation _ delay w e x1 Hop) by lia.
    replace (Z.of_nat (S n) - 1)%Z with (Z.of_nat n) by lia.
    destruct (IH (delay * 2)%Z (with_ext w x1)) as [Hc [e' He']].
    destruct (retryOperation operation (Z.of_nat n) (delay * 2) (with_ext w x1))
      as [[r w2] t2].
    unfold trace_of, result_of, calls in *. simpl in *.
    split; [now rewrite Hc|now exists e'].
Qed.

(** C3 (as amended).  For an operation that fails on every call,
    [retryOperation] with [retries = 2] calls it three times, waiting
    [delay] and then twice [delay] in between, and then throws the error
    of the third call: that error itself, which is not an error that
    wraps it. *)
Theorem retryOperation_exhausts_after_three_calls operation delay w :
  (forall x, exists e x', operation x = (inl e, x')) ->
  exists e1 x1 e2 x2 e3 x3,
    operation (ext w) = (inl e1, x1)
    /\ operation x1 = (inl e2, x2)
    /\ operation x2 = (inl e3, x3)
    /\ retryOperation operation 2 delay w =
         (Err e3, with_ext w x3,
          [OperationCall; Log LvWarn (OperationFailedRetrying 2 e1); Timeout delay;
           OperationCall; Log LvWarn (OperationFailedRetrying 1 e2); Timeout (delay * 2);
           OperationCall; Log LvError (OperationFailedAfterRetries e3)])
    /\ calls (trace_of (retryOperation operation 2 delay w)) = 3
    /\ forall thrown,
         result_of (retryOperation operation 2 delay w) = Err thrown ->
         thrown = e3 /\ ~ wraps thrown e3.
Proof.
  intros Hfail.
  destruct (Hfail (ext w)) as (e1 & x1 & H1).
  destruct (Hfail x1) as (e2 & x2 & H2).
  destruct (Hfail x2) as (e3 & x3 & H3).
  exists e1, x1, e2, x2, e3, x3.
  assert (Heq : retryOperation operation 2 delay w =
         (Err e3, with_ext w x3,
          [OperationCall; Log LvWarn (OperationFailedRetrying 2 e1); Timeout delay;
           OperationCall; Log LvWarn (OperationFailedRetrying 1 e2); Timeout (delay * 2);
           OperationCall; Log LvError (OperationFailedAfterRetries e3)])).
  { rewrite (retryOperation_retry operation 2 delay w e1 x1 H1) by lia.
    change (2 - 1)%Z with 1%Z.
    rewrite (retryOperation_retry operation 1 _ (with_ext w x1) e2 x2 H2) by lia.
    change (1 - 1)%Z with 0%Z.
    rewrite (retryOperation_exhausted operation 0 _ (with_ext (with_ext w x1) x2) e3 x3 H3)
      by lia.
    reflexivity. }
  repeat (split; [assumption|]). rewrite Heq.
  split; [reflexivity|].
  intros thrown [= <-]. split; [reflexivity|apply error_not_own_cause].
Qed.

(** C4.  For an operation that fails on its first two calls and succeeds
    on the third, [retryOperation] with [retries = 3] and [delay = 100]
    returns the value of the third call; it waits 100 before the second
    call and 200 before the third, and makes no fourth call. *)
Theorem retryOperation_succeeds_on_third_call operation w e1 x1 e2 x2 v x3 :
  operation (ext w) = (inl e1, x1) ->
  operation x1 = (inl e2, x2) ->
  operation x2 = (inr v, x3) ->
  retryOperation operation 3 100 w =
    (Ok v, with_ext w x3,
     [OperationCall; Log LvWarn (OperationFailedRetrying 3 e1); Timeout 100;
      OperationCall; Log LvWarn (OperationFailedRetrying 2 e2); Timeout 200;
      OperationCall]).
Proof.
  intros H1 H2 H3.
  rewrite (retryOperation_retry operation 3 100 w e1 x1 H1) by lia.
  change (3 - 1)%Z with 2%Z. change (100 * 2)%Z with 200%Z.
  rewrite (retryOperation_retry operation 2 200 (with_ext w x1) e2 x2 H2) by lia.
  change (2 - 1)%Z with 1%Z.
  rewrite (retryOperation_success operation 1 _ (with_ext (with_ext w x1) x2) v x3 H3).
  reflexivity.
Qed.

End Retry.

(** ** The invariant holds in every state the manager reaches *)

Create HintDb registry.

Section Preservation.
Context {Ext R : Type}.
Variable drv : Driver Ext R.

Lemma keeps_ret {A} (a : A) : keeps_registry (ret (Ext := Ext) a).
Proof. intros w H. exact H. Qed.

Lemma keeps_throw {A} e : keeps_registry (throw (Ext := Ext) (A := A) e).
Proof. intros w H. exact H. Qed.

Lemma keeps_logger level msg : keeps_registry (logger (Ext := Ext) level msg).
Proof. intros w H. exact H. Qed.

Lemma keeps_call ev f : keeps_registry (call (Ext := Ext) ev f).
Proof. intros w H. unfold call, world_of. destruct (f (ext w)). exact H. Qed.

Lemma keeps_bind {A B} (m : M Ext A) (f : A -> M Ext B) :
  keeps_registry m -> (forall a, keeps_registry (f a)) -> keeps_registry (bind m f).
Proof.
  intros Hm Hf w H. specialize (Hm w H). unfold bind, world_of in *.
  destruct (m w) as [[[a|e] w1] t1]; simpl in *; [|exact Hm].
  specialize (Hf a w1 Hm). destruct (f a w1) as [[r w2] t2]. exact Hf.
Qed.

Lemma keeps_try_catch {A} (m : M Ext A) (h : Error -> M Ext A) :
  keeps_registry m -> (forall e, keeps_registry (h e)) -> keeps_registry (try_catch m h).
Proof.
  intros Hm Hh w H. specialize (Hm w H). unfold try_catch, world_of in *.
  destruct (m w) as [[[a|e] w1] t1]; simpl in *; [exact Hm|].
  specialize (Hh e w1 Hm). destruct (h e w1) as [[r w2] t2]. exact Hh.
Qed.

Lemma keeps_getPool name config : keeps_registry (getPool drv name config).
Proof. intros w. apply getPool_registry_ok. Qed.

Lemma keeps_setPool name config : keeps_registry (setPool drv name config).
Proof. intros w. apply setPool_registry_ok. Qed.

Lemma keeps_closePool name : keeps_registry (closePool drv name).
Proof. intros w. apply closePool_registry_ok. Qed.

Lemma keeps_assignParams request inputs outputs :
  keeps_registry (assignParams drv request inputs outputs).
Proof.
  intros w H. unfold assignParams, world_of.
  destruct (assign_each drv input inputs request) as [e|r1]; [exact H|].
  destruct (assign_each drv output outputs r1); exact H.
Qed.

Lemma keeps_request_run target commandType command request :
  keeps_registry (request_run drv target commandType command request).
Proof.
  intros w H. unfold request_run, world_of.
  destruct (drv_run drv target commandType command request (ext w)). exact H.
Qed.

#[local] Hint Resolve keeps_ret keeps_throw keeps_logger keeps_call keeps_getPool keeps_setPool
  keeps_closePool keeps_assignParams keeps_request_run : registry.

Ltac keeps :=
  repeat first
    [ solve [auto with registry]
    | apply keeps_bind; [|intros ?; cbv beta]
    | apply keeps_try_catch; [|intros ?; cbv beta] ].

Lemma keeps_runCommand poolName commandType command inputs outputs :
  keeps_registry (runCommand drv poolName commandType command inputs outputs).
Proof. unfold runCommand. keeps. Qed.

Lemma keeps_executeWithEntity poolName commandType command entity outputs :
  keeps_registry (executeWithEntity drv poolName commandType command entity outputs).
Proof. unfold executeWithEntity. keeps. Qed.

Lemma keeps_bulkInsert poolName tableName columns entities :
  keeps_registry (bulkInsert drv poolName tableName columns entities).
Proof. unfold bulkInsert. keeps. Qed.

Lemma keeps_transaction_ops pool operations :
  keeps_registry (transaction_ops drv pool operations).
Proof.
  induction operations as [|op rest IH]; simpl; [apply keeps_ret|].
  unfold transaction_op. keeps.
Qed.

Lemma keeps_executeTransaction poolName operations :
  keeps_registry (executeTransaction drv poolName operations).
Proof. unfold executeTransaction. keeps. apply keeps_transaction_ops. Qed.

Lemma keeps_closeAllPools : keeps_registry (closeAllPools drv).
Proof.
  intros w H. unfold world_of. rewrite closeAllPools_eq. cbn [fst snd].
  generalize (snd (settle_closes drv
                     (sort_by (fun pool => drv_close_settles drv (pool_id pool) (ext w))
                              (JsMap.values (pools w))) (ext w))).
  generalize (map pool_name (JsMap.values (pools w))). intros ks.
  revert w H. induction ks as [|k ks IH]; intros w H x; simpl.
  - exact H.
  - apply (IH (mkWorld (JsMap.delete k (pools w)) (next_id w) (ext w))).
    now apply registry_ok_delete.
Qed.

Lemma keeps_retryOperation {T} (operation : Operation (Ext := Ext) T) retries delay :
  keeps_registry (retryOperation operation retries delay).
Proof.
  intros w H. remember (Z.to_nat retries) as n eqn:Hn.
  revert retries delay w H Hn. induction n as [|n IH]; intros retries delay w H Hn;
    destruct (operation (ext w)) as [[e|v] x1] eqn:Hop.
  - rewrite (retryOperation_exhausted operation retries delay w e x1 Hop) by lia. exact H.
  - rewrite (retryOperation_success operation retries delay w v x1 Hop). exact H.
  - rewrite (retryOperation_retry operation retries delay w e x1 Hop) by lia.
    assert (Hrec : registry_ok
              (world_of (retryOperation operation (retries - 1) (delay * 2) (with_ext w x1))))
      by (apply IH; [exact H | lia]).
    destruct (retryOperation operation (retries - 1) (delay * 2) (with_ext w x1))
      as [[r w2] t2]. exact Hrec.
  - rewrite (retryOperation_success operation retries delay w v x1 Hop). exact H.
Qed.

(** X1.  Every state that the manager reaches satisfies the invariant of
    the registry: the constructor establishes it, and every public method,
    the close of a pool object and a change of the external state keep
    it. *)
Theorem reachable_registry_ok w : reachable drv w -> registry_ok w.
Proof.
  induction 1 as [configs x | c w Hw IH | w x Hw IH].
  - apply constructor_registry_ok.
  - destruct c; simpl.
    + now apply keeps_setPool.
    + now apply keeps_getPool.
    + now apply keeps_closePool.
    + now apply keeps_closeAllPools.
    + now apply keeps_runCommand.
    + now apply keeps_executeWithEntity.
    + now apply keeps_bulkInsert.
    + now apply keeps_executeTransaction.
    + now apply pool_close_registry_ok.
  - exact IH.
Qed.

End Preservation.

(** * The manager on the example driver *)

Section Examples.
Import Example.

Lemma manager_registry_ok (f : Faults) : registry_ok (manager f).
Proof. apply constructor_registry_ok. Qed.

(** The registry of the example: [readPool] is pool 0, [writePool] is
    pool 1. *)
Lemma manager_pools :
  pools (manager no_faults) =
    [("readPool", mkPool 0 cfgA "readPool"); ("writePool", mkPool 1 cfgB "writePool")].
Proof. reflexivity. Qed.

(** C1, on [[A succeeds; B fails; A]] with a rollback that fails too: the
    caller gets B's error. *)
Lemma executeTransaction_operation_fails_witness :
  let o := executeTransaction (driver faults_in_B) "writePool" [opA; opB; opA]
                              (manager faults_in_B) in
  result_of o = Err (new_Error "B failed")
  /\ In (TxRollback 1) (trace_of o)
  /\ db_journal (ext (world_of o)) = ["INSERT A"].
Proof.
  intros o.
  edestruct (executeTransaction_operation_fails
               (driver faults_in_B) "writePool" [opA] opB [opA] (manager faults_in_B))
    as (Ho & Hr & Ht & _); [reflexivity .. |].
  split; [exact Hr|]. split; [exact Ht|]. reflexivity.
Defined.

(** C2 as stated fails: every operation succeeded, the commit failed, and
    the rollback was called right after it. *)
Lemma executeTransaction_rolls_back_after_failed_commit :
  let o := executeTransaction (driver faults_in_commit) "writePool" [opA; opB]
                              (manager faults_in_commit) in
  result_of o = Err (new_Error "commit failed")
  /\ db_journal (ext (world_of o)) = ["INSERT A"; "INSERT B"]
  /\ In (TxRollback 1) (trace_of o)
  /\ exists before after, trace_of o = before ++ TxCommit 1 :: TxRollback 1 :: after.
Proof.
  split; [reflexivity|]. split; [reflexivity|]. split.
  - vm_compute. tauto.
  - eexists [_; _; _; _], [_]. reflexivity.
Qed.

Lemma executeTransaction_commit_fails_witness :
  let o := executeTransaction (driver faults_in_commit) "writePool" [opA; opB]
                              (manager faults_in_commit) in
  result_of o = Err (new_Error "commit failed") /\ In (TxRollback 1) (trace_of o).
Proof.
  intros o.
  edestruct (executeTransaction_commit_fails
               (driver faults_in_commit) "writePool" [opA; opB] (manager faults_in_commit))
    as (Ho & Hr & Ht); [reflexivity .. |].
  split; [exact Hr | exact Ht].
Defined.

(** C3 as stated fails: the error thrown after the third call is the
    operation's own error, not an error that wraps it. *)
Lemma retryOperation_rethrows_without_wrapper :
  let o := retryOperation broken 2 100 empty_manager in
  calls (trace_of o) = 3
  /\ result_of o = Err (new_Error "boom")
  /\ forall thrown, result_of o = Err thrown -> ~ wraps thrown (new_Error "boom").
Proof.
  split; [reflexivity|]. split; [reflexivity|].
  intros thrown [= <-]. unfold wraps. simpl. discriminate.
Qed.

Lemma retryOperation_exhausts_after_three_calls_witness :
  calls (trace_of (retryOperation broken 2 100 empty_manager)) = 3
  /\ result_of (retryOperation broken 2 100 empty_manager) = Err (new_Error "boom").
Proof.
  destruct (retryOperation_exhausts_after_three_calls (T := Value) broken 100 empty_manager)
    as (e1 & x1 & e2 & x2 & e3 & x3 & H1 & H2 & H3 & Heq & Hcalls & Hthrown).
  - intros x. eexists _, _. reflexivity.
  - split; [exact Hcalls|].
    injection H1 as <- <-. injection H2 as <- <-. injection H3 as <- <-.
    rewrite Heq. reflexivity.
Defined.

Lemma retryOperation_succeeds_on_third_call_witness :
  retryOperation flaky 3 100 empty_manager =
    (Ok (VNum 42),
     with_ext empty_manager (mkDb [] ["attempt"; "attempt"; "attempt"]),
     [OperationCall; Log LvWarn (OperationFailedRetrying 3 (new_Error "transient"));
      Timeout 100;
      OperationCall; Log LvWarn (OperationFailedRetrying 2 (new_Error "transient"));
      Timeout 200;
      OperationCall]).
Proof.
  apply (retryOperation_succeeds_on_third_call (T := Value) flaky empty_manager
           (new_Error "transient") (mkDb [] ["attempt"])
           (new_Error "transient") (mkDb [] ["attempt"; "attempt"])
           (VNum 42) (mkDb [] ["attempt"; "attempt"; "attempt"]));
    reflexivity.
Defined.

(** C5 as stated fails at the empty name: a configuration is supplied for
    a name without an entry, and no pool is created. *)
Lemma getPool_empty_name_creates_no_pool :
  JsMap.get "" (pools empty_manager) = None
  /\ getPool (driver no_faults) "" (Some cfgA) empty_manager =
       (Err (new_Error "Missing configuration details"), empty_manager,
        [Log LvError (FailedToSetPool (new_Error "Missing configuration details"));
         Log LvError (ErrorGettingPool "" (new_Error "Missing configuration details"))])
  /\ pools (world_of (getPool (driver no_faults) "" (Some cfgA) empty_manager)) = [].
Proof. split; [reflexivity|]. split; reflexivity. Qed.

Lemma getPool_absent_name_witness :
  result_of (getPool (driver no_faults) "readPool" None empty_manager) =
    Err (new_Error "Configuration for pool readPool not provided")
  /\ getPool (driver no_faults) "readPool" (Some cfgA) empty_manager =
       (Ok (mkPool 0 cfgA "readPool"),
        mkWorld [("readPool", mkPool 0 cfgA "readPool")] 1 (mkDb [0] []),
        [NewConnectionPool 0 cfgA; Log LvInfo (PoolSet "readPool"); PoolConnect 0]).
Proof.
  destruct (getPool_absent_name (driver no_faults) empty_manager "readPool" eq_refl)
    as [Hnone Hsome].
  split; [now rewrite Hnone|].
  destruct (Hsome cfgA db0) as (_ & Hconnect & _); [discriminate | reflexivity |].
  apply (Hconnect eq_refl eq_refl (mkDb [0] []) eq_refl).
Defined.

(** C6, on the example: while the close of [readPool] is pending its
    entry is gone, and so it is after the close has failed. *)
Lemma closePool_removes_entry_witness :
  let w := manager faults_in_close in
  let closed := closePool (driver faults_in_close) "readPool" w in
  (exists promise,
     pool_close_call (driver faults_in_close) (mkPool 0 cfgA "readPool") w =
       (Ok promise, mkWorld [("writePool", mkPool 1 cfgB "writePool")] 2 db0,
        [Log LvInfo (ClosingPool "readPool"); PoolClose 0 ["writePool"]]))
  /\ result_of closed = Err (close_error 0)
  /\ JsMap.get "readPool" (pools (world_of closed)) = None
  /\ result_of (getPool (driver faults_in_close) "readPool" (Some cfgB) (world_of closed)) =
       Ok (mkPool 2 cfgB "readPool").
Proof.
  intros w closed. subst w closed.
  destruct (closePool_removes_entry (driver faults_in_close) (manager faults_in_close)
                                    "readPool") as [_ Hpresent].
  destruct (Hpresent (mkPool 0 cfgA "readPool") (manager_registry_ok _) eq_refl)
    as ((promise & Hcall & _) & _ & _ & _ & Heq & Hgone & Hagain).
  split; [exists promise; exact Hcall|].
  split; [now rewrite Heq|]. split; [exact Hgone|].
  destruct (Hagain cfgB (mkDb [] []) eq_refl) as (_ & _ & _ & _ & _ & Hok).
  apply Hok. right. reflexivity.
Defined.

(** C7 as stated fails.  Both pools are connected and both closes fail;
    the close of the second pool settles first.  Both closes are called,
    but the call fails with the error of that one close: the failure of
    the other close is not in it, and when the call returns the other
    close has not settled, its pool still being connected. *)
Lemma closeAllPools_surfaces_one_failure :
  let drv := driver_settling slow_first faults_in_close in
  let w := world_of (getPool drv "writePool" None
                       (world_of (getPool drv "readPool" None (manager faults_in_close)))) in
  let o := closeAllPools drv w in
  db_connected (ext w) = [1; 0]
  /\ trace_of o = [Log LvInfo (ClosingPool "readPool"); PoolClose 0 ["writePool"];
                   Log LvInfo (ClosingPool "writePool"); PoolClose 1 []]
  /\ result_of o = Err (close_error 1)
  /\ ~ In (close_error 0) (error_chain (close_error 1))
  /\ db_connected (ext (world_of o)) = [0]
  /\ fst (drv_close drv 0 (ext (world_of o))) = Some (close_error 0).
Proof.
  split; [reflexivity|]. split; [reflexivity|]. split; [reflexivity|].
  split; [|split; reflexivity].
  simpl. intros [H|[]]. discriminate.
Qed.

Lemma closeAllPools_closes_every_pool_witness :
  let o := closeAllPools (driver faults_in_close) (manager faults_in_close) in
  pools (world_of o) = []
  /\ trace_of o = [Log LvInfo (ClosingPool "readPool"); PoolClose 0 ["writePool"];
                   Log LvInfo (ClosingPool "writePool"); PoolClose 1 []].
Proof.
  intros o.
  destruct (closeAllPools_closes_every_pool (driver faults_in_close) (manager faults_in_close)
                                            (manager_registry_ok _))
    as (Hempty & Htrace & _).
  split; [exact Hempty | exact Htrace].
Defined.

Lemma bulkInsert_one_row_per_entity_witness :
  let table := build_table "Users" users_columns users in
  table_rows table = [[VNum 1; VStr "a"]; [VNum 2; VUndefined]]
  /\ result_of (bulkInsert (driver no_faults) "writePool" "Users" users_columns users
                           (manager no_faults)) = Ok tt
  /\ result_of (bulkInsert (driver no_faults) "writePool" "Users" users_columns []
                           (manager no_faults)) = Ok tt.
Proof.
  intros table.
  edestruct (bulkInsert_one_row_per_entity (driver no_faults) "writePool" "Users"
               users_columns users (manager no_faults)) as (Hrows & _ & _ & _ & Hok);
    [reflexivity|].
  edestruct (bulkInsert_one_row_per_entity (driver no_faults) "writePool" "Users"
               users_columns [] (manager no_faults)) as (_ & _ & _ & _ & Hok0);
    [reflexivity|].
  split; [exact Hrows|]. split; [apply Hok | apply Hok0]; reflexivity.
Defined.

Lemma setPool_overwrites_without_close_witness :
  let o := setPool (driver no_faults) "readPool" (Some cfgB) (manager no_faults) in
  result_of o = Ok tt
  /\ JsMap.get "readPool" (pools (world_of o)) = Some (mkPool 2 cfgB "readPool")
  /\ forall id names, ~ In (PoolClose id names) (trace_of o).
Proof.
  intros o.
  destruct (setPool_overwrites_without_close (driver no_faults) (manager no_faults)
              "readPool" (mkPool 0 cfgA "readPool") cfgB db0
              (manager_registry_ok _) eq_refl eq_refl)
    as (Hr & Hget & _ & _ & _ & _ & Hclose & _).
  split; [exact Hr|]. split; [exact Hget | exact Hclose].
Defined.

End Examples.


(** * More on the pool registry *)

Section RegistryMore.
Context {Ext R : Type}.
Variable drv : Driver Ext R.

Implicit Types (w : World Ext) (x : Ext) (name : string) (pool : Pool) (cfg : Config).

(** X2.  When [setPool] fails on a name that has an entry, because the
    configuration is missing or because the driver's constructor throws,
    its [catch] block removes that entry: the name is left without a pool,
    the other entries are kept, and the close of the pool that was
    registered is not called. *)
Theorem setPool_failure_drops_entry w name old (config : option Config) e x1 :
  registry_ok w ->
  JsMap.get name (pools w) = Some old ->
  match config with
  | None => e = new_Error "Missing configuration details" /\ x1 = ext w
  | Some cfg => drv_new drv (next_id w) cfg (ext w) = (Some e, x1)
  end ->
  let o := setPool drv name config w in
  result_of o = Err e
  /\ world_of o = mkWorld (JsMap.delete name (pools w)) (next_id w) x1
  /\ JsMap.get name (pools (world_of o)) = None
  /\ (forall other, other <> name ->
       JsMap.get other (pools (world_of o)) = JsMap.get other (pools w))
  /\ (forall id names, ~ In (PoolClose id names) (trace_of o))
  /\ In (Log LvError (ErrorSettingPool name)) (trace_of o).
Proof.
  intros Hok Hget Hcfg o.
  destruct (registry_ok_get w name old Hok Hget) as (Hname & _ & _).
  assert (Hhas : JsMap.has name (pools w) = true)
    by (apply JsMapFacts.has_get; now exists old).
  assert (Ho : o = (Err e, mkWorld (JsMap.delete name (pools w)) (next_id w) x1,
                    match config with
                    | Some cfg => [NewConnectionPool (next_id w) cfg]
                    | None => []
                    end ++ [Log LvError (ErrorSettingPool name);
                            Log LvError (FailedToSetPool e)])).
  { unfold o. destruct config as [cfg|].
    - rewrite (setPool_constructor_throws drv w name cfg e x1 Hname Hcfg), Hhas. reflexivity.
    - destruct Hcfg as [-> ->]. rewrite setPool_missing_config, (truthy_true _ Hname), Hhas.
      reflexivity. }
  rewrite Ho. unfold result_of, world_of, trace_of. simpl.
  split; [reflexivity|]. split; [reflexivity|].
  split; [apply JsMapFacts.get_delete_same|].
  split; [intros other Hne; now apply JsMapFacts.get_delete_other|].
  split.
  - intros id names Hin. apply in_app_or in Hin as [Hin|Hin].
    + destruct config; simpl in Hin; [destruct Hin as [H|[]]; discriminate | exact Hin].
    + destruct Hin as [H|[H|[]]]; discriminate.
  - apply in_or_app. right. now left.
Qed.

(** X3.  The rebound [close] of a pool removes the entry of the name it
    was created under, whatever pool that name holds now: after [setPool]
    has replaced the pool of a name, closing the replaced pool removes the
    new pool from the registry, and the only close the driver sees is the
    one of the replaced pool. *)
Theorem stale_close_removes_successor w name old cfg x1 :
  registry_ok w ->
  JsMap.get name (pools w) = Some old ->
  drv_new drv (next_id w) cfg (ext w) = (None, x1) ->
  let replaced := world_of (setPool drv name (Some cfg) w) in
  let o := pool_close drv old replaced in
  JsMap.get name (pools replaced) = Some (fresh_pool w name cfg)
  /\ JsMap.get name (pools (world_of o)) = None
  /\ trace_of o = [Log LvInfo (ClosingPool name);
                   PoolClose (pool_id old) (JsMap.keys (pools (world_of o)))]
  /\ forall names, ~ In (PoolClose (pool_id (fresh_pool w name cfg)) names) (trace_of o).
Proof.
  intros Hok Hget Hnew replaced o.
  destruct (registry_ok_get w name old Hok Hget) as (Hname & Hhook & Hid).
  assert (Hr : replaced =
            mkWorld (JsMap.set name (fresh_pool w name cfg) (pools w)) (S (next_id w)) x1).
  { unfold replaced. now rewrite (setPool_creates drv w name cfg x1 Hname Hnew). }
  unfold o. rewrite Hr. clear Hr o replaced. rewrite pool_close_eq, Hhook. simpl.
  destruct (drv_close drv (pool_id old) x1) as [a x2]. unfold world_of, trace_of. simpl.
  split; [apply JsMapFacts.get_set_same|]. split; [apply JsMapFacts.get_delete_same|].
  split; [reflexivity|].
  intros names [H|[H|[]]]; [discriminate|]. injection H as H _. lia.
Qed.

(** X4.  On a name that has an entry, [getPool] does not look at the
    configuration it is given: it answers as without one, and the pool it
    returns is the registered one.  When that pool is connected or
    connecting, nothing happens at all. *)
Theorem getPool_present_ignores_config w name pool (config : option Config) :
  JsMap.get name (pools w) = Some pool ->
  getPool drv name config w = getPool drv name None w
  /\ (forall q, result_of (getPool drv name config w) = Ok q -> q = pool)
  /\ (forall id c, ~ In (NewConnectionPool id c) (trace_of (getPool drv name config w)))
  /\ (drv_connected drv (pool_id pool) (ext w) || drv_connecting drv (pool_id pool) (ext w)
       = true ->
      getPool drv name config w = (Ok pool, w, [])).
Proof.
  intros Hget. rewrite !(getPool_present drv w name pool _ Hget).
  split; [reflexivity|].
  destruct (drv_connected drv (pool_id pool) (ext w)),
           (drv_connecting drv (pool_id pool) (ext w)); simpl.
  1-3: split; [intros q [= <-]; reflexivity|]; split; [intros id c []|reflexivity].
  destruct (drv_connect drv (pool_id pool) (ext w)) as [[e|] x]; unfold result_of, trace_of;
    simpl; (split; [intros q H; congruence|]); (split; [|discriminate]);
    intros id c Hin; simpl in Hin; intuition discriminate.
Qed.

(** X5.  When [getPool] creates a pool and the connect fails, the error of
    the connect is thrown but the pool stays registered: a later [getPool]
    on the name needs no configuration, builds no second pool and calls
    connect on the same pool again. *)
Theorem getPool_connect_failure_keeps_pool w name cfg x1 e x2 :
  JsMap.get name (pools w) = None ->
  name <> "" ->
  drv_new drv (next_id w) cfg (ext w) = (None, x1) ->
  drv_connected drv (next_id w) x1 = false ->
  drv_connecting drv (next_id w) x1 = false ->
  drv_connect drv (next_id w) x1 = (Some e, x2) ->
  let pool := fresh_pool w name cfg in
  let o := getPool drv name (Some cfg) w in
  result_of o = Err e
  /\ JsMap.get name (pools (world_of o)) = Some pool
  /\ (drv_connected drv (next_id w) x2 = false ->
      drv_connecting drv (next_id w) x2 = false ->
      forall x3,
        drv_connect drv (next_id w) x2 = (None, x3) ->
        getPool drv name None (world_of o) =
          (Ok pool, mkWorld (pools (world_of o)) (S (next_id w)) x3,
           [PoolConnect (pool_id pool)])).
Proof.
  intros Habs Hname Hnew Hc1 Hc2 Hconn pool o.
  unfold o. rewrite (getPool_creates drv w name cfg x1 Habs Hname Hnew), Hc1, Hc2, Hconn.
  unfold result_of, world_of. simpl.
  split; [reflexivity|]. split; [apply JsMapFacts.get_set_same|].
  intros Hd1 Hd2 x3 Hagain.
  rewrite (getPool_present drv _ name pool None); [|apply JsMapFacts.get_set_same].
  simpl. rewrite Hd1, Hd2, Hagain. reflexivity.
Qed.

Lemma closeAllPools_empties w :
  registry_ok w -> pools (world_of (closeAllPools drv w)) = [].
Proof.
  intros Hok. unfold world_of. rewrite closeAllPools_eq. cbn [fst snd pools].
  rewrite (registry_names w Hok). apply JsMapFacts.delete_all. auto.
Qed.

(** X14.  Closing is not repeatable by name but is harmless in bulk: in a
    state that satisfies the invariant, after [closePool] on a name a second
    [closePool] on it throws [Pool <name> does not exist] and changes
    nothing more; after [closeAllPools] a second [closeAllPools] succeeds
    without any effect, and [getPool] without a configuration fails on
    every name. *)
Theorem closing_twice w name pool :
  registry_ok w ->
  JsMap.get name (pools w) = Some pool ->
  let w1 := world_of (closePool drv name w) in
  let w2 := world_of (closeAllPools drv w) in
  closePool drv name w1 = (Err (new_Error ("Pool " ++ name ++ " does not exist")), w1, [])
  /\ closeAllPools drv w2 = (Ok tt, w2, [])
  /\ forall other,
      result_of (getPool drv other None w2) =
        Err (new_Error ("Configuration for pool " ++ other ++ " not provided")).
Proof.
  intros Hok Hget w1 w2.
  destruct (registry_ok_get w name pool Hok Hget) as (_ & Hhook & _).
  split.
  - apply closePool_absent. unfold w1.
    rewrite (closePool_present drv w name pool Hget), pool_close_eq, Hhook.
    destruct (drv_close drv (pool_id pool) (ext w)). apply JsMapFacts.get_delete_same.
  - pose proof (closeAllPools_empties w Hok) as Hempty.
    fold w2 in Hempty. split.
    + rewrite closeAllPools_eq, Hempty. simpl. destruct w2; simpl in *. now subst.
    + intros other. rewrite getPool_no_config; [reflexivity|]. now rewrite Hempty.
Qed.

End RegistryMore.


(** * More on the command executor, the constructor and the transactions *)

Ltac emitting :=
  repeat first
    [ apply emits_only_bind; [|intros ?; cbv beta]
    | apply emits_only_try_catch; [|intros ?; cbv beta]
    | apply emits_only_call; exact I
    | apply emits_only_logger; exact I
    | solve [intros ?; unfold trace_of; simpl; constructor]
    | match goal with
      | |- emits_only _ (if ?b then _ else _) => destruct b
      | |- emits_only _ (match ?o with _ => _ end) => destruct o
      end ].

Section ExecutorMore.
Context {Ext R : Type}.
Variable drv : Driver Ext R.

Implicit Types (w : World Ext) (x : Ext) (name : string) (pool : Pool) (cfg : Config).

(** What resolving a pool can do, and so what it never does: it runs no
    request, begins no transaction and closes no pool. *)
Lemma getPool_events name (config : option Config) :
  emits_only getPool_event (getPool drv name config).
Proof.
  unfold getPool, setPool, pool_connect. emitting.
  all: intros w'; unfold new_ConnectionPool, trace_of;
    destruct (drv_new drv (next_id w') _ (ext w')) as [[e|] x]; simpl; repeat constructor.
Qed.

Lemma assign_each_accepted dir params request :
  (forall req c, drv_bind drv req c = None) ->
  assign_each drv dir params request = inr (request ++ map (bind_call dir) params).
Proof.
  intros Hacc. revert request. induction params as [|p rest IH]; intros request; simpl.
  - now rewrite app_nil_r.
  - rewrite Hacc, IH, <- app_assoc. reflexivity.
Qed.

(** X6.  When the driver accepts every binding, [assignParams] binds the
    inputs first and the outputs after them, each list in its own order,
    after what the request already holds; a parameter with a type tag is
    bound with three arguments and one without with two.  It has no other
    effect. *)
Theorem assignParams_order request inputs outputs w :
  (forall req c, drv_bind drv req c = None) ->
  assignParams drv request inputs outputs w =
    (Ok (request ++ map (bind_call input) inputs ++ map (bind_call output) outputs), w, [])
  /\ (forall p dir,
       bind_call dir p =
         match param_type p with
         | Some ty => Bind3 dir (param_name p) ty (param_value p)
         | None => Bind2 dir (param_name p) (param_value p)
         end).
Proof.
  intros Hacc. split; [|reflexivity].
  unfold assignParams. rewrite !(assign_each_accepted _ _ _ Hacc), <- app_assoc. reflexivity.
Qed.

(** X7.  When the pool resolves and the parameters are bound, [runCommand]
    sends one request, on that pool, and its outcome is the driver's
    answer.  A rejection of the driver is thrown as it is and is not
    logged: the [catch] block of [runCommand] is not entered. *)
Theorem runCommand_passes_driver_answer
        poolName commandType command inputs outputs w pool w1 t1 request1 request :
  getPool drv poolName None w = (Ok pool, w1, t1) ->
  assign_each drv input inputs [] = inr request1 ->
  assign_each drv output outputs request1 = inr request ->
  let answer := drv_run drv (OnPool (pool_id pool)) commandType command request (ext w1) in
  let o := runCommand drv poolName commandType command inputs outputs w in
  o = (match fst answer with inr v => Ok v | inl e => Err e end,
       mkWorld (pools w1) (next_id w1) (snd answer),
       t1 ++ [Log LvInfo (RunningCommand commandType poolName);
              RequestRun (OnPool (pool_id pool)) commandType command request])
  /\ (forall e, ~ In (Log LvError (ErrorRunningCommand poolName e)) (trace_of o)).
Proof.
  intros Hget H1 H2 answer o.
  assert (Ho : o = (match fst answer with inr v => Ok v | inl e => Err e end,
       mkWorld (pools w1) (next_id w1) (snd answer),
       t1 ++ [Log LvInfo (RunningCommand commandType poolName);
              RequestRun (OnPool (pool_id pool)) commandType command request])).
  { unfold o, runCommand, bind at 1. unfold try_catch, bind at 1. rewrite Hget.
    unfold bind, assignParams. rewrite H1, H2. unfold logger, emit, ret, request_run. simpl.
    fold answer. destruct answer as [[e|v] x]; simpl; f_equal; same_trace. }
  split; [exact Ho|]. intros e. rewrite Ho. unfold trace_of. simpl.
  pose proof (getPool_events poolName None w) as Hevs. rewrite Hget in Hevs.
  unfold trace_of in Hevs. simpl in Hevs. rewrite Forall_forall in Hevs.
  intros Hin. apply in_app_or in Hin as [Hin|[Hin|[Hin|[]]]];
    [exact (Hevs _ Hin) | discriminate | discriminate].
Qed.

(** X8.  On a name that has no entry, [runCommand], [bulkInsert] and
    [executeTransaction] all fail with the error [Configuration for pool
    <name> not provided]: they pass no configuration to [getPool], so they
    create no pool, leave the state as it was and make no call of the
    driver. *)
Theorem commands_need_a_configured_pool
        name commandType command inputs outputs tableName columns entities operations w :
  JsMap.get name (pools w) = None ->
  let e := new_Error ("Configuration for pool " ++ name ++ " not provided") in
  runCommand drv name commandType command inputs outputs w =
    (Err e, w, [Log LvError (ErrorGettingPool name e);
                Log LvError (ErrorRunningCommand name e)])
  /\ bulkInsert drv name tableName columns entities w =
       (Err e, w, [Log LvError (ErrorGettingPool name e);
                   Log LvError (ErrorDuringBulkInsert name e)])
  /\ executeTransaction drv name operations w =
       (Err e, w, [Log LvError (ErrorGettingPool name e)]).
Proof.
  intros Habs e. pose proof (getPool_no_config drv w name Habs) as Hget. fold e in Hget.
  split; [|split].
  - unfold runCommand, bind at 1. unfold try_catch, bind at 1. rewrite Hget. reflexivity.
  - unfold bulkInsert, try_catch, bind at 1. rewrite Hget. reflexivity.
  - unfold executeTransaction, bind at 1. rewrite Hget. reflexivity.
Qed.

Lemma set_absent (k : string) (v : Pool) (m : JsMap.t Pool) :
  JsMap.get k m = None -> JsMap.set k v m = m ++ [(k, v)].
Proof.
  induction m as [|[k' v'] m IH]; simpl; [reflexivity|].
  destruct (String.eqb k' k); [discriminate|]. intros H. now rewrite IH.
Qed.

Lemma get_app_absent (k : string) (m m' : JsMap.t Pool) :
  JsMap.get k m = None -> JsMap.get k (m ++ m') = JsMap.get k m'.
Proof.
  induction m as [|[k' v'] m IH]; simpl; [reflexivity|].
  destruct (String.eqb k' k); [discriminate|]. exact IH.
Qed.

Lemma set_each_fresh entries :
  (forall id cfg x, fst (drv_new drv id cfg x) = None) ->
  NoDup (map fst entries) ->
  Forall (fun entry => fst entry <> "") entries ->
  forall w,
    (forall k, In k (map fst entries) -> JsMap.get k (pools w) = None) ->
    pools (fst (set_each drv entries w)) = pools w ++ registered (next_id w) entries
    /\ next_id (fst (set_each drv entries w)) = next_id w + List.length entries
    /\ snd (set_each drv entries w) = registering_trace (next_id w) entries.
Proof.
  intros Hacc. induction entries as [|[name cfg] rest IH]; intros Hnd Hne w Habs; simpl.
  - rewrite app_nil_r, Nat.add_0_r. auto.
  - inversion Hnd as [|? ? Hnotin Hnd']; subst. inversion Hne as [|? ? Hname Hne']; subst.
    simpl in Hname.
    destruct (drv_new drv (next_id w) cfg (ext w)) as [o x1] eqn:Hnew.
    pose proof (Hacc (next_id w) cfg (ext w)) as Ho. rewrite Hnew in Ho. simpl in Ho. subst o.
    rewrite (setPool_creates drv w name cfg x1 Hname Hnew).
    assert (Hw : JsMap.get name (pools w) = None) by (apply Habs; now left).
    rewrite (set_absent _ _ _ Hw).
    set (w1 := mkWorld (pools w ++ [(name, fresh_pool w name cfg)]) (S (next_id w)) x1).
    destruct (IH Hnd' Hne' w1) as (Hp & Hn & Ht).
    { intros k Hin. unfold w1. simpl. rewrite get_app_absent by (apply Habs; now right).
      simpl. destruct (String.eqb name k) eqn:E; [|reflexivity].
      apply String.eqb_eq in E. subst. contradiction. }
    destruct (set_each drv rest w1) as [w2 t2]. simpl in *.
    rewrite Hp, Hn, Ht, <- app_assoc. simpl. repeat split. lia.
Qed.

(** X9.  The constructor registers the configured pools without connecting
    any of them.  When the names are distinct and not empty and the driver's
    constructor accepts every configuration, the registry holds one pool for
    each entry, in the order of the entries, each built from its own
    configuration, with the identities 0, 1, 2, ...; the only effects are
    one constructor call and one [Pool set] log line for each entry. *)
Theorem constructor_registers_in_order entries x :
  (forall id cfg x', fst (drv_new drv id cfg x') = None) ->
  NoDup (map fst entries) ->
  Forall (fun entry => fst entry <> "") entries ->
  let o := constructor drv (Some entries) x in
  pools (fst o) = registered 0 entries
  /\ JsMap.keys (pools (fst o)) = map fst entries
  /\ map pool_config (JsMap.values (pools (fst o))) = map snd entries
  /\ map pool_id (JsMap.values (pools (fst o))) = seq 0 (List.length entries)
  /\ next_id (fst o) = List.length entries
  /\ snd o = registering_trace 0 entries
  /\ (forall id, ~ In (PoolConnect id) (snd o)).
Proof.
  intros Hacc Hnd Hne o. unfold o, constructor.
  destruct (set_each_fresh entries Hacc Hnd Hne (mkWorld [] 0 x)) as (Hp & Hn & Ht);
    [reflexivity|].
  simpl in Hp, Hn, Ht. rewrite Hp, Hn, Ht.
  split; [reflexivity|].
  assert (Hreg : forall n, JsMap.keys (registered n entries) = map fst entries
                  /\ map pool_config (JsMap.values (registered n entries)) = map snd entries
                  /\ map pool_id (JsMap.values (registered n entries))
                     = seq n (List.length entries)
                  /\ forall id, ~ In (PoolConnect id) (registering_trace n entries)).
  { clear. induction entries as [|[name cfg] rest IH]; intros n; simpl.
    - repeat split. tauto.
    - destruct (IH (S n)) as (H1 & H2 & H3 & H4). unfold JsMap.keys, JsMap.values in *.
      rewrite H1, H2, H3. repeat split.
      intros id [H|[H|H]]; [discriminate | discriminate | exact (H4 id H)]. }
  destruct (Hreg 0) as (H1 & H2 & H3 & H4).
  split; [exact H1|]. split; [exact H2|]. split; [exact H3|].
  split; [reflexivity|]. split; [reflexivity | exact H4].
Qed.

Lemma transaction_ops_no_rollback pool operations w w' t :
  transaction_ops drv pool operations w = (Ok tt, w', t) ->
  forall id, ~ In (TxRollback id) t.
Proof.
  revert w t. induction operations as [|op rest IH]; intros w t; simpl.
  - intros [= <- <-] id [].
  - unfold bind. rewrite transaction_op_eq.
    destruct (assign_each drv input _ []) as [e|r1]; [discriminate|].
    destruct (assign_each drv output _ r1) as [e|r2]; [discriminate|].
    destruct (drv_run drv _ _ _ r2 (ext w)) as [[e|v] x1]; [discriminate|].
    simpl.
    match goal with
    | |- context [transaction_ops drv pool rest ?w0] =>
        destruct (transaction_ops drv pool rest w0) as [[[[]|e] w2] t2] eqn:Hrest
    end; [|discriminate].
    intros [= <- <-] id [H|H]; [discriminate | exact (IH _ _ Hrest id H)].
Qed.

Lemma transaction_ops_commands pool operations w w' t :
  transaction_ops drv pool operations w = (Ok tt, w', t) ->
  tx_commands t = map (fun op => (op_commandType op, op_command op)) operations
  /\ List.length t = List.length operations.
Proof.
  revert w t. induction operations as [|op rest IH]; intros w t; simpl.
  - intros [= <- <-]. auto.
  - unfold bind. rewrite transaction_op_eq.
    destruct (assign_each drv input _ []) as [e|r1]; [discriminate|].
    destruct (assign_each drv output _ r1) as [e|r2]; [discriminate|].
    destruct (drv_run drv _ _ _ r2 (ext w)) as [[e|v] x1]; [discriminate|].
    simpl.
    match goal with
    | |- context [transaction_ops drv pool rest ?w0] =>
        destruct (transaction_ops drv pool rest w0) as [[[[]|e] w2] t2] eqn:Hrest
    end; [|discriminate].
    intros [= <- <-]. destruct (IH _ _ Hrest) as [Hc Hl]. simpl. now rewrite Hc, Hl.
Qed.

Lemma tx_commands_app t t' : tx_commands (t ++ t') = tx_commands t ++ tx_commands t'.
Proof. apply flat_map_app. Qed.

Lemma tx_commands_getPool_events t : Forall getPool_event t -> tx_commands t = [].
Proof.
  induction 1 as [|ev t Hev _ IH]; [reflexivity|].
  unfold tx_commands in *. simpl. rewrite IH.
  destruct ev; simpl in *; try reflexivity; contradiction.
Qed.

(** X10.  When the pool resolves and the begin, every operation and the
    commit succeed, [executeTransaction] succeeds; between the begin and the
    commit it runs one command for each operation, on the transaction, in
    the order of the list, and it calls no rollback. *)
Theorem executeTransaction_commits_in_order
        poolName operations w pool w1 t1 x2 w3 t3 x4 :
  getPool drv poolName None w = (Ok pool, w1, t1) ->
  drv_begin drv (pool_id pool) (ext w1) = (None, x2) ->
  transaction_ops drv pool operations (mkWorld (pools w1) (next_id w1) x2) = (Ok tt, w3, t3) ->
  drv_commit drv (pool_id pool) (ext w3) = (None, x4) ->
  let o := executeTransaction drv poolName operations w in
  result_of o = Ok tt
  /\ trace_of o = t1 ++ TxBegin (pool_id pool) :: t3
                     ++ [TxCommit (pool_id pool); Log LvInfo TransactionCommitted]
  /\ tx_commands (trace_of o) = map (fun op => (op_commandType op, op_command op)) operations
  /\ (forall id, ~ In (TxRollback id) (trace_of o)).
Proof.
  intros Hget Hbegin Hops Hcommit o. unfold o.
  rewrite (executeTransaction_commits drv poolName operations w pool w1 t1 x2 w3 t3 x4
             Hget Hbegin Hops Hcommit).
  unfold result_of, trace_of. simpl.
  pose proof (getPool_events poolName None w) as Hevs. rewrite Hget in Hevs.
  unfold trace_of in Hevs. simpl in Hevs. rewrite Forall_forall in Hevs.
  pose proof (transaction_ops_no_rollback pool operations _ _ _ Hops) as Hnr.
  destruct (transaction_ops_commands pool operations _ _ _ Hops) as [Hc _].
  split; [reflexivity|]. split; [reflexivity|]. split.
  - rewrite tx_commands_app, (tx_commands_getPool_events t1)
      by (apply Forall_forall; exact Hevs).
    change (TxBegin (pool_id pool) :: t3 ++ [TxCommit (pool_id pool);
                                             Log LvInfo TransactionCommitted])
      with ([TxBegin (pool_id pool)] ++ t3 ++ [TxCommit (pool_id pool);
                                              Log LvInfo TransactionCommitted]).
    rewrite !tx_commands_app, Hc. simpl. now rewrite app_nil_r.
  - intros id Hin. apply in_app_or in Hin as [Hin|[Hin|Hin]].
    + exact (Hevs _ Hin).
    + discriminate.
    + apply in_app_or in Hin as [Hin|[Hin|[Hin|[]]]];
        [exact (Hnr id Hin) | discriminate | discriminate].
Qed.

End ExecutorMore.


(** * More on the retry supervisor *)

Section RetryMore.
Context {Ext T : Type}.

Implicit Types (w : World Ext) (x : Ext) (operation : Operation (Ext := Ext) T) (e : Error).

(** X12.  For every value of [retries], negative ones included, an
    operation that fails on every call is called once and then once more
    for each retry that [retries] allows, and the call of [retryOperation]
    fails: with [retries <= 0] there is exactly one call. *)
Theorem retryOperation_attempts operation retries delay w :
  (forall x, exists e x', operation x = (inl e, x')) ->
  calls (trace_of (retryOperation operation retries delay w)) = S (Z.to_nat retries)
  /\ exists e, result_of (retryOperation operation retries delay w) = Err e.
Proof.
  intros Hfail. destruct (Z_le_gt_dec retries 0) as [Hle|Hgt].
  - destruct (Hfail (ext w)) as (e & x1 & Hop).
    rewrite (retryOperation_exhausted operation retries delay w e x1 Hop Hle).
    replace (Z.to_nat retries) with 0 by lia. split; [reflexivity | now exists e].
  - assert (E : retries = Z.of_nat (Z.to_nat retries)) by lia.
    revert E. generalize (Z.to_nat retries) as n. intros n ->.
    apply retryOperation_always_failing, Hfail.
Qed.

Lemma retryOperation_timeouts operation :
  (forall x, exists e x', operation x = (inl e, x')) ->
  forall n delay w,
    timeouts (trace_of (retryOperation operation (Z.of_nat n) delay w)) =
      map (fun k => (delay * 2 ^ Z.of_nat k)%Z) (seq 0 n).
Proof.
  intros Hfail. induction n as [|n IH]; intros delay w.
  - destruct (Hfail (ext w)) as (e & x1 & Hop).
    rewrite (retryOperation_exhausted operation _ delay w e x1 Hop) by lia. reflexivity.
  - destruct (Hfail (ext w)) as (e & x1 & Hop).
    rewrite (retryOperation_retry operation _ delay w e x1 Hop) by lia.
    replace (Z.of_nat (S n) - 1)%Z with (Z.of_nat n) by lia.
    specialize (IH (delay * 2)%Z (with_ext w x1)).
    destruct (retryOperation operation (Z.of_nat n) (delay * 2) (with_ext w x1))
      as [[r w2] t2].
    unfold trace_of, timeouts in *. simpl in *. rewrite IH.
    rewrite <- seq_shift, map_map. f_equal; [lia|].
    apply map_ext. intros k. rewrite Nat2Z.inj_succ, Z.pow_succ_r by lia. ring.
Qed.

(** X13.  The waits of [retryOperation] double: for an operation that
    fails on every call, the waits are [delay], [2 * delay], [4 * delay],
    ..., one before each retry, so that with [retries >= 0] they add up to
    [delay * (2 ^ retries - 1)]. *)
Theorem retryOperation_backoff_schedule operation retries delay w :
  (forall x, exists e x', operation x = (inl e, x')) ->
  (0 <= retries)%Z ->
  let waits := timeouts (trace_of (retryOperation operation retries delay w)) in
  waits = map (fun k => (delay * 2 ^ Z.of_nat k)%Z) (seq 0 (Z.to_nat retries))
  /\ fold_right Z.add 0%Z waits = (delay * (2 ^ retries - 1))%Z.
Proof.
  intros Hfail Hpos waits. unfold waits. clear waits.
  assert (E : retries = Z.of_nat (Z.to_nat retries)) by lia.
  revert E. generalize (Z.to_nat retries) as n. intros n ->.
  rewrite (retryOperation_timeouts operation Hfail).
  split; [reflexivity|].
  clear. revert delay.
  induction n as [|n IH]; intros delay; [simpl; ring|].
  cbn [seq map fold_right]. change (Z.of_nat 0) with 0%Z. rewrite Z.pow_0_r.
  rewrite <- seq_shift, map_map.
  rewrite (map_ext _ (fun k => (delay * 2 * 2 ^ Z.of_nat k)%Z))
    by (intros k; rewrite Nat2Z.inj_succ, Z.pow_succ_r by lia; ring).
  rewrite IH, Nat2Z.inj_succ, Z.pow_succ_r by lia. ring.
Qed.

End RetryMore.


(** * The routes *)

(** ** Numbers *)

Section Numbers.
Local Open Scope Z_scope.

Lemma round53_exact z : Z.abs z <= 2 ^ 53 -> round53 z = z.
Proof.
  intros Hz. unfold round53. destruct (Z.ltb_spec (Z.abs z) (2 ^ 53)) as [_|Hge]; [reflexivity|].
  assert (z = 2 ^ 53 \/ z = - 2 ^ 53) as [-> | ->] by lia; reflexivity.
Qed.

Lemma safe_below_overflow z : Z.abs z <= 2 ^ 53 -> Z.leb (2 ^ 1024) (Z.abs z) = false.
Proof.
  intros Hz. apply Z.leb_gt. apply Z.le_lt_trans with (2 ^ 53); [exact Hz|].
  apply Z.pow_lt_mono_r; lia.
Qed.

Lemma number_of_Z_exact z : Z.abs z <= 2 ^ 53 -> number_of_Z z = Finite z.
Proof.
  intros Hz. unfold number_of_Z. rewrite (round53_exact z Hz).
  cbv zeta. now rewrite (safe_below_overflow z Hz).
Qed.

Lemma number_add_exact a b :
  Z.abs (a + b) <= 2 ^ 53 -> number_add (Finite a) (Finite b) = Finite (a + b).
Proof. intros H. unfold number_add. now apply number_of_Z_exact. Qed.

Lemma number_mul_exact a b :
  Z.abs (a * b) <= 2 ^ 53 -> number_mul (Finite a) (Finite b) = Finite (a * b).
Proof. intros H. unfold number_mul. now apply number_of_Z_exact. Qed.

Lemma minus_exact n k : Z.abs (n - k) <= 2 ^ 53 -> minus n k = n - k.
Proof. apply round53_exact. Qed.

End Numbers.

(** ** [/process] *)

Section Process.
Local Open Scope Z_scope.

Lemma weight_bound_cons c d : weight_bound (c :: d) = 3 * Z.abs c + weight_bound d.
Proof. reflexivity. Qed.

Lemma weight_bound_nonneg d : 0 <= weight_bound d.
Proof. induction d as [|c d IH]; [reflexivity|]. rewrite weight_bound_cons. lia. Qed.

Lemma weight_bound_app d1 d2 : weight_bound (d1 ++ d2) = weight_bound d1 + weight_bound d2.
Proof.
  induction d1 as [|c d1 IH]; [reflexivity|].
  cbn [app]. rewrite !weight_bound_cons. lia.
Qed.

Lemma weight_bound_perm d d' : Permutation d d' -> weight_bound d = weight_bound d'.
Proof. induction 1; rewrite ?weight_bound_cons; lia. Qed.

Lemma exact_weight_bound cur : Z.abs (exact_weight cur) <= 3 * Z.abs cur.
Proof. unfold exact_weight. destruct (Z.even cur); lia. Qed.

Lemma process_weight_exact cur :
  3 * Z.abs cur <= 2 ^ 53 -> process_weight cur = Finite (exact_weight cur).
Proof.
  intros Hc. unfold process_weight, exact_weight.
  destruct (Z.eqb_spec (Z.rem cur 2) 0) as [H|H].
  - apply Z.rem_mod_eq_0 in H; [|lia]. rewrite Zmod_even in H.
    destruct (Z.even cur); [|lia].
    rewrite number_mul_exact by lia. f_equal. lia.
  - assert (H' : cur mod 2 <> 0) by (intros E; apply H, Z.rem_mod_eq_0; lia).
    rewrite Zmod_even in H'. destruct (Z.even cur); [lia|].
    rewrite number_mul_exact by lia. f_equal. lia.
Qed.

(** As long as no partial sum leaves the integers that are doubles, the
    sum of the code is the exact sum of the weights. *)
Lemma process_fold_exact d r :
  Z.abs r + weight_bound d <= 2 ^ 53 ->
  fold_left (fun acc cur => number_add acc (process_weight cur)) d (Finite r) =
    Finite (r + fold_right Z.add 0 (map exact_weight d)).
Proof.
  revert r. induction d as [|c d IH]; intros r Hb.
  - cbn [fold_left map fold_right]. f_equal. lia.
  - rewrite weight_bound_cons in Hb. cbn [fold_left map fold_right].
    pose proof (weight_bound_nonneg d) as Hd. pose proof (exact_weight_bound c) as Hc.
    rewrite process_weight_exact by lia.
    rewrite number_add_exact by lia.
    rewrite IH by lia. f_equal. lia.
Qed.

Lemma process_reduce_exact d :
  weight_bound d <= 2 ^ 53 ->
  process_reduce d = Finite (fold_right Z.add 0 (map exact_weight d)).
Proof.
  intros Hb. unfold process_reduce.
  rewrite process_fold_exact by (change (Z.abs 0) with 0; lia). reflexivity.
Qed.

Lemma exact_weights_bound d : Z.abs (fold_right Z.add 0 (map exact_weight d)) <= weight_bound d.
Proof.
  induction d as [|c d IH]; [reflexivity|].
  rewrite weight_bound_cons. cbn [map fold_right]. pose proof (exact_weight_bound c). lia.
Qed.

(** X16.  As long as three times the magnitudes of the entries add up to
    2^53 at most, so that no product and no partial sum is rounded, the sum
    that [/process] answers is twice the even entries plus three times the
    odd ones, negative entries included; it is then the sum of the answers
    for the parts of the array, and it does not depend on the order of the
    entries.  Beyond that bound the answer is rounded, [3 * (2^53 - 1)]
    already, and depends on the order. *)
Theorem process_reduce_weights d :
  weight_bound d <= 2 ^ 53 ->
  process_reduce d =
    Finite (2 * fold_right Z.add 0 (filter Z.even d) + 3 * fold_right Z.add 0 (filter Z.odd d))
  /\ (forall d1 d2, d = d1 ++ d2 ->
        process_reduce d = number_add (process_reduce d1) (process_reduce d2))
  /\ (forall d', Permutation d d' -> process_reduce d' = process_reduce d)
  /\ process_reduce [2 ^ 53 - 1] = Finite (3 * (2 ^ 53 - 1) - 1)
  /\ process_reduce [2 ^ 53; 1; - 2 ^ 53] = Finite 4
  /\ process_reduce [2 ^ 53; - 2 ^ 53; 1] = Finite 3.
Proof.
  intros Hb. split; [|split; [|split; [|repeat split; vm_compute; reflexivity]]].
  - rewrite process_reduce_exact by exact Hb. f_equal. clear Hb.
    induction d as [|c d IH]; [reflexivity|].
    cbn [fold_right filter map]. rewrite IH. unfold exact_weight.
    rewrite <- Z.negb_even. destruct (Z.even c); cbn [fold_right negb]; lia.
  - intros d1 d2 ->. rewrite weight_bound_app in Hb.
    pose proof (weight_bound_nonneg d1) as H1. pose proof (weight_bound_nonneg d2) as H2.
    pose proof (exact_weights_bound d1) as E1. pose proof (exact_weights_bound d2) as E2.
    rewrite (process_reduce_exact (d1 ++ d2)) by (rewrite weight_bound_app; lia).
    rewrite (process_reduce_exact d1), (process_reduce_exact d2) by lia.
    rewrite number_add_exact by lia. f_equal. rewrite map_app.
    clear. induction d1 as [|c d1 IH]; cbn [fold_right map app]; lia.
  - intros d' Hperm. rewrite (process_reduce_exact d Hb).
    rewrite (process_reduce_exact d')
      by (rewrite <- (weight_bound_perm d d' Hperm); exact Hb).
    f_equal. clear Hb. induction Hperm; cbn [fold_right map]; lia.
Qed.

Lemma skipn_nth (l : list Z) (i : nat) :
  (i < List.length l)%nat -> skipn i l = nth i l 0 :: skipn (S i) l.
Proof.
  revert i. induction l as [|c l IH]; intros i Hi; simpl in Hi; [lia|].
  destruct i as [|i]; [reflexivity|]. simpl. apply IH. lia.
Qed.

Lemma process_loop_skipn d steps i r :
  (steps + i = List.length d)%nat ->
  process_loop d steps i r =
    fold_left (fun acc cur => number_add acc (process_weight cur)) (skipn i d) r.
Proof.
  revert i r. induction steps as [|k IH]; intros i r Hlen; simpl.
  - rewrite skipn_all2 by lia. reflexivity.
  - rewrite IH by lia. rewrite (skipn_nth d i) by lia. reflexivity.
Qed.

(** X17.  On an array of integers the loop of the first version of
    [/process] and the [reduce] of the rewritten route compute the same
    sum. *)
Theorem process_versions_agree d : process_first_version d = process_reduce d.
Proof.
  unfold process_first_version, process_reduce.
  rewrite process_loop_skipn by lia. reflexivity.
Qed.

(** The check of the rewritten route accepts an array exactly when all its
    entries are integers. *)
Lemma integers_all items ns :
  integers items = Some ns <-> items = map VNum ns.
Proof.
  revert ns. induction items as [|v items IH]; intros ns; simpl.
  - split; [intros [= <-]; reflexivity | destruct ns; [reflexivity|discriminate]].
  - destruct v; try (split; [discriminate | destruct ns; discriminate]).
    destruct (integers items) as [ns'|] eqn:E.
    + split.
      * intros [= <-]. simpl. f_equal. now apply IH.
      * destruct ns as [|m ns]; [discriminate|]. intros [= -> H]. apply IH in H.
        now injection H as ->.
    + split; [discriminate|]. destruct ns as [|m ns]; [discriminate|].
      intros [= -> H]. apply IH in H. discriminate.
Qed.

End Process.


(** * The Fibonacci functions *)

Section Fibonacci.
Local Open Scope Z_scope.

Lemma F_0 : F 0 = 0.
Proof. reflexivity. Qed.

Lemma F_1 : F 1 = 1.
Proof. reflexivity. Qed.

Lemma F_rec (n : nat) : F (S (S n)) = F (S n) + F n.
Proof.
  unfold F. simpl. destruct (fibonacci_pair n) as [a b]. simpl. lia.
Qed.

Lemma F_nonneg (n : nat) : 0 <= F n /\ 0 <= F (S n).
Proof.
  induction n as [|n [IH1 IH2]]; [rewrite F_0, F_1; lia|].
  split; [exact IH2|]. rewrite F_rec. lia.
Qed.

Lemma F_mono (n m : nat) : (1 <= n <= m)%nat -> F n <= F m.
Proof.
  intros [H1 H2]. induction H2 as [|m H2 IH]; [lia|].
  destruct m as [|m]; [lia|]. rewrite F_rec. pose proof (F_nonneg m). lia.
Qed.

(** Up to [n = 78] a Fibonacci number is below 2^53, hence a double. *)
Lemma F_safe (n : nat) : (n <= 78)%nat -> 0 <= F n < 2 ^ 53.
Proof.
  intros Hn. split; [apply F_nonneg|].
  destruct n as [|n]; [reflexivity|].
  apply Z.le_lt_trans with (F 78); [apply F_mono; lia | reflexivity].
Qed.

Lemma F_sum (n : nat) :
  (n <= 76)%nat -> number_add (Finite (F (S n))) (Finite (F n)) = Finite (F (S (S n))).
Proof.
  intros Hn. pose proof (F_safe (S (S n)) ltac:(lia)) as Hs. rewrite F_rec in *.
  apply number_add_exact. lia.
Qed.

(** *** The array of [/fibonacci-1] *)

Lemma F_prefix_length k : List.length (F_prefix k) = k.
Proof. unfold F_prefix. now rewrite length_map, length_seq. Qed.

Lemma F_prefix_get k j : (j < k)%nat -> array_get (F_prefix k) j = Some (Finite (F j)).
Proof.
  intros Hj. unfold array_get, F_prefix.
  rewrite nth_error_map, nth_error_seq.
  destruct (Nat.ltb_spec j k); [reflexivity | lia].
Qed.

Lemma F_prefix_S k : F_prefix (S k) = F_prefix k ++ [Some (Finite (F k))].
Proof. unfold F_prefix. rewrite seq_S, map_app. reflexivity. Qed.

Lemma fib_loop_prefix n fuel i :
  (n <= 78)%nat -> (2 <= i)%nat -> (n + 1 <= i + fuel)%nat ->
  fib_loop n fuel i (F_prefix i) = F_prefix (Nat.max i (n + 1)).
Proof.
  intros Hn. revert i. induction fuel as [|k IH]; intros i Hi Hfuel; simpl.
  - replace (Nat.max i (n + 1)) with i by lia. reflexivity.
  - destruct (Nat.leb_spec i n) as [Hle|Hgt].
    + unfold array_set. rewrite F_prefix_length, Nat.ltb_irrefl, Nat.sub_diag. simpl.
      rewrite !F_prefix_get by lia. cbn [array_add].
      replace (number_add (Finite (F (i - 1))) (Finite (F (i - 2)))) with (Finite (F i)).
      * rewrite <- F_prefix_S, IH by lia. f_equal. lia.
      * destruct i as [|[|i]]; try lia. rewrite <- F_sum by lia. simpl.
        now rewrite Nat.sub_0_r.
    + replace (Nat.max i (n + 1)) with i by lia. reflexivity.
Qed.

Lemma fibonacci_1_F (n : nat) : (n <= 78)%nat -> fibonacci_1 n = Some (Finite (F n)).
Proof.
  intros Hn. unfold fibonacci_1, fib_array.
  change [Some (Finite 0); Some (Finite 1)] with (F_prefix 2).
  rewrite fib_loop_prefix by lia. apply F_prefix_get. lia.
Qed.

(** X18.  Up to [n = 78] the array that [/fibonacci-1] (and the first
    version's [/fibonacci]) fills holds the Fibonacci numbers [F 0 .. F n],
    [0] and [1] at least, and the answer [fib[n]] is the Fibonacci number of
    [n], which is below 2^53.  From 79 on the sums are rounded: the answer
    for 79 is one less than the Fibonacci number, and the answer for 1477
    is [Infinity]. *)
Theorem fibonacci_1_correct (n : nat) :
  (n <= 78)%nat ->
  fib_array n = F_prefix (Nat.max 2 (n + 1))
  /\ fibonacci_1 n = Some (Finite (F n))
  /\ 0 <= F n < 2 ^ 53
  /\ fibonacci_1 79 = Some (Finite (F 79 - 1))
  /\ fibonacci_1 1477 = Some (Infinity false).
Proof.
  intros Hn. split; [|split; [now apply fibonacci_1_F|split; [now apply F_safe|]]].
  - unfold fib_array. change [Some (Finite 0); Some (Finite 1)] with (F_prefix 2).
    apply fib_loop_prefix; lia.
  - split; vm_compute; reflexivity.
Qed.

(** *** [fibMatrix] *)

Lemma exact_product_assoc a b c :
  exact_product (exact_product a b) c = exact_product a (exact_product b c).
Proof.
  destruct a, b, c. unfold exact_product. cbn [m00 m01 m10 m11]. f_equal; ring.
Qed.

Lemma exact_product_1_l a : exact_product (mkMat2 1 0 0 1) a = a.
Proof. destruct a. unfold exact_product. cbn [m00 m01 m10 m11]. f_equal; ring. Qed.

Lemma exact_product_1_r a : exact_product a (mkMat2 1 0 0 1) = a.
Proof. destruct a. unfold exact_product. cbn [m00 m01 m10 m11]. f_equal; ring. Qed.

Lemma mat_pow_1 m : mat_pow m 1 = m.
Proof. apply exact_product_1_r. Qed.

Lemma mat_pow_add m (a b : nat) :
  mat_pow m (a + b) = exact_product (mat_pow m a) (mat_pow m b).
Proof.
  induction a as [|a IH]; simpl; [now rewrite exact_product_1_l|].
  now rewrite IH, exact_product_assoc.
Qed.

(** The product of the code is the exact product as long as the entries
    are not negative and the entries of the product are doubles. *)
Lemma multiplyMatrices_exact a b :
  mat_safe a -> mat_safe b -> mat_safe (exact_product a b) ->
  multiplyMatrices (numbers a) (numbers b) = numbers (exact_product a b).
Proof.
  destruct a as [a0 a1 a2 a3], b as [b0 b1 b2 b3].
  unfold mat_safe, multiplyMatrices, numbers, exact_product. cbn [m00 m01 m10 m11].
  intros Ha Hb Hab.
  assert (Hentry : forall x y x' y',
            0 <= x -> 0 <= y -> 0 <= x' -> 0 <= y' -> x * y + x' * y' <= 2 ^ 53 ->
            number_add (number_add (Finite 0) (number_mul (Finite x) (Finite y)))
                       (number_mul (Finite x') (Finite y'))
            = Finite (x * y + x' * y')).
  { intros x y x' y' Hx Hy Hx' Hy' Hsum.
    pose proof (Z.mul_nonneg_nonneg x y Hx Hy).
    pose proof (Z.mul_nonneg_nonneg x' y' Hx' Hy').
    rewrite !number_mul_exact by lia.
    rewrite number_add_exact by lia. rewrite number_add_exact by lia.
    f_equal. }
  rewrite !Hentry by lia. reflexivity.
Qed.

(** The loop of [matrixPower]: [result] holds a power of the matrix and
    [base] one of its repeated squares, as long as the squares are needed;
    the last square, which the code computes and does not use, may be
    rounded. *)
Lemma matrixPower_loop_exact (base0 : Mat2 Z) (N : nat) :
  (forall k, (k <= N)%nat -> mat_safe (mat_pow base0 k)) ->
  forall (m : nat) result base exponent (r b : nat),
    Z.to_nat exponent = m -> 0 <= exponent ->
    (r + b * m = N)%nat ->
    result = numbers (mat_pow base0 r) ->
    (0 < exponent -> base = numbers (mat_pow base0 b)) ->
    matrixPower_loop result base exponent = numbers (mat_pow base0 N).
Proof.
  intros Hsafe m. induction m as [m IH] using lt_wf_ind.
  intros result base exponent r b Hm Hexp HN Hresult Hbase.
  rewrite matrixPower_loop_equation_1.
  destruct (Z_gt_dec exponent 0) as [Hpos|Hzero].
  - rewrite matrixPower_loop_clause_1_equation_1.
    specialize (Hbase ltac:(lia)). subst result base.
    assert (Hm1 : (1 <= m)%nat) by lia.
    assert (Hb : (b <= N)%nat) by nia.
    pose proof (Z.quot_rem' exponent 2) as Hqr.
    rewrite Z.quot_div_nonneg in Hqr by lia.
    pose proof (Z.rem_bound_pos exponent 2 ltac:(lia) ltac:(lia)) as Hrem.
    assert (Hdiv : (Z.to_nat (exponent / 2) < m)%nat).
    { subst m. apply Z2Nat.inj_lt; [apply Z.div_pos; lia | lia | apply Z.div_lt; lia]. }
    assert (Hhalf : 0 <= exponent / 2) by (apply Z.div_pos; lia).
    assert (Hsquare : 0 < exponent / 2 ->
              multiplyMatrices (numbers (mat_pow base0 b)) (numbers (mat_pow base0 b))
              = numbers (mat_pow base0 (b + b))).
    { intros H2. assert (Hbb : (b + b <= N)%nat) by nia.
      rewrite multiplyMatrices_exact; [now rewrite <- mat_pow_add| | |];
        rewrite <- ?mat_pow_add; apply Hsafe; lia. }
    destruct (Z.eqb_spec (Z.rem exponent 2) 1) as [Hodd|Heven].
    + assert (Hrb : (r + b <= N)%nat) by nia.
      apply (IH _ Hdiv _ _ _ (r + b)%nat (b + b)%nat eq_refl Hhalf).
      * nia.
      * rewrite multiplyMatrices_exact; [now rewrite <- mat_pow_add| | |];
          rewrite <- ?mat_pow_add; apply Hsafe; lia.
      * exact Hsquare.
    + apply (IH _ Hdiv _ _ _ r (b + b)%nat eq_refl Hhalf).
      * nia.
      * reflexivity.
      * exact Hsquare.
  - rewrite matrixPower_loop_clause_1_equation_2.
    subst result. f_equal. f_equal. nia.
Qed.

Lemma matrixPower_exact (base : Mat2 Z) (n : Z) :
  0 <= n ->
  (forall k, (k <= Z.to_nat n)%nat -> mat_safe (mat_pow base k)) ->
  matrixPower (numbers base) n = numbers (mat_pow base (Z.to_nat n)).
Proof.
  intros Hn Hsafe. unfold matrixPower.
  apply (matrixPower_loop_exact base (Z.to_nat n) Hsafe (Z.to_nat n) _ _ n 0%nat 1%nat);
    [reflexivity | exact Hn | lia | reflexivity |].
  intros _. now rewrite mat_pow_1.
Qed.

Lemma fibonacci_matrix_pow (n : nat) :
  mat_pow (mkMat2 1 1 1 0) (S n) = mkMat2 (F (S (S n))) (F (S n)) (F (S n)) (F n).
Proof.
  induction n as [|n IH]; [reflexivity|].
  change (mat_pow (mkMat2 1 1 1 0) (S (S n)))
    with (exact_product (mkMat2 1 1 1 0) (mat_pow (mkMat2 1 1 1 0) (S n))).
  rewrite IH. unfold exact_product. cbn [m00 m01 m10 m11].
  rewrite (F_rec (S n)), (F_rec n). f_equal; ring.
Qed.

Lemma fibonacci_matrix_safe (k : nat) : (k <= 77)%nat -> mat_safe (mat_pow (mkMat2 1 1 1 0) k).
Proof.
  intros Hk. destruct k as [|k].
  - unfold mat_safe. simpl. lia.
  - rewrite fibonacci_matrix_pow. unfold mat_safe. cbn [m00 m01 m10 m11].
    pose proof (F_safe (S (S k)) ltac:(lia)). pose proof (F_safe (S k) ltac:(lia)).
    pose proof (F_safe k ltac:(lia)). lia.
Qed.

Lemma fibMatrix_F (n : Z) : 0 <= n <= 78 -> fibMatrix n = Finite (F (Z.to_nat n)).
Proof.
  intros Hn. unfold fibMatrix. destruct (Z.leb_spec n 1) as [Hle|Hgt].
  - assert (n = 0 \/ n = 1) as [-> | ->] by lia; reflexivity.
  - rewrite minus_exact by lia.
    change (mkMat2 (Finite 1) (Finite 1) (Finite 1) (Finite 0))
      with (numbers (mkMat2 1 1 1 0)).
    rewrite matrixPower_exact; [|lia|intros k Hk; apply fibonacci_matrix_safe; lia].
    replace (Z.to_nat (n - 1)) with (S (Z.to_nat n - 2)) by lia.
    rewrite fibonacci_matrix_pow. cbn [numbers m00]. do 2 f_equal. lia.
Qed.

(** X19.  [matrixPower] computes the power of its base by repeated
    squaring, for every matrix of integers that are not negative and every
    exponent that is not negative, as long as the entries of the powers up
    to that exponent are 2^53 at most.  So [fibMatrix] answers the
    Fibonacci number of [n] up to [n = 78]; a negative [n] is answered by
    itself.  From 79 on the products are rounded: the answer for 79 is one
    less than the Fibonacci number, and the answer for 2049, where the
    squares have grown to [Infinity] before the first product with the
    result, is [NaN]. *)
Theorem fibMatrix_correct :
  (forall (base : Mat2 Z) (n : Z),
     0 <= n ->
     (forall k, (k <= Z.to_nat n)%nat -> mat_safe (mat_pow base k)) ->
     matrixPower (numbers base) n = numbers (mat_pow base (Z.to_nat n)))
  /\ (forall n, 0 <= n <= 78 -> fibMatrix n = Finite (F (Z.to_nat n)))
  /\ (forall n, n < 0 -> fibMatrix n = Finite n)
  /\ fibMatrix 79 = Finite (F 79 - 1)
  /\ fibMatrix 2049 = NaN.
Proof.
  split; [exact matrixPower_exact|]. split; [exact fibMatrix_F|]. split.
  - intros n Hn. unfold fibMatrix. destruct (Z.leb_spec n 1); [reflexivity | lia].
  - split; vm_compute; reflexivity.
Qed.

(** *** [fibMemo] and [fibHybridMemo] *)

Lemma memo_get_set_same n v memo : memo_get n (memo_set n v memo) = Some v.
Proof.
  induction memo as [|[k v'] memo IH]; simpl.
  - now rewrite Z.eqb_refl.
  - destruct (Z.eqb_spec k n); simpl; [now rewrite Z.eqb_refl|].
    destruct (Z.eqb_spec k n); [contradiction | exact IH].
Qed.

Lemma memo_get_set_other n k v memo :
  k <> n -> memo_get k (memo_set n v memo) = memo_get k memo.
Proof.
  intros Hne. induction memo as [|[k' v'] memo IH]; simpl.
  - destruct (Z.eqb_spec n k); [congruence | reflexivity].
  - destruct (Z.eqb_spec k' n); simpl.
    + subst. destruct (Z.eqb_spec n k); [congruence | reflexivity].
    + now rewrite IH.
Qed.

Lemma memo_ok_set n memo :
  memo_ok memo -> memo_ok (memo_set n (Finite (F (Z.to_nat n))) memo).
Proof.
  intros Hok k v Hget Hk. destruct (Z.eq_dec k n) as [->|Hne].
  - rewrite memo_get_set_same in Hget. now injection Hget as <-.
  - rewrite memo_get_set_other in Hget by exact Hne. exact (Hok k v Hget Hk).
Qed.


Lemma fibMemo_spec (stack : nat) :
  forall n memo,
    1 <= n <= 78 -> (Z.to_nat n <= stack)%nat -> memo_ok memo ->
    exists memo',
      fibMemo stack n memo = (Some (Finite (F (Z.to_nat n))), memo')
      /\ memo_ok memo'
      /\ (forall k v, memo_get k memo = Some v -> memo_get k memo' = Some v)
      /\ (3 <= n -> memo_get n memo' = Some (Finite (F (Z.to_nat n)))).
Proof.
  induction stack as [|deeper IH]; intros n memo Hn Hstack Hok; [lia|].
  cbn [fibMemo].
  destruct (memo_get n memo) as [v|] eqn:Hget.
  - pose proof (Hok n v Hget ltac:(lia)) as ->. exists memo. auto.
  - destruct (Z.leb_spec n 2) as [Hle|Hgt].
    + exists memo. assert (n = 1 \/ n = 2) as [-> | ->] by lia;
        (split; [reflexivity|]; split; [exact Hok|]; split; [auto|lia]).
    + rewrite !minus_exact by lia.
      destruct (IH (n - 1) memo ltac:(lia) ltac:(lia) Hok) as (memo1 & -> & Hok1 & Hkeep1 & _).
      destruct (IH (n - 2) memo1 ltac:(lia) ltac:(lia) Hok1) as (memo2 & -> & Hok2 & Hkeep2 & _).
      assert (Hsum : number_add (Finite (F (Z.to_nat (n - 1)))) (Finite (F (Z.to_nat (n - 2))))
                     = Finite (F (Z.to_nat n))).
      { replace (Z.to_nat n) with (S (S (Z.to_nat (n - 2)))) by lia.
        replace (Z.to_nat (n - 1)) with (S (Z.to_nat (n - 2))) by lia.
        apply F_sum. lia. }
      rewrite Hsum. eexists. split; [reflexivity|].
      split; [now apply memo_ok_set|]. split.
      * intros k v Hk. rewrite memo_get_set_other; [auto|]. intros ->. congruence.
      * intros _. apply memo_get_set_same.
Qed.

(** On a fresh memo a call that needs more nested calls than the stack
    admits throws, and the memo is still empty. *)
Lemma fibMemo_overflow (stack : nat) :
  forall n, Z.of_nat stack + 2 < n <= 2 ^ 53 -> fibMemo stack n [] = (None, []).
Proof.
  induction stack as [|deeper IH]; intros n Hn; cbn [fibMemo memo_get].
  - destruct (Z.leb_spec n 2); [lia | reflexivity].
  - destruct (Z.leb_spec n 2); [lia|].
    rewrite minus_exact by lia. rewrite IH by lia. reflexivity.
Qed.

(** X20.  For [n] from 1 to 78, on a memo whose entries up to 78 are
    Fibonacci numbers and with a call stack that admits [n] nested calls,
    [fibMemo] answers the Fibonacci number of [n]; the memo it leaves is
    of the same kind and has lost no entry; for [n >= 3] it holds [n], so
    that asking again reads the answer from the memo, needs no stack and
    leaves the memo as it is.  Beyond that: on a fresh memo, an [n] that
    needs more nested calls than the stack admits makes the call throw and
    stores nothing, and the answer for 79 is one less than the Fibonacci
    number. *)
Theorem fibMemo_correct (stack : nat) (n : Z) (memo : Memo) :
  1 <= n <= 78 ->
  (Z.to_nat n <= stack)%nat ->
  memo_ok memo ->
  let answer := fibMemo stack n memo in
  fst answer = Some (Finite (F (Z.to_nat n)))
  /\ memo_ok (snd answer)
  /\ (forall k v, memo_get k memo = Some v -> memo_get k (snd answer) = Some v)
  /\ (3 <= n -> memo_get n (snd answer) = Some (Finite (F (Z.to_nat n))))
  /\ (3 <= n ->
      forall stack', fibMemo stack' n (snd answer) = (Some (Finite (F (Z.to_nat n))), snd answer))
  /\ (forall stack' n', Z.of_nat stack' + 2 < n' <= 2 ^ 53 -> fibMemo stack' n' [] = (None, []))
  /\ fst (fibMemo 77 79 []) = Some (Finite (F 79 - 1)).
Proof.
  intros Hn Hstack Hok answer.
  destruct (fibMemo_spec stack n memo Hn Hstack Hok) as (memo' & Heq & Hok' & Hkeep & Hstored).
  unfold answer. rewrite Heq. cbn [fst snd].
  split; [reflexivity|]. split; [exact Hok'|]. split; [exact Hkeep|]. split; [exact Hstored|].
  split.
  { intros H3 stack'. destruct stack'; cbn [fibMemo]; now rewrite (Hstored H3). }
  split; [intros stack' n'; apply fibMemo_overflow|].
  vm_compute. reflexivity.
Qed.

Section HybridFacts.
Variable binet : Z -> JsNumber.

(** X21.  The answer for 0 depends on which route was asked before.  On a
    memo without an entry for 0, [fibMemo 0] answers 1, although the
    Fibonacci number of 0 is 0 and [/fibonacci-1] answers 0, and it stores
    nothing; [fibHybridMemo 0] answers 0 and stores it in the shared memo,
    after which [fibMemo 0] answers 0 as well.  The call stack plays no
    part in it. *)
Theorem fibMemo_zero_depends_on_history (stack : nat) (memo : Memo) :
  memo_get 0 memo = None ->
  fibMemo stack 0 memo = (Some (Finite 1), memo)
  /\ fibonacci_1 0 = Some (Finite 0)
  /\ fibHybridMemo binet 0 memo = (Finite 0, memo_set 0 (Finite 0) memo)
  /\ fibMemo stack 0 (snd (fibHybridMemo binet 0 memo))
     = (Some (Finite 0), memo_set 0 (Finite 0) memo).
Proof.
  intros Hget. split; [|split; [reflexivity|split]].
  - destruct stack; cbn [fibMemo]; now rewrite Hget.
  - unfold fibHybridMemo. rewrite Hget. reflexivity.
  - unfold fibHybridMemo. rewrite Hget. cbn [snd].
    change (fibHybrid binet 0) with (Finite 0).
    destruct stack; cbn [fibMemo]; now rewrite memo_get_set_same.
Qed.


End HybridFacts.

End Fibonacci.


(** * [/process_data] and the cleaning of the search term *)

Section ProcessDataFacts.
Variable toUpperCase : string -> string.

(** X24.  [/process_data] refuses a data that is falsy, the number 0 and
    the empty string among them, with [Missing data or operations], whatever
    the operations; it looks at the data only once, before the operations:
    with no operation a truthy data is answered as it is, and a result that
    is falsy is answered, as when a number is incremented down to 0. *)
Theorem process_data_truthiness data operations n :
  (data_truthy data = false ->
   process_data toUpperCase data operations = (400, Text "Missing data or operations"))
  /\ process_data toUpperCase (DValue (VNum 0)) operations
     = (400, Text "Missing data or operations")
  /\ process_data toUpperCase (DValue (VStr "")) operations
     = (400, Text "Missing data or operations")
  /\ (data_truthy data = true ->
      process_data toUpperCase data (Some []) = (200, JsonData "data" data))
  /\ (n <> 0%Z ->
      process_data toUpperCase (DValue (VNum n)) (Some [mkDataOp "increment" (- n)])
      = (200, JsonData "data" (DValue (VNum 0)))).
Proof.
  unfold process_data. repeat split.
  - intros ->. now destruct operations.
  - now destruct operations.
  - now destruct operations.
  - intros ->. reflexivity.
  - intros Hn. cbn [data_truthy]. destruct (Z.eqb_spec n 0) as [|_]; [contradiction|].
    cbn [negb apply_operations apply_operation dop_type dop_value String.eqb Ascii.eqb
         Bool.eqb is_number value_number add_to].
    rewrite number_add_exact by (rewrite Z.add_opp_diag_r; cbn; lia).
    now rewrite Z.add_opp_diag_r.
Qed.

Local Open Scope Z_scope.

Lemma string_reverse_involutive s : string_reverse (string_reverse s) = s.
Proof.
  unfold string_reverse.
  now rewrite list_ascii_of_string_of_list_ascii, rev_involutive,
    string_of_list_ascii_of_string.
Qed.

Lemma is_number_add value v : is_number (add_to value v) = is_number v.
Proof.
  unfold is_number, add_to. destruct (value_number v) as [x|] eqn:Hv.
  - now destruct (number_add x (Finite value)).
  - now rewrite Hv.
Qed.

Lemma forallb_is_number_add value items :
  forallb is_number (map (add_to value) items) = forallb is_number items.
Proof.
  induction items as [|v items IH]; [reflexivity|]. simpl. now rewrite IH, is_number_add.
Qed.

(** Two increments of a value are one increment by the sum when no sum is
    rounded. *)
Lemma add_to_twice a b v :
  increments_exact a b v -> add_to b (add_to a v) = add_to (a + b) v.
Proof.
  unfold add_to. destruct v as [| | |n| | | |]; try reflexivity.
  cbn [increments_exact value_number]. intros Hb.
  rewrite (number_add_exact n a) by lia. cbn [number_value value_number].
  rewrite (number_add_exact (n + a) b) by lia.
  rewrite (number_add_exact n (a + b)) by lia. now rewrite Z.add_assoc.
Qed.

(** X25.  Operations of [/process_data] compose: on a string or an array
    two [reverse] in a row change nothing; and two [increment] in a row do
    what one [increment] by the sum does, refusals included, as long as for
    every finite number of the data the magnitudes of the number and of the
    two operands add up to 2^53 at most.  Beyond that bound they need not:
    10^16 incremented by 1 twice is 10^16, and incremented by 2 it is
    10^16 + 2. *)
Theorem process_data_operations_compose data rest v1 v2 a b :
  ((exists s, data = DValue (VStr s)) \/ (exists items, data = DArray items) ->
   apply_operations toUpperCase
     (mkDataOp "reverse" v1 :: mkDataOp "reverse" v2 :: rest) data
   = apply_operations toUpperCase rest data)
  /\ (match data with
      | DValue v => increments_exact a b v
      | DArray items => Forall (increments_exact a b) items
      end ->
      apply_operations toUpperCase
        (mkDataOp "increment" a :: mkDataOp "increment" b :: rest) data
      = apply_operations toUpperCase (mkDataOp "increment" (a + b) :: rest) data)
  /\ apply_operations toUpperCase [mkDataOp "increment" 1; mkDataOp "increment" 1]
       (DValue (VNum (10 ^ 16)))
     = inl (DValue (VNum (10 ^ 16)))
  /\ apply_operations toUpperCase [mkDataOp "increment" 2] (DValue (VNum (10 ^ 16)))
     = inl (DValue (VNum (10 ^ 16 + 2))).
Proof.
  split; [|split; [|split; reflexivity]].
  - intros [[s ->] | [items ->]]; cbn.
    + now rewrite string_reverse_involutive.
    + now rewrite rev_involutive.
  - intros Hexact.
    cbn [apply_operations apply_operation dop_type dop_value String.eqb Ascii.eqb Bool.eqb].
    destruct data as [v|items].
    + destruct (is_number v) eqn:Hnum; [|reflexivity].
      rewrite is_number_add, Hnum. now rewrite add_to_twice.
    + destruct (forallb is_number items) eqn:Hnum; [|reflexivity].
      rewrite forallb_is_number_add, Hnum, map_map.
      do 2 f_equal. apply map_ext_in. intros v Hin.
      rewrite Forall_forall in Hexact. now apply add_to_twice, Hexact.
Qed.

Variable null_type_error primitive_type_error : Error.

(** On operations whose type is a string the rewritten route on any
    elements is the route on operations. *)
Lemma process_data_body_typed data operations :
  process_data_body toUpperCase null_type_error data
    (option_map (map (fun op => OpObject (TypeString (dop_type op)) (dop_value op)))
       operations)
  = process_data toUpperCase data operations.
Proof.
  destruct operations as [ops|]; [|reflexivity]. cbn [option_map process_data_body process_data].
  destruct (data_truthy data); [|reflexivity].
  assert (raw_operations toUpperCase null_type_error
            (map (fun op => OpObject (TypeString (dop_type op)) (dop_value op)) ops) data
          = apply_operations toUpperCase ops data) as ->; [|reflexivity].
  revert data. induction ops as [|[type value] ops IH]; intros data; [reflexivity|].
  cbn [map raw_operations raw_operation apply_operations dop_type dop_value].
  destruct (apply_operation toUpperCase (mkDataOp type value) data); [apply IH | reflexivity].
Qed.

(** One turn of the loop of the first version does what the [switch] of the
    rewritten one does, on a plain element. *)
Lemma first_version_step_plain op data :
  plain_operation op ->
  first_version_step toUpperCase null_type_error primitive_type_error op data
  = match raw_operation toUpperCase null_type_error op data with
    | inl data' => Continue data'
    | inr message => Refuse message
    end.
Proof.
  destruct op as [|[type|answer] value]; cbn [plain_operation]; [contradiction | intros _ | intros ->].
  - unfold first_version_step, raw_operation, apply_operation.
    cbn [strictly loosely dop_type dop_value].
    destruct (String.eqb_spec type "reverse") as [->|Hreverse].
    + now destruct data as [[]|].
    + destruct (String.eqb_spec type "uppercase") as [->|Huppercase].
      * now destruct data as [[]|].
      * destruct (String.eqb type "increment"); [|reflexivity].
        destruct data as [v|items].
        -- now destruct (is_number v).
        -- now destruct (forallb is_number items).
  - reflexivity.
Qed.

Lemma first_version_loop_plain done ops data :
  Forall plain_operation ops ->
  first_version_loop toUpperCase null_type_error primitive_type_error (done ++ ops)
    (List.length ops) (List.length done) data
  = match raw_operations toUpperCase null_type_error ops data with
    | inl result => Continue result
    | inr message => Refuse message
    end.
Proof.
  intros Hplain. revert done data.
  induction Hplain as [|op ops Hop _ IH]; intros done data; [reflexivity|].
  cbn [List.length first_version_loop raw_operations].
  rewrite nth_error_app2, Nat.sub_diag by lia. cbn [nth_error].
  rewrite (first_version_step_plain _ _ Hop).
  destruct (raw_operation toUpperCase null_type_error op data) as [data'|message];
    [|reflexivity].
  specialize (IH (done ++ [op]) data').
  rewrite <- app_assoc, length_app, Nat.add_1_r in IH. exact IH.
Qed.

(** X23.  The two versions of [/process_data], for a data that is a
    primitive value or an array of them and a body whose [operations] is
    missing or is an array of elements with integer values.  When no
    element is [null] and every type is a string, or is not loosely equal
    to ['uppercase'], the first version answers what the rewritten one
    answers, under the key [Data] instead of [data].  They differ on the
    other elements, here on the string [abc]: a type that is loosely equal
    to ['uppercase'] without being a string, as the array [['uppercase']],
    is an [uppercase] for the first version and is refused as unsupported
    by the rewritten one; on an element that is [null] the first version
    throws, and the rewritten one answers 400 with the message of the
    error; and so does the first version on a type that cannot be converted
    to a primitive, which the rewritten one refuses as unsupported. *)
Theorem process_data_versions_agree data operations value :
  match operations with Some ops => Forall plain_operation ops | None => True end ->
  process_data_first_version toUpperCase null_type_error primitive_type_error data operations
  = Answers (with_first_key (process_data_body toUpperCase null_type_error data operations))
  /\ (process_data_first_version toUpperCase null_type_error primitive_type_error
        (DValue (VStr "abc")) (Some [OpObject (TypeOther LooseTrue) value])
      = Answers (200%nat, JsonData "Data" (DValue (VStr (toUpperCase "abc"))))
      /\ process_data_body toUpperCase null_type_error
           (DValue (VStr "abc")) (Some [OpObject (TypeOther LooseTrue) value])
         = (400%nat, Text "Unsupported operation"))
  /\ (process_data_first_version toUpperCase null_type_error primitive_type_error
        (DValue (VStr "abc")) (Some [OpNull])
      = Throws null_type_error
      /\ process_data_body toUpperCase null_type_error (DValue (VStr "abc")) (Some [OpNull])
         = (400%nat, Text (err_message null_type_error)))
  /\ (process_data_first_version toUpperCase null_type_error primitive_type_error
        (DValue (VStr "abc")) (Some [OpObject (TypeOther LooseThrows) value])
      = Throws primitive_type_error
      /\ process_data_body toUpperCase null_type_error
           (DValue (VStr "abc")) (Some [OpObject (TypeOther LooseThrows) value])
         = (400%nat, Text "Unsupported operation")).
Proof.
  intros Hplain. split; [|repeat split].
  destruct operations as [ops|]; [|reflexivity].
  cbn [process_data_first_version process_data_body].
  destruct (data_truthy data); [|reflexivity].
  pose proof (first_version_loop_plain [] ops data Hplain) as Hloop.
  cbn [app List.length] in Hloop. rewrite Hloop.
  now destruct (raw_operations toUpperCase null_type_error ops data).
Qed.

End ProcessDataFacts.

Section SearchTerm.




End SearchTerm.


(** * The handlers *)

Section HandlerFacts.
Context {Ext R : Type}.
Variable drv : Driver Ext R.
Variable parseInt : string -> option Z.
Variable recordset : R -> list Entity.

Implicit Types (w : World Ext) (x : Ext).

(** [runCommand], case by case. *)
Lemma runCommand_cases poolName commandType command inputs outputs w :
  runCommand drv poolName commandType command inputs outputs w =
    match getPool drv poolName None w with
    | (Err e, w1, t1) => (Err e, w1, t1 ++ [Log LvError (ErrorRunningCommand poolName e)])
    | (Ok pool, w1, t1) =>
        let refused e :=
          (Err e, w1, t1 ++ [Log LvError (ErrorRunningCommand poolName e)]) in
        match assign_each drv input inputs [] with
        | inl e => refused e
        | inr request1 =>
            match assign_each drv output outputs request1 with
            | inl e => refused e
            | inr request =>
                let answer :=
                  drv_run drv (OnPool (pool_id pool)) commandType command request (ext w1) in
                (match fst answer with inr v => Ok v | inl e => Err e end,
                 mkWorld (pools w1) (next_id w1) (snd answer),
                 t1 ++ [Log LvInfo (RunningCommand commandType poolName);
                        RequestRun (OnPool (pool_id pool)) commandType command request])
            end
        end
    end.
Proof.
  unfold runCommand, bind at 1. unfold try_catch, bind at 1.
  destruct (getPool drv poolName None w) as [[[pool|e] w1] t1]; [|reflexivity].
  unfold bind, assignParams, logger, emit, ret, throw, request_run.
  destruct (assign_each drv input inputs []) as [e|request1]; [same_trace|].
  destruct (assign_each drv output outputs request1) as [e|request]; [same_trace|].
  simpl. destruct (drv_run drv _ commandType command request (ext w1)) as [[e|v] x];
    simpl; f_equal; same_trace.
Qed.

(** Every request that [runCommand] sends carries the command text and the
    kind it was given, and the parameters as they were bound. *)
Lemma runCommand_requests poolName commandType command inputs outputs w target k c b :
  In (RequestRun target k c b)
     (trace_of (runCommand drv poolName commandType command inputs outputs w)) ->
  k = commandType /\ c = command
  /\ exists request1,
      assign_each drv input inputs [] = inr request1
      /\ assign_each drv output outputs request1 = inr b.
Proof.
  rewrite runCommand_cases.
  pose proof (getPool_events drv poolName None w) as Hevs.
  destruct (getPool drv poolName None w) as [[[pool|e] w1] t1];
    unfold trace_of in *; simpl in *; rewrite Forall_forall in Hevs.
  - destruct (assign_each drv input inputs []) as [e|request1].
    + intros Hin. apply in_app_or in Hin as [Hin|[Hin|[]]];
        [destruct (Hevs _ Hin) | discriminate].
    + destruct (assign_each drv output outputs request1) as [e|request] eqn:H2.
      * intros Hin. apply in_app_or in Hin as [Hin|[Hin|[]]];
          [destruct (Hevs _ Hin) | discriminate].
      * simpl. intros Hin. apply in_app_or in Hin as [Hin|[Hin|[Hin|[]]]];
          [destruct (Hevs _ Hin) | discriminate |].
        injection Hin as <- <- <- <-.
        split; [reflexivity|]. split; [reflexivity|]. exists request1. now split.
  - intros Hin. apply in_app_or in Hin as [Hin|[Hin|[]]];
      [destruct (Hevs _ Hin) | discriminate].
Qed.

Lemma responses_map_Manager (t : list Event) : responses (map Manager t) = [].
Proof. induction t as [|ev t IH]; [reflexivity | exact IH]. Qed.

Lemma manager_events_map_Manager (t : list Event) : manager_events (map Manager t) = t.
Proof. induction t as [|ev t IH]; [reflexivity | simpl; now rewrite IH]. Qed.

Lemma responses_app t t' : responses (t ++ t') = responses t ++ responses t'.
Proof. apply flat_map_app. Qed.

Lemma manager_events_app t t' :
  manager_events (t ++ t') = manager_events t ++ manager_events t'.
Proof. apply flat_map_app. Qed.

(** X27.  [GET /user/:id].  When the id is not a number or is negative
    the handler answers once, 400, does not touch the manager, and fails:
    its [catch] block logs the error and tries to answer 500, which throws
    because the answer was sent, and that error is the outcome of the
    handler.  Otherwise the handler succeeds: it runs one [runCommand] on
    [readPool] with the id bound as a typed parameter and answers once:
    200 with the first row, 404 when there is no row, and 500 with a fixed
    text, never the error, when [runCommand] fails. *)
Theorem user_handler_answers id w :
  let h := user_handler drv parseInt recordset id w in
  let invalid :=
    (Err headers_sent, w,
     [Respond 400 (Text "Invalid input");
      RouteLog "Error from userid request" (new_Error "Invalid input")]) in
  match parseInt id with
  | Some userId =>
      if Z.ltb userId 0
      then h = invalid
      else
        let o := runCommand drv "readPool" query user_query
                            [mkParam "UserId" (VNum userId) (Some SqlInt)] [] w in
        fst (fst h) = Ok tt
        /\ snd (fst h) = world_of o
        /\ manager_events (snd h) = trace_of o
        /\ responses (snd h) =
             [match result_of o with
              | Ok result =>
                  match recordset result with
                  | row :: _ => (200, JsonRow row)
                  | [] => (404, Text "User not found")
                  end
              | Err _ => (500, Text "Internal server error")
              end]
  | None => h = invalid
  end.
Proof.
  intros h invalid. unfold h, invalid, user_handler.
  destruct (parseInt id) as [userId|]; [|reflexivity].
  destruct (Z.ltb userId 0); [reflexivity|].
  destruct (runCommand drv "readPool" query user_query _ [] w) as [[r w1] t].
  unfold world_of, trace_of, result_of. simpl.
  destruct r as [result|e]; [destruct (recordset result) as [|row rows]|]; simpl;
    rewrite manager_events_app, responses_app, manager_events_map_Manager,
      responses_map_Manager, app_nil_r; repeat split.
Qed.

(** X28.  [GET /fibonacci-1/:n].  For a parameter that parses to an
    integer [n] from 0 to below 2^53 the handler answers once, 200 with the
    entry [fib[n]] of its array, whatever happens to the [runCommand] that
    logs that entry on [writePool]: its failure is swallowed.  Up to
    [n = 78] the entry is the Fibonacci number of [n].  For a parameter
    that is not a number or is negative the handler answers 400 once and
    does not touch the manager. *)
Theorem fibonacci_1_handler_answers param w :
  let h := fibonacci_1_handler drv parseInt param w in
  match parseInt param with
  | Some n =>
      if Z.ltb n 0
      then h = (w, [Respond 400 (Text "Invalid input")])
      else
        (n < 2 ^ 53)%Z ->
        let result := fibonacci_1 (Z.to_nat n) in
        responses (snd h) = [(200, JsonResult result)]
        /\ manager_events (snd h) =
             trace_of (runCommand drv "writePool" query fibonacci_log_query
                         [mkParam "Type" (VStr "Fibonacci") (Some SqlVarChar);
                          mkParam "Input" (VNum n) (Some SqlInt);
                          mkParam "Result" (array_value result) (Some SqlInt)] [] w)
        /\ ((n <= 78)%Z ->
            result = Some (Finite (F (Z.to_nat n)))
            /\ array_value result = VNum (F (Z.to_nat n)))
  | None => h = (w, [Respond 400 (Text "Invalid input")])
  end.
Proof.
  intros h. unfold h, fibonacci_1_handler.
  destruct (parseInt param) as [n|]; [|reflexivity].
  destruct (Z.ltb_spec n 0) as [|Hn]; [reflexivity|].
  intros Hsmall. destruct (Z.leb_spec (2 ^ 53) n) as [|_]; [lia|].
  destruct (runCommand drv "writePool" query fibonacci_log_query _ [] w) as [[r w1] t].
  unfold trace_of. cbn [snd].
  rewrite manager_events_app, responses_app, manager_events_map_Manager,
    responses_map_Manager, app_nil_r.
  split; [reflexivity|]. split; [reflexivity|].
  intros H78. rewrite fibonacci_1_F by lia. split; reflexivity.
Qed.

(** X29.  [POST /search].  Without a search term, or with the empty one,
    the handler answers 400 and does not touch the manager.  Otherwise it
    answers once, and every request it makes the driver run has the fixed
    text of the query and binds the cleaned term as the one typed
    parameter: the term is never part of the text of the query. *)
Theorem search_handler_binds_clean_term searchTerm w :
  let h := search_handler drv recordset searchTerm w in
  match searchTerm with
  | Some term =>
      if truthy term
      then
        List.length (responses (snd h)) = 1
        /\ forall target k c b,
             In (RequestRun target k c b) (manager_events (snd h)) ->
             k = query /\ c = search_query
             /\ b = [Bind3 input "searchTerm" SqlVarChar (VStr (clean_search_term term))]
      else h = (w, [Respond 400 (Text "Search term is required")])
  | None => h = (w, [Respond 400 (Text "Search term is required")])
  end.
Proof.
  intros h. unfold h, search_handler.
  destruct searchTerm as [term|]; [|reflexivity].
  destruct (truthy term); [|reflexivity].
  pose proof (runCommand_requests "readPool" query search_query
                [mkParam "searchTerm" (VStr (clean_search_term term)) (Some SqlVarChar)]
                [] w) as Hreq.
  destruct (runCommand drv "readPool" query search_query _ [] w) as [[r w1] t].
  unfold trace_of in Hreq. simpl in Hreq.
  assert (Hbinds : forall target k c b, In (RequestRun target k c b) t ->
           k = query /\ c = search_query
           /\ b = [Bind3 input "searchTerm" SqlVarChar (VStr (clean_search_term term))]).
  { intros target k c b Hin. destruct (Hreq target k c b Hin) as (-> & -> & r1 & H1 & H2).
    repeat split. simpl in H1. unfold bind_call in H1. simpl in H1.
    destruct (drv_bind drv [] _); [discriminate|]. injection H1 as <-.
    simpl in H2. now injection H2 as <-. }
  destruct r as [result|e]; [destruct (recordset result) as [|row rows]|]; simpl;
    rewrite manager_events_app, responses_app, manager_events_map_Manager,
      responses_map_Manager, app_nil_r; (split; [reflexivity | exact Hbinds]).
Qed.

End HandlerFacts.


(** * The table of a bulk insert *)

Section BulkTable.

(** X15.  The table that [bulkInsert] builds carries the name it was
    given and the declared columns, in the order of their declaration, with
    their types and with [{}] for options that are missing.  Every row has
    one cell for each declared column, and a field that is not declared is
    left out.  A field that the entity lacks gives the cell that the
    entity inherits under the name of the column: [undefined] under most
    names, but a method of [Object.prototype] under a name such as
    [toString]. *)
Theorem bulk_table_shape tableName columns entities :
  let table := build_table tableName columns entities in
  table_name table = tableName
  /\ map (fun c => fst (fst c)) (table_columns table) = map column_name columns
  /\ map (fun c => snd (fst c)) (table_columns table) = map column_type columns
  /\ map snd (table_columns table)
     = map (fun c => match column_options c with Some o => o | None => [] end) columns
  /\ Forall (fun row => List.length row = List.length columns) (table_rows table)
  /\ (forall e c, ~ In (column_name c) (Object_keys e) ->
        project [c] e = [Object_prototype (column_name c)])
  /\ (forall e c, ~ In (column_name c) (Object_keys e) ->
        Object_prototype (column_name c) = VUndefined ->
        project [c] e = [VUndefined])
  /\ project [mkColumn "toString" SqlVarChar None] [("id", VNum 1)]
     = [VBuiltin "Object.prototype.toString"]
  /\ (forall e e',
       (forall c, In c columns ->
          entity_get e (column_name c) = entity_get e' (column_name c)) ->
       project columns e = project columns e').
Proof.
  intros table. unfold table. rewrite build_table_eq. simpl.
  split; [reflexivity|]. rewrite !map_map. simpl.
  split; [reflexivity|]. split; [reflexivity|]. split; [reflexivity|]. split.
  { apply Forall_forall. intros row Hin. apply in_map_iff in Hin as (e & <- & _).
    unfold project. apply length_map. }
  assert (Hlacks : forall e c, ~ In (column_name c) (Object_keys e) ->
            project [c] e = [Object_prototype (column_name c)]).
  { intros e c Hnot. unfold project. simpl. f_equal.
    induction e as [|[k v] e IH]; [reflexivity|]. simpl in *.
    destruct (String.eqb_spec k (column_name c)) as [Heq|Hne]; [tauto|].
    apply IH. tauto. }
  split; [exact Hlacks|]. split; [intros e c Hnot <-; now apply Hlacks|].
  split; [reflexivity|].
  intros e e' Hagree. unfold project. now apply map_ext_in.
Qed.

End BulkTable.


(** * The added properties on the example drivers *)

Section MoreExamples.
Import Example Example2.

Lemma reachable_registry_ok_witness :
  registry_ok (perform (driver no_faults) (ClosePool "readPool") (manager no_faults)).
Proof.
  apply (reachable_registry_ok (driver no_faults)).
  apply reach_call. apply (reach_constructor (driver no_faults)).
Defined.

Lemma setPool_failure_drops_entry_witness :
  let o := setPool (driver faults_in_new) "readPool" (Some cfgB) (manager no_faults) in
  result_of o = Err (new_Error "invalid config")
  /\ JsMap.get "readPool" (pools (world_of o)) = None
  /\ JsMap.get "writePool" (pools (world_of o)) = Some (mkPool 1 cfgB "writePool").
Proof.
  intros o.
  destruct (setPool_failure_drops_entry (driver faults_in_new) (manager no_faults) "readPool"
              (mkPool 0 cfgA "readPool") (Some cfgB) (new_Error "invalid config") db0
              (manager_registry_ok _) eq_refl eq_refl)
    as (Hr & _ & Hgone & Hother & _).
  split; [exact Hr|]. split; [exact Hgone|].
  unfold o. rewrite Hother by discriminate. reflexivity.
Defined.

Lemma stale_close_removes_successor_witness :
  let replaced := world_of (setPool (driver no_faults) "readPool" (Some cfgB)
                                    (manager no_faults)) in
  JsMap.get "readPool" (pools replaced) = Some (mkPool 2 cfgB "readPool")
  /\ JsMap.get "readPool"
       (pools (world_of (pool_close (driver no_faults) (mkPool 0 cfgA "readPool") replaced)))
     = None.
Proof.
  intros replaced.
  destruct (stale_close_removes_successor (driver no_faults) (manager no_faults) "readPool"
              (mkPool 0 cfgA "readPool") cfgB db0 (manager_registry_ok _) eq_refl eq_refl)
    as (Hnew & Hgone & _).
  split; [exact Hnew | exact Hgone].
Defined.

Lemma getPool_present_ignores_config_witness :
  getPool (driver no_faults) "readPool" (Some cfgB) (manager no_faults)
  = getPool (driver no_faults) "readPool" None (manager no_faults).
Proof.
  exact (proj1 (getPool_present_ignores_config (driver no_faults) (manager no_faults)
                  "readPool" (mkPool 0 cfgA "readPool") (Some cfgB) eq_refl)).
Defined.

Lemma getPool_connect_failure_keeps_pool_witness :
  let o := getPool recovering_driver "readPool" (Some cfgA) empty_manager in
  result_of o = Err (new_Error "connect failed")
  /\ result_of (getPool recovering_driver "readPool" None (world_of o))
     = Ok (mkPool 0 cfgA "readPool").
Proof.
  intros o.
  destruct (getPool_connect_failure_keeps_pool recovering_driver empty_manager "readPool"
              cfgA db0 (new_Error "connect failed") (mkDb [] ["connect failed"])
              eq_refl ltac:(discriminate) eq_refl eq_refl eq_refl eq_refl)
    as (Hr & _ & Hagain).
  split; [exact Hr|].
  unfold o. now rewrite (Hagain eq_refl eq_refl (mkDb [0] ["connect failed"]) eq_refl).
Defined.

Lemma assignParams_order_witness :
  result_of (assignParams (driver no_faults) []
               [mkParam "id" (VNum 1) (Some SqlInt); mkParam "name" (VStr "a") None]
               [mkParam "total" VNull (Some SqlInt)] empty_manager)
  = Ok [Bind3 input "id" SqlInt (VNum 1); Bind2 input "name" (VStr "a");
        Bind3 output "total" SqlInt VNull].
Proof.
  destruct (assignParams_order (driver no_faults) []
              [mkParam "id" (VNum 1) (Some SqlInt); mkParam "name" (VStr "a") None]
              [mkParam "total" VNull (Some SqlInt)] empty_manager) as [Heq _].
  - intros req c. reflexivity.
  - now rewrite Heq.
Defined.

Lemma runCommand_passes_driver_answer_witness :
  let f := mkFaults None None (fun _ => None) (fun _ => Some (new_Error "syntax error"))
                    None None None None in
  runCommand (driver f) "readPool" query "SELEC 1" [] [] (manager f)
  = (Err (new_Error "syntax error"),
     with_ext (manager f) (mkDb [0] []),
     [PoolConnect 0; Log LvInfo (RunningCommand query "readPool");
      RequestRun (OnPool 0) query "SELEC 1" []]).
Proof.
  intros f.
  edestruct (runCommand_passes_driver_answer (driver f) "readPool" query "SELEC 1" [] []
               (manager f)) as [Heq _]; [reflexivity .. |].
  exact Heq.
Defined.

Lemma commands_need_a_configured_pool_witness :
  result_of (runCommand (driver no_faults) "readPool" query "SELECT 1" [] [] empty_manager)
  = Err (new_Error "Configuration for pool readPool not provided")
  /\ world_of (executeTransaction (driver no_faults) "readPool" [opA] empty_manager)
     = empty_manager.
Proof.
  destruct (commands_need_a_configured_pool (driver no_faults) "readPool" query "SELECT 1"
              [] [] "Users" users_columns users [opA] empty_manager eq_refl)
    as (Hrun & _ & Htx).
  split; [now rewrite Hrun | now rewrite Htx].
Defined.

Lemma constructor_registers_in_order_witness :
  pools (manager no_faults) =
    [("readPool", mkPool 0 cfgA "readPool"); ("writePool", mkPool 1 cfgB "writePool")].
Proof.
  refine (proj1 (constructor_registers_in_order (driver no_faults)
                   [("readPool", cfgA); ("writePool", cfgB)] db0 _ _ _)).
  - intros id cfg x. reflexivity.
  - repeat constructor; simpl; intuition discriminate.
  - repeat constructor; discriminate.
Defined.

Lemma executeTransaction_commits_in_order_witness :
  let o := executeTransaction (driver no_faults) "writePool" [opA; opB] (manager no_faults) in
  result_of o = Ok tt
  /\ tx_commands (trace_of o) = [(execute, "INSERT A"); (execute, "INSERT B")].
Proof.
  intros o.
  edestruct (executeTransaction_commits_in_order (driver no_faults) "writePool" [opA; opB]
               (manager no_faults)) as (Hr & _ & Hc & _); [reflexivity .. |].
  split; [exact Hr | exact Hc].
Defined.

Lemma executeTransaction_begin_fails_witness :
  executeTransaction (driver faults_in_begin) "writePool" [opA; opB]
                     (manager faults_in_begin)
  = (Err (new_Error "begin failed"),
     with_ext (manager faults_in_begin) (mkDb [1] []),
     [PoolConnect 1; TxBegin 1;
      Log LvError (TransactionBeginError (new_Error "begin failed"))]).
Proof.
  exact (executeTransaction_begin_fails (driver faults_in_begin) "writePool" [opA; opB]
           (manager faults_in_begin) (mkPool 1 cfgB "writePool")
           (with_ext (manager faults_in_begin) (mkDb [1] [])) [PoolConnect 1]
           (new_Error "begin failed") (mkDb [1] []) eq_refl eq_refl).
Defined.

Lemma retryOperation_attempts_witness :
  calls (trace_of (retryOperation broken 5 100 empty_manager)) = 6
  /\ calls (trace_of (retryOperation broken (-3) 100 empty_manager)) = 1.
Proof.
  assert (Hfail : forall x, exists e x', broken x = (inl e, x'))
    by (intros x; eexists _, _; reflexivity).
  split.
  - exact (proj1 (retryOperation_attempts (T := Value) broken 5 100 empty_manager Hfail)).
  - exact (proj1 (retryOperation_attempts (T := Value) broken (-3) 100 empty_manager Hfail)).
Defined.

Lemma retryOperation_backoff_schedule_witness :
  timeouts (trace_of (retryOperation broken 4 100 empty_manager)) = [100; 200; 400; 800]%Z.
Proof.
  refine (proj1 (retryOperation_backoff_schedule (T := Value) broken 4 100 empty_manager
                   _ _)).
  - intros x. eexists _, _. reflexivity.
  - lia.
Defined.

Lemma closing_twice_witness :
  let w1 := world_of (closePool (driver no_faults) "readPool" (manager no_faults)) in
  result_of (closePool (driver no_faults) "readPool" w1)
  = Err (new_Error "Pool readPool does not exist").
Proof.
  intros w1.
  destruct (closing_twice (driver no_faults) (manager no_faults) "readPool"
              (mkPool 0 cfgA "readPool") (manager_registry_ok _) eq_refl) as [Hagain _].
  unfold w1. now rewrite Hagain.
Defined.

Lemma process_reduce_weights_witness :
  process_reduce [1; 2; 3; -4]%Z = Finite 8.
Proof.
  destruct (process_reduce_weights [1; 2; 3; -4]%Z) as [H _].
  - vm_compute. discriminate.
  - exact H.
Defined.

Lemma fibonacci_1_correct_witness :
  fibonacci_1 10 = Some (Finite 55).
Proof.
  destruct (fibonacci_1_correct 10) as (_ & H & _).
  - repeat constructor.
  - exact H.
Defined.

Lemma fibMemo_correct_witness :
  fst (fibMemo 10 10 []) = Some (Finite 55)
  /\ memo_get 10 (snd (fibMemo 10 10 [])) = Some (Finite 55).
Proof.
  destruct (fibMemo_correct 10 10 []) as (Hv & _ & _ & Hstored & _).
  - split; discriminate.
  - apply Nat.le_refl.
  - intros k v. discriminate.
  - split; [exact Hv | apply Hstored; discriminate].
Defined.

Lemma fibMemo_zero_depends_on_history_witness :
  fibMemo 0 0 [] = (Some (Finite 1), [])
  /\ fibMemo 0 0 (snd (fibHybridMemo (fun n => Finite (F (Z.to_nat n))) 0 []))
     = (Some (Finite 0), [(0%Z, Finite 0)]).
Proof.
  destruct (fibMemo_zero_depends_on_history (fun n => Finite (F (Z.to_nat n))) 0 [] eq_refl)
    as (H1 & _ & _ & H2).
  split; [exact H1 | exact H2].
Defined.


Lemma fibMatrix_correct_witness :
  matrixPower (numbers (mkMat2 2 1 0 3)%Z) 5 = numbers (mat_pow (mkMat2 2 1 0 3)%Z 5)
  /\ fibMatrix 50 = Finite 12586269025.
Proof.
  destruct fibMatrix_correct as (Hpow & Hfib & _). split.
  - apply Hpow; [discriminate|]. intros k Hk.
    do 6 (destruct k as [|k]; [vm_compute; repeat split; discriminate|]).
    exfalso. cbv in Hk. do 5 apply le_S_n in Hk. inversion Hk.
  - apply (Hfib 50%Z). split; discriminate.
Defined.

Lemma process_data_operations_compose_witness :
  let data := DArray [VNum 1; VInfinity false; VNum 5] in
  apply_operations (fun s => s) [mkDataOp "increment" 2; mkDataOp "increment" 3] data
  = apply_operations (fun s => s) [mkDataOp "increment" 5] data.
Proof.
  intros data.
  destruct (process_data_operations_compose (fun s => s) data [] 0 0 2 3) as (_ & H & _).
  apply H. repeat constructor; vm_compute; discriminate.
Defined.

Lemma process_data_versions_agree_witness :
  let operations :=
    Some [OpObject (TypeString "reverse") 0; OpObject (TypeOther LooseFalse) 0;
          OpObject (TypeString "increment") 1] in
  process_data_first_version (fun s => s) (new_Error "null") (new_Error "primitive")
    (DArray [VNum 1; VNum 2]) operations
  = Answers (400, Text "Unsupported operation").
Proof.
  intros operations.
  destruct (process_data_versions_agree (fun s => s) (new_Error "null")
              (new_Error "primitive") (DArray [VNum 1; VNum 2]) operations 0%Z) as [H _].
  - repeat constructor.
  - exact H.
Defined.

Lemma fibonacci_1_handler_answers_witness :
  responses (snd (fibonacci_1_handler (driver no_faults) (fun _ => Some 10%Z) "10"
                                      (manager no_faults)))
  = [(200, JsonResult (Some (Finite 55)))].
Proof.
  pose proof (fibonacci_1_handler_answers (driver no_faults) (fun _ => Some 10%Z) "10"
                (manager no_faults)) as H.
  cbv beta iota zeta in H. change (Z.ltb 10 0) with false in H. cbv iota in H.
  destruct (H eq_refl) as (Hr & _ & H78).
  destruct (H78 ltac:(discriminate)) as [Hres _].
  rewrite Hres in Hr. exact Hr.
Defined.

End MoreExamples.
